(** * BansheeEngine: subresource-range partitioning and the GPU resource pool

    A shallow embedding of two pieces of the engine:

    - [VulkanUtility]: [cutHorizontal], [cutVertical], [cutRange] and
      [rangeOverlaps] of [BsVulkanUtility.cpp], over 32-bit machine integers
      written as [Z] with the wrap-around spelled out, and with the fixed-size
      C arrays the functions write into modelled as lists whose out-of-range
      writes are failures;
    - [GpuResourcePool]: the pool of render textures and storage buffers,
      with wrappers living in a heap indexed by address, the pool's maps from
      raw pointer to weak pointer, and the destructors of both sides. *)

From stdpp Require Import base tactics option list gmap fin_maps.
From Stdlib Require Import ZArith Lia.

Local Open Scope Z_scope.

(** ** Machine integers *)

Module MachineInt.

Definition two32 : Z := 4294967296.
Definition two31 : Z := 2147483648.

(** Value of an integer expression once stored in a [UINT32]. *)
Definition UINT32 (z : Z) : Z := z mod two32.

(** Value of an integer expression once converted to [INT32]
    (two's complement). The conversion of a [UINT32] value is the
    conversion of the expression it was computed from, so the inner
    [UINT32] of a cast such as [(INT32)(a + b)] is left out. *)
Definition INT32 (z : Z) : Z := (z + two31) mod two32 - two31.

End MachineInt.

(** ** Fixed-size arrays *)

Module CArray.

(** [arr[i] = x] on an array of fixed size; writing past the end is
    undefined behaviour, rendered as [None]. *)
Definition store {A} (arr : list A) (i : nat) (x : A) : option (list A) :=
  if decide (i < length arr)%nat then Some (<[i := x]> arr) else None.

End CArray.

(** ** Range partitioner *)

Module VulkanUtility.
Import MachineInt CArray.

(** [VkImageSubresourceRange]: five [uint32_t] fields. *)
Record VkImageSubresourceRange := mkRange {
  aspectMask : Z;
  baseMipLevel : Z;
  levelCount : Z;
  baseArrayLayer : Z;
  layerCount : Z
}.

Definition with_layers (r : VkImageSubresourceRange) (base count : Z)
  : VkImageSubresourceRange :=
  {| aspectMask := aspectMask r;
     baseMipLevel := baseMipLevel r;
     levelCount := levelCount r;
     baseArrayLayer := base;
     layerCount := count |}.

Definition with_mips (r : VkImageSubresourceRange) (base count : Z)
  : VkImageSubresourceRange :=
  {| aspectMask := aspectMask r;
     baseMipLevel := base;
     levelCount := count;
     baseArrayLayer := baseArrayLayer r;
     layerCount := layerCount r |}.

(** The result of a cutting routine: the array written into and the number
    of areas written, or [None] when a write fell outside the array. *)
Definition cut_result : Type := option (list VkImageSubresourceRange * nat).

(** [cutHorizontal(toCut, cutWith, output, numAreas)]; [output] is the array
    the pointer argument points into and [off] the pointer's offset in it. *)
Definition cutHorizontal (toCut cutWith : VkImageSubresourceRange)
    (output : list VkImageSubresourceRange) (off : nat) : cut_result :=
  let numAreas := 0%nat in
  let leftCut := INT32 (baseArrayLayer cutWith - baseArrayLayer toCut) in
  let rightCut :=
    INT32 (UINT32 (baseArrayLayer cutWith + layerCount cutWith)
           - baseArrayLayer toCut) in
  '(output, numAreas) ←
    (if (0 <? leftCut)
        && (leftCut <? INT32 (baseArrayLayer toCut + layerCount toCut))
     then
       output ← store output (off + numAreas)
                 (with_layers toCut (baseArrayLayer toCut) (UINT32 leftCut));
       Some (output, S numAreas)
     else Some (output, numAreas));
  '(output, numAreas) ←
    (if (0 <? rightCut) && (rightCut <? INT32 (layerCount toCut))
     then
       output ← store output (off + numAreas)
                 (with_layers toCut
                    (UINT32 (baseArrayLayer toCut + rightCut))
                    (UINT32 (layerCount toCut - rightCut)));
       Some (output, S numAreas)
     else Some (output, numAreas));
  (* If we made both left and right cuts, we need a middle one as well *)
  '(output, numAreas) ←
    (if (numAreas =? 2)%nat
     then
       output ← store output (off + numAreas)
                 (with_layers toCut
                    (UINT32 (baseArrayLayer toCut + leftCut))
                    (UINT32 (UINT32 (layerCount toCut
                                     - UINT32 (layerCount toCut - rightCut))
                             - leftCut)));
       Some (output, S numAreas)
     else Some (output, numAreas));
  (* Nothing to cut *)
  if (numAreas =? 0)%nat
  then
    output ← store output (off + numAreas) toCut;
    Some (output, S numAreas)
  else Some (output, numAreas).

(** [cutVertical(toCut, cutWith, output, numAreas)], the same on the
    mip-level axis. *)
Definition cutVertical (toCut cutWith : VkImageSubresourceRange)
    (output : list VkImageSubresourceRange) (off : nat) : cut_result :=
  let numAreas := 0%nat in
  let topCut := INT32 (baseMipLevel cutWith - baseMipLevel toCut) in
  let bottomCut :=
    INT32 (UINT32 (baseMipLevel cutWith + levelCount cutWith)
           - baseMipLevel toCut) in
  '(output, numAreas) ←
    (if (0 <? topCut)
        && (topCut <? INT32 (baseMipLevel toCut + levelCount toCut))
     then
       output ← store output (off + numAreas)
                 (with_mips toCut (baseMipLevel toCut) (UINT32 topCut));
       Some (output, S numAreas)
     else Some (output, numAreas));
  '(output, numAreas) ←
    (if (0 <? bottomCut) && (bottomCut <? INT32 (levelCount toCut))
     then
       output ← store output (off + numAreas)
                 (with_mips toCut
                    (UINT32 (baseMipLevel toCut + bottomCut))
                    (UINT32 (levelCount toCut - bottomCut)));
       Some (output, S numAreas)
     else Some (output, numAreas));
  (* If we made both top and bottom cuts, we need a middle one as well *)
  '(output, numAreas) ←
    (if (numAreas =? 2)%nat
     then
       output ← store output (off + numAreas)
                 (with_mips toCut
                    (UINT32 (baseMipLevel toCut + topCut))
                    (UINT32 (UINT32 (levelCount toCut
                                     - UINT32 (levelCount toCut - bottomCut))
                             - topCut)));
       Some (output, S numAreas)
     else Some (output, numAreas));
  (* Nothing to cut *)
  if (numAreas =? 0)%nat
  then
    output ← store output (off + numAreas) toCut;
    Some (output, S numAreas)
  else Some (output, numAreas).

(** The containment test of the loop of [cutRange], in [uint32_t]. *)
Definition layers_within (range cutWith : VkImageSubresourceRange) : bool :=
  (baseArrayLayer cutWith <=? baseArrayLayer range)
  && (UINT32 (baseArrayLayer range + layerCount range)
      <=? UINT32 (baseArrayLayer cutWith + layerCount cutWith)).

(** The loop [for (i = 0; i < numHorzCuts; i++)] of [cutRange], over the
    pieces [horzCuts[i]] still to be visited. *)
Fixpoint cutRange_loop (pieces : list VkImageSubresourceRange)
    (cutWith : VkImageSubresourceRange)
    (output : list VkImageSubresourceRange) (numAreas : nat) : cut_result :=
  match pieces with
  | [] => Some (output, numAreas)
  | range :: rest =>
      '(output, numAreas) ←
        (if layers_within range cutWith
         then
           '(output, numVertCuts) ← cutVertical range cutWith output numAreas;
           Some (output, (numAreas + numVertCuts)%nat)
         else
           output ← store output numAreas range;
           Some (output, S numAreas));
      cutRange_loop rest cutWith output numAreas
  end.

(** [VulkanUtility::cutRange(toCut, cutWith, output, numAreas)]. [output] is
    the caller's [std::array<VkImageSubresourceRange, 5>]; the local
    [horzCuts] has three slots whose initial contents are never read. The
    final [assert(numAreas <= 5)] is rendered as a failure when violated. *)
Definition cutRange (toCut cutWith : VkImageSubresourceRange)
    (output : list VkImageSubresourceRange) : cut_result :=
  let horzCuts := replicate 3 toCut in
  '(horzCuts, numHorzCuts) ← cutHorizontal toCut cutWith horzCuts 0;
  '(output, numAreas) ←
    cutRange_loop (take numHorzCuts horzCuts) cutWith output 0;
  if decide (numAreas ≤ 5)%nat then Some (output, numAreas) else None.

(** The areas a call reports: the first [numAreas] slots of [output]. *)
Definition areas (r : cut_result) : option (list VkImageSubresourceRange) :=
  '(output, numAreas) ← r; Some (take numAreas output).

(** [VulkanUtility::rangeOverlaps(a, b)]. *)
Definition rangeOverlaps (a b : VkImageSubresourceRange) : bool :=
  let aRight := INT32 (baseArrayLayer a + INT32 (layerCount a)) in
  let bRight := INT32 (baseArrayLayer b + INT32 (layerCount b)) in
  let aBottom := INT32 (baseMipLevel a + INT32 (levelCount a)) in
  let bBottom := INT32 (baseMipLevel b + INT32 (levelCount b)) in
  (INT32 (baseArrayLayer a) <? bRight)
  && (INT32 (baseArrayLayer b) <? aRight)
  && (INT32 (baseMipLevel a) <? bBottom)
  && (INT32 (baseMipLevel b) <? aBottom).

(** *** Vocabulary of the statements *)

(** A range whose fields are [uint32_t] values and whose two extents end
    without wrapping around. *)
Definition well_formed (r : VkImageSubresourceRange) : Prop :=
  (0 ≤ baseArrayLayer r ∧ 0 ≤ layerCount r
   ∧ baseArrayLayer r + layerCount r < two32)
  ∧ (0 ≤ baseMipLevel r ∧ 0 ≤ levelCount r
     ∧ baseMipLevel r + levelCount r < two32).

(** The subresource (layer [l], mip level [m]) belongs to the rectangle. *)
Definition covers (r : VkImageSubresourceRange) (l m : Z) : Prop :=
  (baseArrayLayer r ≤ l < baseArrayLayer r + layerCount r)
  ∧ (baseMipLevel r ≤ m < baseMipLevel r + levelCount r).

(** Two rectangles describe the same region of (layer, mip) space. *)
Definition same_region (a b : VkImageSubresourceRange) : Prop :=
  baseArrayLayer a = baseArrayLayer b ∧ layerCount a = layerCount b
  ∧ baseMipLevel a = baseMipLevel b ∧ levelCount a = levelCount b.

Definition no_overlap (a b : VkImageSubresourceRange) : Prop :=
  ∀ l m, ¬ (covers a l m ∧ covers b l m).

Fixpoint pairwise_no_overlap (rs : list VkImageSubresourceRange) : Prop :=
  match rs with
  | [] => True
  | r :: rest => Forall (no_overlap r) rest ∧ pairwise_no_overlap rest
  end.

(** A rectangle with strictly positive extents lying inside [outer]. *)
Definition positive_within (outer r : VkImageSubresourceRange) : Prop :=
  0 < layerCount r ∧ 0 < levelCount r
  ∧ baseArrayLayer outer ≤ baseArrayLayer r
  ∧ baseArrayLayer r + layerCount r ≤ baseArrayLayer outer + layerCount outer
  ∧ baseMipLevel outer ≤ baseMipLevel r
  ∧ baseMipLevel r + levelCount r ≤ baseMipLevel outer + levelCount outer.

(** What a ring around the cut-out region would be: five rectangles, none
    of them the region of [cutWith], pairwise without overlap, which
    together with [cutWith] make up [toCut]. *)
Definition ring_around (toCut cutWith : VkImageSubresourceRange)
    (out : list VkImageSubresourceRange) : Prop :=
  length out = 5%nat
  ∧ Forall (λ r, ¬ same_region r cutWith) out
  ∧ pairwise_no_overlap out
  ∧ ∀ l m, covers toCut l m
           ↔ covers cutWith l m ∨ Exists (λ r, covers r l m) out.




(** Both extents end below [2^31], so that every [INT32] conversion in
    the cutting routines is exact; and both extents are positive. *)
Definition fits_int32 (r : VkImageSubresourceRange) : Prop :=
  (0 ≤ baseArrayLayer r ∧ baseArrayLayer r + layerCount r < two31)
  ∧ (0 ≤ baseMipLevel r ∧ baseMipLevel r + levelCount r < two31).

Definition positive_extents (r : VkImageSubresourceRange) : Prop :=
  0 < layerCount r ∧ 0 < levelCount r.

(** The offset [cb - tb] of the cutting interval does not fall strictly
    between the length [tc] of the interval cut and [tb + tc], the bound
    the first test of the cutting routines compares it with. *)
Definition first_test_exact (tb tc cb : Z) : Prop :=
  ¬ (tc < cb - tb < tb + tc).

(** Number of slots the loop of [cutRange] may fill for the given pieces. *)
Definition slots_needed (cutWith : VkImageSubresourceRange)
    (pieces : list VkImageSubresourceRange) : nat :=
  sum_list_with (λ r, if layers_within r cutWith then 3 else 1)%nat pieces.

End VulkanUtility.

(** ** GPU resource pool *)

Module GpuResourcePool.

(** Addresses of heap objects; a raw pointer, a shared pointer and a weak
    pointer to an object are all its address, [None] being [nullptr]. *)
Definition ptr : Type := positive.

(** Modelled from the spec: the enumeration [TextureType] is declared in a
    header outside the sources; the spec gives the dimensionalities the
    pool deals with (2D/3D/cube), the three the code names. *)
Inductive TextureType := TEX_TYPE_2D | TEX_TYPE_3D | TEX_TYPE_CUBE_MAP.

(** Modelled from the spec: the enumeration [GpuBufferType] is declared in
    a header outside the sources; the spec gives the two buffer kinds
    (generic vs. structured). *)
Inductive GpuBufferType := GBT_STANDARD | GBT_STRUCTURED.

#[global] Instance TextureType_eq_dec : EqDecision TextureType.
Proof. solve_decision. Defined.
#[global] Instance GpuBufferType_eq_dec : EqDecision GpuBufferType.
Proof. solve_decision. Defined.

(** [POOLED_RENDER_TEXTURE_DESC]. [PixelFormat] and [TextureUsage] values
    are integers. *)
Module TexDesc.
Record t := mk {
  width : Z; height : Z; depth : Z; numSamples : Z;
  format : Z; flag : Z; type : TextureType; hwGamma : bool
}.
Definition set_flag (v : Z) (desc : t) : t :=
  mk (width desc) (height desc) (depth desc) (numSamples desc)
     (format desc) v (type desc) (hwGamma desc).
End TexDesc.
Abbreviation POOLED_RENDER_TEXTURE_DESC := TexDesc.t.

(** [POOLED_STORAGE_BUFFER_DESC]. *)
Module BufDesc.
Record t := mk {
  type : GpuBufferType; format : Z; numElements : Z; elementSize : Z
}.
End BufDesc.
Abbreviation POOLED_STORAGE_BUFFER_DESC := BufDesc.t.

(** [TEXTURE_DESC], the fields [get] fills in. *)
Module TEXTURE_DESC.
Record t := mk {
  type : TextureType; width : Z; height : Z; depth : Z;
  format : Z; usage : Z; hwGamma : bool; numSamples : Z
}.
End TEXTURE_DESC.

(** [GPU_BUFFER_DESC], the fields [get] fills in. *)
Module GPU_BUFFER_DESC.
Record t := mk {
  type : GpuBufferType; elementSize : Z; elementCount : Z;
  format : Z; randomGpuWrite : bool
}.
End GPU_BUFFER_DESC.

(** [TextureProperties], by its accessors, and a [Texture]. *)
Record TextureProperties := {
  getTextureType : TextureType;
  getFormat : Z;
  getWidth : Z;
  getHeight : Z;
  getDepth : Z;
  getUsage : Z;
  isHardwareGammaEnabled : bool;
  getNumSamples : Z
}.
Record Texture := { getProperties : TextureProperties }.

(** [GpuBufferProperties], by its accessors, and a [GpuBuffer]. *)
Module GpuBufferProperties.
Record t := mk {
  getType : GpuBufferType; getElementCount : Z;
  getFormat : Z; getElementSize : Z
}.
End GpuBufferProperties.
Module GpuBuffer.
Record t := mk { getProperties : GpuBufferProperties.t }.
End GpuBuffer.

(** [RENDER_SURFACE_DESC] and [RENDER_TEXTURE_DESC]; a surface that [get]
    leaves untouched is [None]. *)
Record RENDER_SURFACE_DESC := {
  surface_texture : option Texture;
  face : Z; numFaces : Z; mipLevel : Z
}.
Record RENDER_TEXTURE_DESC := {
  colorSurfaces0 : option RENDER_SURFACE_DESC;
  depthStencilSurface : option RENDER_SURFACE_DESC
}.
Record RenderTexture := { getRenderTextureDesc : RENDER_TEXTURE_DESC }.

(** [PooledRenderTexture] and [PooledStorageBuffer]: the handles, the
    back-reference to the pool and the free flag. *)
Module PooledRenderTexture.
Record t := mk {
  texture : option Texture;
  renderTexture : option RenderTexture;
  mPool : option ptr;
  mIsFree : bool
}.
Definition set_texture (v : option Texture) (w : t) : t :=
  mk v (renderTexture w) (mPool w) (mIsFree w).
Definition set_renderTexture (v : option RenderTexture) (w : t) : t :=
  mk (texture w) v (mPool w) (mIsFree w).
Definition set_mPool (v : option ptr) (w : t) : t :=
  mk (texture w) (renderTexture w) v (mIsFree w).
Definition set_mIsFree (v : bool) (w : t) : t :=
  mk (texture w) (renderTexture w) (mPool w) v.
End PooledRenderTexture.

Module PooledStorageBuffer.
Record t := mk {
  buffer : option GpuBuffer.t;
  mPool : option ptr;
  mIsFree : bool
}.
Definition set_buffer (v : option GpuBuffer.t) (w : t) : t :=
  mk v (mPool w) (mIsFree w).
Definition set_mPool (v : option ptr) (w : t) : t :=
  mk (buffer w) v (mIsFree w).
Definition set_mIsFree (v : bool) (w : t) : t :=
  mk (buffer w) (mPool w) v.
End PooledStorageBuffer.

(** The pool object: two maps from raw pointer to weak pointer. *)
Record Pool := {
  mTextures : gmap ptr ptr;
  mBuffers : gmap ptr ptr
}.

(** The objects alive at some moment: wrappers of both kinds and pools,
    each kind by address. *)
Record Memory := {
  textures : gmap ptr PooledRenderTexture.t;
  buffers : gmap ptr PooledStorageBuffer.t;
  pools : gmap ptr Pool
}.

Definition set_textures (f : gmap ptr PooledRenderTexture.t
                             → gmap ptr PooledRenderTexture.t)
    (σ : Memory) : Memory :=
  {| textures := f (textures σ); buffers := buffers σ; pools := pools σ |}.
Definition set_buffers (f : gmap ptr PooledStorageBuffer.t
                            → gmap ptr PooledStorageBuffer.t)
    (σ : Memory) : Memory :=
  {| textures := textures σ; buffers := f (buffers σ); pools := pools σ |}.
Definition set_pools (f : gmap ptr Pool → gmap ptr Pool)
    (σ : Memory) : Memory :=
  {| textures := textures σ; buffers := buffers σ; pools := f (pools σ) |}.

(** What the pool takes from the rest of the engine: the usage bits, the
    resource factories (a [None] result is a null handle) and the order in
    which the pool's map type is iterated, all declared outside the
    sources. *)
Class Engine := {
  TU_RENDERTARGET : Z;
  TU_DEPTHSTENCIL : Z;
  createTexture : TEXTURE_DESC.t → option Texture;
  createRenderTexture : RENDER_TEXTURE_DESC → option RenderTexture;
  createGpuBuffer : GPU_BUFFER_DESC.t → option GpuBuffer.t;
  iteration : gmap ptr ptr → list (ptr * ptr);
  iteration_entries : ∀ m, iteration m ≡ₚ map_to_list m
}.

(** Calls a destructor makes on a pool. *)
Inductive Call :=
| unregisterTexture_call (pool texture : ptr)
| unregisterBuffer_call (pool buffer : ptr).

Section Pool.
Context `{Engine}.

(** [p->field = v] through a pointer to a texture wrapper; a dangling or
    null pointer is undefined behaviour. *)
Definition modify_texture (p : ptr)
    (f : PooledRenderTexture.t → PooledRenderTexture.t)
    (σ : Memory) : option Memory :=
  textureData ← textures σ !! p;
  Some (set_textures <[p := f textureData]> σ).

Definition modify_buffer (p : ptr)
    (f : PooledStorageBuffer.t → PooledStorageBuffer.t)
    (σ : Memory) : option Memory :=
  bufferData ← buffers σ !! p;
  Some (set_buffers <[p := f bufferData]> σ).

(** [GpuResourcePool::matches(texture, desc)]. *)
Definition matches_texture (texture : Texture)
    (desc : POOLED_RENDER_TEXTURE_DESC) : bool :=
  let texProps := getProperties texture in
  bool_decide (getTextureType texProps = TexDesc.type desc)
  && (getFormat texProps =? TexDesc.format desc)
  && (getWidth texProps =? TexDesc.width desc)
  && (getHeight texProps =? TexDesc.height desc)
  && (Z.land (getUsage texProps) (TexDesc.flag desc) =? TexDesc.flag desc)
  && ((bool_decide (TexDesc.type desc = TEX_TYPE_2D)
       && eqb (isHardwareGammaEnabled texProps) (TexDesc.hwGamma desc)
       && (getNumSamples texProps =? TexDesc.numSamples desc))
      || (bool_decide (TexDesc.type desc = TEX_TYPE_3D)
          && (getDepth texProps =? TexDesc.depth desc))
      || bool_decide (TexDesc.type desc = TEX_TYPE_CUBE_MAP)).

(** [GpuResourcePool::matches(buffer, desc)]. *)
Definition matches_buffer (buffer : GpuBuffer.t)
    (desc : POOLED_STORAGE_BUFFER_DESC) : bool :=
  let props := GpuBuffer.getProperties buffer in
  let match_ :=
    bool_decide (GpuBufferProperties.getType props = BufDesc.type desc)
    && (GpuBufferProperties.getElementCount props
        =? BufDesc.numElements desc) in
  if match_
  then
    if bool_decide (BufDesc.type desc = GBT_STANDARD)
    then GpuBufferProperties.getFormat props =? BufDesc.format desc
    else (* Structured *)
      GpuBufferProperties.getElementSize props =? BufDesc.elementSize desc
  else match_.

(** The tests in the body of the scanning loop of [get]: [false] where
    the loop continues with the next entry. *)
Definition texture_usable (desc : POOLED_RENDER_TEXTURE_DESC)
    (textureData : PooledRenderTexture.t) : bool :=
  if negb (PooledRenderTexture.mIsFree textureData) then false
  else match PooledRenderTexture.texture textureData with
       | None => false
       | Some texture => matches_texture texture desc
       end.

Definition buffer_usable (desc : POOLED_STORAGE_BUFFER_DESC)
    (bufferData : PooledStorageBuffer.t) : bool :=
  if negb (PooledStorageBuffer.mIsFree bufferData) then false
  else match PooledStorageBuffer.buffer bufferData with
       | None => false
       | Some buffer => matches_buffer buffer desc
       end.

(** The scanning loop [for (auto& pair : map)] of both [get]s: every
    entry's weak pointer is locked and dereferenced (a failure if the
    wrapper is gone), and the first wrapper passing the tests ends the
    loop. [Some None] is the loop running to its end. *)
Fixpoint scan {W} (heap : gmap ptr W) (usable : W → bool)
    (entries : list (ptr * ptr)) : option (option ptr) :=
  match entries with
  | [] => Some None
  | (_, weak) :: rest =>
      data ← heap !! weak;
      if usable data then Some (Some weak) else scan heap usable rest
  end.

(** [_registerTexture], [_unregisterTexture], [_registerBuffer],
    [_unregisterBuffer]. [Map::insert] leaves an existing entry alone. *)
Definition insert_pair (k v : ptr) (m : gmap ptr ptr) : gmap ptr ptr :=
  match m !! k with Some _ => m | None => <[k := v]> m end.

Definition _registerTexture (this texture : ptr) (σ : Memory)
  : option Memory :=
  pool ← pools σ !! this;
  Some (set_pools <[this := {| mTextures := insert_pair texture texture
                                              (mTextures pool);
                               mBuffers := mBuffers pool |}]> σ).

Definition _unregisterTexture (this texture : ptr) (σ : Memory)
  : option Memory :=
  pool ← pools σ !! this;
  Some (set_pools <[this := {| mTextures := delete texture (mTextures pool);
                               mBuffers := mBuffers pool |}]> σ).

Definition _registerBuffer (this buffer : ptr) (σ : Memory)
  : option Memory :=
  pool ← pools σ !! this;
  Some (set_pools <[this := {| mTextures := mTextures pool;
                               mBuffers := insert_pair buffer buffer
                                             (mBuffers pool) |}]> σ).

Definition _unregisterBuffer (this buffer : ptr) (σ : Memory)
  : option Memory :=
  pool ← pools σ !! this;
  Some (set_pools <[this := {| mTextures := mTextures pool;
                               mBuffers := delete buffer (mBuffers pool) |}]>
          σ).

(** [bs_shared_ptr_new<PooledRenderTexture>(this)]: a new object at an
    address not in use, built by the constructor. *)
Definition new_PooledRenderTexture (pool : ptr) (σ : Memory)
  : ptr * Memory :=
  let p := fresh (dom (textures σ)) in
  (p, set_textures <[p := PooledRenderTexture.mk None None (Some pool)
                            false]> σ).

Definition new_PooledStorageBuffer (pool : ptr) (σ : Memory)
  : ptr * Memory :=
  let p := fresh (dom (buffers σ)) in
  (p, set_buffers <[p := PooledStorageBuffer.mk None (Some pool) false]> σ).

(** The [TEXTURE_DESC texDesc] and [GPU_BUFFER_DESC bufferDesc] that the
    two [get]s fill in field by field from their argument. *)
Definition texDesc_of (desc : POOLED_RENDER_TEXTURE_DESC)
  : TEXTURE_DESC.t :=
  {| TEXTURE_DESC.type := TexDesc.type desc;
     TEXTURE_DESC.width := TexDesc.width desc;
     TEXTURE_DESC.height := TexDesc.height desc;
     TEXTURE_DESC.depth := TexDesc.depth desc;
     TEXTURE_DESC.format := TexDesc.format desc;
     TEXTURE_DESC.usage := TexDesc.flag desc;
     TEXTURE_DESC.hwGamma := TexDesc.hwGamma desc;
     TEXTURE_DESC.numSamples := TexDesc.numSamples desc |}.

Definition bufferDesc_of (desc : POOLED_STORAGE_BUFFER_DESC)
  : GPU_BUFFER_DESC.t :=
  {| GPU_BUFFER_DESC.type := BufDesc.type desc;
     GPU_BUFFER_DESC.elementSize := BufDesc.elementSize desc;
     GPU_BUFFER_DESC.elementCount := BufDesc.numElements desc;
     GPU_BUFFER_DESC.format := BufDesc.format desc;
     GPU_BUFFER_DESC.randomGpuWrite := true |}.

(** The [RENDER_TEXTURE_DESC rtDesc] that [get] fills in when the flags
    ask for a render target or a depth-stencil target. *)
Definition rtDesc_of (desc : POOLED_RENDER_TEXTURE_DESC)
    (texture : option Texture) : RENDER_TEXTURE_DESC :=
  let surface :=
    {| surface_texture := texture;
       face := 0; numFaces := 1; mipLevel := 0 |} in
  {| colorSurfaces0 :=
       if negb (Z.land (TexDesc.flag desc) TU_RENDERTARGET =? 0)
       then Some surface else None;
     depthStencilSurface :=
       if negb (Z.land (TexDesc.flag desc) TU_DEPTHSTENCIL =? 0)
       then Some surface else None |}.

(** [GpuResourcePool::get(const POOLED_RENDER_TEXTURE_DESC&)]. *)
Definition get_texture (this : ptr) (desc : POOLED_RENDER_TEXTURE_DESC)
    (σ : Memory) : option (ptr * Memory) :=
  pool ← pools σ !! this;
  found ← scan (textures σ) (texture_usable desc)
               (iteration (mTextures pool));
  match found with
  | Some textureData =>
      σ ← modify_texture textureData
            (PooledRenderTexture.set_mIsFree false) σ;
      Some (textureData, σ)
  | None =>
      let '(newTextureData, σ) := new_PooledRenderTexture this σ in
      σ ← _registerTexture this newTextureData σ;
      let texDesc := texDesc_of desc in
      let texture := createTexture texDesc in
      σ ← modify_texture newTextureData
            (PooledRenderTexture.set_texture texture) σ;
      σ ← (if negb (Z.land (TexDesc.flag desc)
                      (Z.lor TU_RENDERTARGET TU_DEPTHSTENCIL) =? 0)
           then
             let rtDesc := rtDesc_of desc texture in
             modify_texture newTextureData
               (PooledRenderTexture.set_renderTexture
                  (createRenderTexture rtDesc)) σ
           else Some σ);
      Some (newTextureData, σ)
  end.

(** [GpuResourcePool::get(const POOLED_STORAGE_BUFFER_DESC&)]. *)
Definition get_buffer (this : ptr) (desc : POOLED_STORAGE_BUFFER_DESC)
    (σ : Memory) : option (ptr * Memory) :=
  pool ← pools σ !! this;
  found ← scan (buffers σ) (buffer_usable desc)
               (iteration (mBuffers pool));
  match found with
  | Some bufferData =>
      σ ← modify_buffer bufferData
            (PooledStorageBuffer.set_mIsFree false) σ;
      Some (bufferData, σ)
  | None =>
      let '(newBufferData, σ) := new_PooledStorageBuffer this σ in
      σ ← _registerBuffer this newBufferData σ;
      let bufferDesc := bufferDesc_of desc in
      σ ← modify_buffer newBufferData
            (PooledStorageBuffer.set_buffer (createGpuBuffer bufferDesc)) σ;
      Some (newBufferData, σ)
  end.

(** [GpuResourcePool::release], both overloads; [find] returning
    [end()] is dereferenced all the same, a failure. *)
Definition release_texture (this texture : ptr) (σ : Memory)
  : option Memory :=
  pool ← pools σ !! this;
  weak ← mTextures pool !! texture;
  modify_texture weak (PooledRenderTexture.set_mIsFree true) σ.

Definition release_buffer (this buffer : ptr) (σ : Memory)
  : option Memory :=
  pool ← pools σ !! this;
  weak ← mBuffers pool !! buffer;
  modify_buffer weak (PooledStorageBuffer.set_mIsFree true) σ.

(** The two loops of [~GpuResourcePool]. *)
Fixpoint detach_textures (entries : list (ptr * ptr)) (σ : Memory)
  : option Memory :=
  match entries with
  | [] => Some σ
  | (_, weak) :: rest =>
      σ ← modify_texture weak (PooledRenderTexture.set_mPool None) σ;
      detach_textures rest σ
  end.

Fixpoint detach_buffers (entries : list (ptr * ptr)) (σ : Memory)
  : option Memory :=
  match entries with
  | [] => Some σ
  | (_, weak) :: rest =>
      σ ← modify_buffer weak (PooledStorageBuffer.set_mPool None) σ;
      detach_buffers rest σ
  end.

(** [GpuResourcePool::~GpuResourcePool()], after which the pool object
    and its maps are gone. *)
Definition destroy_pool (this : ptr) (σ : Memory) : option Memory :=
  pool ← pools σ !! this;
  σ ← detach_textures (iteration (mTextures pool)) σ;
  σ ← detach_buffers (iteration (mBuffers pool)) σ;
  Some (set_pools (delete this) σ).

(** [PooledRenderTexture::~PooledRenderTexture()] and
    [PooledStorageBuffer::~PooledStorageBuffer()], run when the last
    holder lets go; the result lists the calls made on the pool. *)
Definition destroy_texture (this : ptr) (σ : Memory)
  : option (list Call * Memory) :=
  textureData ← textures σ !! this;
  '(calls, σ) ←
    match PooledRenderTexture.mPool textureData with
    | Some mPool =>
        σ ← _unregisterTexture mPool this σ;
        Some ([unregisterTexture_call mPool this], σ)
    | None => Some ([], σ)
    end;
  Some (calls, set_textures (delete this) σ).

Definition destroy_buffer (this : ptr) (σ : Memory)
  : option (list Call * Memory) :=
  bufferData ← buffers σ !! this;
  '(calls, σ) ←
    match PooledStorageBuffer.mPool bufferData with
    | Some mPool =>
        σ ← _unregisterBuffer mPool this σ;
        Some ([unregisterBuffer_call mPool this], σ)
    | None => Some ([], σ)
    end;
  Some (calls, set_buffers (delete this) σ).

(** [POOLED_RENDER_TEXTURE_DESC::create2D], [create3D], [createCube]. *)
Definition create2D (format width height usage samples : Z)
    (hwGamma : bool) : POOLED_RENDER_TEXTURE_DESC :=
  TexDesc.mk width height 1 samples format usage TEX_TYPE_2D hwGamma.

Definition create3D (format width height depth usage : Z)
  : POOLED_RENDER_TEXTURE_DESC :=
  TexDesc.mk width height depth 1 format usage TEX_TYPE_3D false.

Definition createCube (format width height usage : Z)
  : POOLED_RENDER_TEXTURE_DESC :=
  TexDesc.mk width height 1 1 format usage TEX_TYPE_CUBE_MAP false.

(** *** Vocabulary of the statements *)

(** A texture, or a buffer, that has the properties a descriptor asks
    for. *)
Definition texture_as_asked (texture : Texture) (texDesc : TEXTURE_DESC.t)
  : Prop :=
  getProperties texture
  = {| getTextureType := TEXTURE_DESC.type texDesc;
       getFormat := TEXTURE_DESC.format texDesc;
       getWidth := TEXTURE_DESC.width texDesc;
       getHeight := TEXTURE_DESC.height texDesc;
       getDepth := TEXTURE_DESC.depth texDesc;
       getUsage := TEXTURE_DESC.usage texDesc;
       isHardwareGammaEnabled := TEXTURE_DESC.hwGamma texDesc;
       getNumSamples := TEXTURE_DESC.numSamples texDesc |}.

Definition buffer_as_asked (buffer : GpuBuffer.t)
    (bufferDesc : GPU_BUFFER_DESC.t) : Prop :=
  GpuBuffer.getProperties buffer
  = {| GpuBufferProperties.getType := GPU_BUFFER_DESC.type bufferDesc;
       GpuBufferProperties.getElementCount :=
         GPU_BUFFER_DESC.elementCount bufferDesc;
       GpuBufferProperties.getFormat := GPU_BUFFER_DESC.format bufferDesc;
       GpuBufferProperties.getElementSize :=
         GPU_BUFFER_DESC.elementSize bufferDesc |}.

(** The wrapper that a [get] finding no match leaves at the new
    address, once all its fields are assigned. *)
Definition new_texture_wrapper (this : ptr)
    (desc : POOLED_RENDER_TEXTURE_DESC) : PooledRenderTexture.t :=
  let texture := createTexture (texDesc_of desc) in
  {| PooledRenderTexture.texture := texture;
     PooledRenderTexture.renderTexture :=
       if negb (Z.land (TexDesc.flag desc)
                  (Z.lor TU_RENDERTARGET TU_DEPTHSTENCIL) =? 0)
       then createRenderTexture (rtDesc_of desc texture) else None;
     PooledRenderTexture.mPool := Some this;
     PooledRenderTexture.mIsFree := false |}.

Definition new_buffer_wrapper (this : ptr)
    (desc : POOLED_STORAGE_BUFFER_DESC) : PooledStorageBuffer.t :=
  {| PooledStorageBuffer.buffer := createGpuBuffer (bufferDesc_of desc);
     PooledStorageBuffer.mPool := Some this;
     PooledStorageBuffer.mIsFree := false |}.

(** The texture map of pool [this] is as [_registerTexture] and the
    wrapper destructor keep it: every key maps to the weak pointer of
    the same wrapper, and that wrapper is alive. Likewise for buffers. *)
Definition textures_consistent (this : ptr) (σ : Memory) : Prop :=
  ∃ pool, pools σ !! this = Some pool
          ∧ ∀ k w, mTextures pool !! k = Some w
                   → w = k ∧ is_Some (textures σ !! w).

Definition buffers_consistent (this : ptr) (σ : Memory) : Prop :=
  ∃ pool, pools σ !! this = Some pool
          ∧ ∀ k w, mBuffers pool !! k = Some w
                   → w = k ∧ is_Some (buffers σ !! w).

(** A wrapper of either kind, as handed out by a [get]. *)
Inductive Handle :=
| texture_handle (w : ptr)
| buffer_handle (w : ptr).

(** A wrapper registered in pool [this] whose underlying texture or
    buffer is null. *)
Definition dead (this : ptr) (h : Handle) (σ : Memory) : Prop :=
  match h with
  | texture_handle w =>
      ∃ pool data, pools σ !! this = Some pool
                   ∧ (∃ k, mTextures pool !! k = Some w)
                   ∧ textures σ !! w = Some data
                   ∧ PooledRenderTexture.texture data = None
  | buffer_handle w =>
      ∃ pool data, pools σ !! this = Some pool
                   ∧ (∃ k, mBuffers pool !! k = Some w)
                   ∧ buffers σ !! w = Some data
                   ∧ PooledStorageBuffer.buffer data = None
  end.

(** Calls on the pool, and sequences of them; a sequence yields the
    wrappers its [get]s handed out, in order. *)
Inductive Op :=
| get_texture_op (desc : POOLED_RENDER_TEXTURE_DESC)
| get_buffer_op (desc : POOLED_STORAGE_BUFFER_DESC)
| release_texture_op (texture : ptr)
| release_buffer_op (buffer : ptr).

Definition step (this : ptr) (op : Op) (σ : Memory)
  : option (list Handle * Memory) :=
  match op with
  | get_texture_op desc =>
      '(w, σ) ← get_texture this desc σ; Some ([texture_handle w], σ)
  | get_buffer_op desc =>
      '(w, σ) ← get_buffer this desc σ; Some ([buffer_handle w], σ)
  | release_texture_op w => σ ← release_texture this w σ; Some ([], σ)
  | release_buffer_op w => σ ← release_buffer this w σ; Some ([], σ)
  end.

Fixpoint run (this : ptr) (ops : list Op) (σ : Memory)
  : option (list Handle * Memory) :=
  match ops with
  | [] => Some ([], σ)
  | op :: rest =>
      '(hs, σ) ← step this op σ;
      '(hs', σ) ← run this rest σ;
      Some (hs ++ hs', σ)
  end.

End Pool.

(** *** Two engines to run the pool with *)

(** An engine whose factories hand back a resource with the properties
    asked for, whose maps are iterated in the order of [map_to_list], and
    whose two usage bits are [0x200] and [0x400]. *)
Definition faithful_engine : Engine :=
  {| TU_RENDERTARGET := 0x200;
     TU_DEPTHSTENCIL := 0x400;
     createTexture texDesc :=
       Some {| getProperties :=
                 {| getTextureType := TEXTURE_DESC.type texDesc;
                    getFormat := TEXTURE_DESC.format texDesc;
                    getWidth := TEXTURE_DESC.width texDesc;
                    getHeight := TEXTURE_DESC.height texDesc;
                    getDepth := TEXTURE_DESC.depth texDesc;
                    getUsage := TEXTURE_DESC.usage texDesc;
                    isHardwareGammaEnabled := TEXTURE_DESC.hwGamma texDesc;
                    getNumSamples := TEXTURE_DESC.numSamples texDesc |} |};
     createRenderTexture rtDesc :=
       Some {| getRenderTextureDesc := rtDesc |};
     createGpuBuffer bufferDesc :=
       Some (GpuBuffer.mk
               (GpuBufferProperties.mk
                  (GPU_BUFFER_DESC.type bufferDesc)
                  (GPU_BUFFER_DESC.elementCount bufferDesc)
                  (GPU_BUFFER_DESC.format bufferDesc)
                  (GPU_BUFFER_DESC.elementSize bufferDesc)));
     iteration := map_to_list;
     iteration_entries m := reflexivity (map_to_list m) |}.

(** The same engine with factories that fail: every handle they return is
    null. *)
Definition failing_engine : Engine :=
  {| TU_RENDERTARGET := 0x200;
     TU_DEPTHSTENCIL := 0x400;
     createTexture _ := None;
     createRenderTexture _ := None;
     createGpuBuffer _ := None;
     iteration := map_to_list;
     iteration_entries m := reflexivity (map_to_list m) |}.

(** A memory holding one pool, at address 1, with nothing registered. *)
Definition empty_pool_memory : Memory :=
  {| textures := ∅; buffers := ∅;
     pools := {[ 1%positive := {| mTextures := ∅; mBuffers := ∅ |} ]} |}.

(** A memory in which pool 1 has one texture wrapper and one buffer
    wrapper registered, both in use and both with a null handle. *)
Definition dead_wrappers_memory : Memory :=
  {| textures := {[ 1%positive :=
                      PooledRenderTexture.mk None None (Some 1%positive)
                        false ]};
     buffers := {[ 1%positive :=
                     PooledStorageBuffer.mk None (Some 1%positive) false ]};
     pools := {[ 1%positive := {| mTextures := {[ 1%positive := 1%positive ]};
                                  mBuffers := {[ 1%positive := 1%positive ]}
                               |} ]} |}.

End GpuResourcePool.

(** ** Further vocabulary for the range partitioner *)

Module RangeTerms.
Import MachineInt VulkanUtility.

(** A range as Vulkan accepts it and as the [INT32] casts of the cutting
    routines read it exactly: both extents positive and ending below
    [2^31]. *)
Definition valid_range (r : VkImageSubresourceRange) : Prop :=
  fits_int32 r ∧ positive_extents r.

(** Every subresource of [r] is a subresource of [outer]. *)
Definition inside (outer r : VkImageSubresourceRange) : Prop :=
  ∀ l m, covers r l m → covers outer l m.

(** [cutWith] begins after the first layer and the first mip of [toCut]
    and ends before its last layer and its last mip. *)
Definition strictly_interior (toCut cutWith : VkImageSubresourceRange)
  : Prop :=
  (baseArrayLayer toCut < baseArrayLayer cutWith
   ∧ baseArrayLayer cutWith + layerCount cutWith
     < baseArrayLayer toCut + layerCount toCut)
  ∧ (baseMipLevel toCut < baseMipLevel cutWith
     ∧ baseMipLevel cutWith + levelCount cutWith
       < baseMipLevel toCut + levelCount toCut).

(** The layer interval of [cutWith] begins strictly inside that of [toCut]
    and reaches its end or beyond. *)
Definition overlaps_tail_layers (toCut cutWith : VkImageSubresourceRange)
  : Prop :=
  baseArrayLayer toCut < baseArrayLayer cutWith
  ∧ baseArrayLayer cutWith < baseArrayLayer toCut + layerCount toCut
  ∧ baseArrayLayer toCut + layerCount toCut
    ≤ baseArrayLayer cutWith + layerCount cutWith.

(** The layer interval of [cutWith] begins at or before that of [toCut]
    and ends strictly inside it. *)
Definition overlaps_head_layers (toCut cutWith : VkImageSubresourceRange)
  : Prop :=
  baseArrayLayer cutWith ≤ baseArrayLayer toCut
  ∧ baseArrayLayer toCut < baseArrayLayer cutWith + layerCount cutWith
  ∧ baseArrayLayer cutWith + layerCount cutWith
    < baseArrayLayer toCut + layerCount toCut.

End RangeTerms.

(** ** Further vocabulary for the resource pool *)

Module PoolTerms.
Import GpuResourcePool.

(** A wrapper that is alive and lent out: its free flag is [false]. *)
Definition in_use (h : Handle) (σ : Memory) : Prop :=
  match h with
  | texture_handle w =>
      ∃ data, textures σ !! w = Some data
              ∧ PooledRenderTexture.mIsFree data = false
  | buffer_handle w =>
      ∃ data, buffers σ !! w = Some data
              ∧ PooledStorageBuffer.mIsFree data = false
  end.

(** A wrapper that is a key of the map of its kind in pool [this]. *)
Definition registered (this : ptr) (h : Handle) (σ : Memory) : Prop :=
  ∃ pool, pools σ !! this = Some pool
          ∧ match h with
            | texture_handle w => mTextures pool !! w = Some w
            | buffer_handle w => mBuffers pool !! w = Some w
            end.

(** Both maps of pool [this] are consistent. *)
Definition pool_consistent (this : ptr) (σ : Memory) : Prop :=
  textures_consistent this σ ∧ buffers_consistent this σ.

(** The call is one of the two [get]s. *)
Definition is_get (op : Op) : bool :=
  match op with
  | get_texture_op _ | get_buffer_op _ => true
  | release_texture_op _ | release_buffer_op _ => false
  end.

(** The texture has the type, format, width and height the descriptor
    names, and every usage flag it asks for. *)
Definition compatible (texture : Texture) (desc : POOLED_RENDER_TEXTURE_DESC)
  : Prop :=
  getTextureType (getProperties texture) = TexDesc.type desc
  ∧ getFormat (getProperties texture) = TexDesc.format desc
  ∧ getWidth (getProperties texture) = TexDesc.width desc
  ∧ getHeight (getProperties texture) = TexDesc.height desc
  ∧ Z.land (getUsage (getProperties texture)) (TexDesc.flag desc)
    = TexDesc.flag desc.

End PoolTerms.

(** ** Storage buffer descriptors *)

Module StorageBufferDescs.
Import GpuResourcePool.

Section Descs.

(** The buffer format [BF_UNKNOWN], declared in a header outside the
    sources. *)
Variable BF_UNKNOWN : Z.

(** [POOLED_STORAGE_BUFFER_DESC::createStandard] and
    [createStructured]. *)
Definition createStandard (format numElements : Z)
  : POOLED_STORAGE_BUFFER_DESC :=
  {| BufDesc.type := GBT_STANDARD;
     BufDesc.format := format;
     BufDesc.numElements := numElements;
     BufDesc.elementSize := 0 |}.

Definition createStructured (elementSize numElements : Z)
  : POOLED_STORAGE_BUFFER_DESC :=
  {| BufDesc.type := GBT_STRUCTURED;
     BufDesc.format := BF_UNKNOWN;
     BufDesc.numElements := numElements;
     BufDesc.elementSize := elementSize |}.

End Descs.

End StorageBufferDescs.

(** ** Device selection *)

Module VulkanDevices.
Import CArray.

(** [VulkanDevice], as far as the two functions read it, and the
    [VulkanDevice*] written to the output array ([None] is [nullptr]). *)
Record VulkanDevice := {
  device_address : positive;
  isPrimary : bool
}.

(** [VulkanRenderAPI], as far as read: its devices, [_getNumDevices()] being
    their number and [_getDevice(i)] the i-th, an access out of range being
    undefined behaviour. *)
Definition VulkanRenderAPI : Type := list VulkanDevice.

(** The constants [BS_MAX_DEVICES] and [GDF_DEFAULT], declared in headers
    outside the sources. *)
Class DeviceConstants := {
  BS_MAX_DEVICES : nat;
  GDF_DEFAULT : Z
}.

Section Devices.
Context `{DeviceConstants}.

(** [1 << idx] on [int]: defined for shifts that stay below the sign
    bit. *)
Definition shift_one (idx : nat) : option Z :=
  if decide (idx < 31)%nat then Some (Z.shiftl 1 (Z.of_nat idx)) else None.

(** [VulkanUtility::isDeviceIdxSet(rapi, idx, flags)]. *)
Definition isDeviceIdxSet (rapi : VulkanRenderAPI) (idx : nat) (flags : Z)
  : option bool :=
  device ← rapi !! idx;
  bit ← shift_one idx;
  Some (negb (Z.land flags bit =? 0)
        || ((flags =? GDF_DEFAULT) && isPrimary device)).

(** The body of the loop of [getDevices] for the indices still to visit. *)
Fixpoint getDevices_loop (rapi : VulkanRenderAPI) (flags : Z)
    (indices : list nat) (devices : list (option VulkanDevice))
  : option (list (option VulkanDevice)) :=
  match indices with
  | [] => Some devices
  | i :: rest =>
      let numDevices := length rapi in
      devices ←
        (if decide (numDevices ≤ i)%nat
         then store devices i None
         else
           device ← rapi !! i;
           selected ← isDeviceIdxSet rapi i flags;
           if (selected : bool) then store devices i (Some device)
           else store devices i None);
      getDevices_loop rapi flags rest devices
  end.

(** [VulkanUtility::getDevices(rapi, flags, devices)]. *)
Definition getDevices (rapi : VulkanRenderAPI) (flags : Z)
    (devices : list (option VulkanDevice))
  : option (list (option VulkanDevice)) :=
  getDevices_loop rapi flags (seq 0 BS_MAX_DEVICES) devices.

(** Device [i] is asked for by [flags]: its bit is set, or the flags are
    the default ones and the device is primary. *)
Definition asked_for (flags : Z) (i : nat) (device : VulkanDevice) : bool :=
  Z.testbit flags (Z.of_nat i) || ((flags =? GDF_DEFAULT) && isPrimary device).

(** The device at index [i] where there is one and [flags] ask for it,
    no device otherwise. *)
Definition device_if_asked (rapi : VulkanRenderAPI) (flags : Z) (i : nat)
  : option VulkanDevice :=
  match rapi !! i with
  | Some device => if asked_for flags i device then Some device else None
  | None => None
  end.

End Devices.

(** Constants and devices for the statements at concrete inputs: five
    device slots, default flags [0], a primary device at index 0 and a
    secondary one at index 1. *)
Definition five_slots : DeviceConstants :=
  {| BS_MAX_DEVICES := 5; GDF_DEFAULT := 0 |}.

Definition two_devices : VulkanRenderAPI :=
  [ {| device_address := 1; isPrimary := true |};
    {| device_address := 2; isPrimary := false |} ].

End VulkanDevices.

(** ** Vertex declaration cache *)

Module HardwareBufferManager.

(** What the cache takes from the rest of the engine: the vertex elements
    with their [operator!=] and [VertexElement::getHash], and
    [hash_combine], all declared outside the sources. *)
Class VertexElements := {
  VertexElement : Type;
  element_ne : VertexElement → VertexElement → bool;
  getHash : VertexElement → Z;
  hash_combine : Z → Z → Z
}.

Section Cache.
Context `{VertexElements}.

(** [VertexDeclarationKey]: the list of elements. *)
Definition VertexDeclarationKey : Type := list VertexElement.

(** [VertexDeclarationKey::HashFunction::operator()]. *)
Definition HashFunction (v : VertexDeclarationKey) : Z :=
  foldl (λ hash entry, hash_combine hash (getHash entry)) 0 v.

(** The loop of [EqualFunction::operator()], both iterators advancing
    together. *)
Fixpoint EqualFunction_loop (iterLeft iterRight : list VertexElement)
  : bool :=
  match iterLeft, iterRight with
  | l :: iterLeft, r :: iterRight =>
      if element_ne l r then false else EqualFunction_loop iterLeft iterRight
  | _, _ => true
  end.

(** [VertexDeclarationKey::EqualFunction::operator()]. *)
Definition EqualFunction (lhs rhs : VertexDeclarationKey) : bool :=
  if negb (length lhs =? length rhs)%nat then false
  else EqualFunction_loop lhs rhs.

(** A [VertexDeclaration]: the elements and device mask it was constructed
    with, and whether [initialize()] ran. *)
Record VertexDeclaration := {
  decl_elements : list VertexElement;
  decl_deviceMask : Z;
  decl_initialized : bool
}.

(** The manager: the declarations alive, by address, and
    [mCachedDeclarations], an unordered map under [HashFunction] and
    [EqualFunction], as the list of its entries. [find] returns an entry
    whose key [EqualFunction] equates with the key sought, as the map
    does when the keys that [EqualFunction] equates hash alike. *)
Record Manager := {
  declarations : gmap positive VertexDeclaration;
  mCachedDeclarations : list (VertexDeclarationKey * positive)
}.

Fixpoint find (key : VertexDeclarationKey)
    (entries : list (VertexDeclarationKey * positive)) : option positive :=
  match entries with
  | [] => None
  | (k, v) :: rest => if EqualFunction k key then Some v else find key rest
  end.

(** [map[key] = value]: the entry with an equal key is overwritten, or a
    new entry is added. *)
Fixpoint assign (key : VertexDeclarationKey) (value : positive)
    (entries : list (VertexDeclarationKey * positive))
  : list (VertexDeclarationKey * positive) :=
  match entries with
  | [] => [(key, value)]
  | (k, v) :: rest =>
      if EqualFunction k key then (k, value) :: rest
      else (k, v) :: assign key value rest
  end.

(** [createVertexDeclarationInternal(elements, deviceMask)]: a new
    declaration at an address not in use. *)
Definition createVertexDeclarationInternal (elements : list VertexElement)
    (deviceMask : Z) (σ : Manager) : positive * Manager :=
  let p := fresh (dom (declarations σ)) in
  (p, {| declarations :=
           <[p := {| decl_elements := elements;
                     decl_deviceMask := deviceMask;
                     decl_initialized := false |}]> (declarations σ);
         mCachedDeclarations := mCachedDeclarations σ |}).

(** [declPtr->initialize()]. *)
Definition initialize (p : positive) (σ : Manager) : option Manager :=
  decl ← declarations σ !! p;
  Some {| declarations :=
            <[p := {| decl_elements := decl_elements decl;
                      decl_deviceMask := decl_deviceMask decl;
                      decl_initialized := true |}]> (declarations σ);
          mCachedDeclarations := mCachedDeclarations σ |}.

(** [HardwareBufferManager::createVertexDeclaration(elements,
    deviceMask)] of the core-thread manager. *)
Definition createVertexDeclaration (elements : list VertexElement)
    (deviceMask : Z) (σ : Manager) : option (positive * Manager) :=
  let key := elements in
  match find key (mCachedDeclarations σ) with
  | Some declPtr => Some (declPtr, σ)
  | None =>
      let '(declPtr, σ) :=
        createVertexDeclarationInternal elements deviceMask σ in
      σ ← initialize declPtr σ;
      Some (declPtr,
            {| declarations := declarations σ;
               mCachedDeclarations :=
                 assign key declPtr (mCachedDeclarations σ) |})
  end.

(** [operator!=] tells exactly the elements that differ. *)
Definition ne_is_difference : Prop :=
  ∀ a b, element_ne a b = false ↔ a = b.


End Cache.

(** Vertex elements for the statements at concrete inputs: integers,
    told apart by their value and hashed to themselves. *)
Definition integer_elements : VertexElements :=
  {| VertexElement := Z;
     element_ne a b := negb (a =? b);
     getHash a := a;
     hash_combine hash v := hash * 31 + v |}.

(** Vertex elements that carry a payload which [operator!=] and the
    hash leave out: pairs told apart and hashed by their first
    component. *)
Definition tagged_elements : VertexElements :=
  {| VertexElement := Z * Z;
     element_ne a b := negb (a.1 =? b.1);
     getHash a := a.1;
     hash_combine hash v := hash * 31 + v |}.

(** A manager that has created nothing yet. *)
Definition empty_manager : @Manager integer_elements :=
  {| declarations := ∅; mCachedDeclarations := [] |}.

End HardwareBufferManager.

(** ** Inspectable fields *)

Module InspectableField.

(** References to [InspectableField] objects; [None] is [null]. *)
Definition ref : Type := positive.

(** An [InspectableField], by the two fields that its hierarchy methods
    read and write. *)
Record Field := {
  children : list ref;
  parent : option ref
}.

(** The objects alive, by reference; the methods write through the
    references they follow, so an object reached twice is the same
    object. *)
Abbreviation Heap := (gmap ref Field).

(** [List<T>.Remove(item)]: the first occurrence is removed. *)
Fixpoint Remove (item : ref) (l : list ref) : list ref :=
  match l with
  | [] => []
  | x :: l => if decide (x = item) then l else x :: Remove item l
  end.

(** [RemoveChild(child)] called on [this]. *)
Definition RemoveChild (this child : ref) (σ : Heap) : option Heap :=
  self ← σ !! this;
  let σ := <[this := {| children := Remove child (children self);
                        parent := parent self |}]> σ in
  c ← σ !! child;
  Some (<[child := {| children := children c; parent := None |}]> σ).

(** [AddChild(child)] called on [this]. *)
Definition AddChild (this child : ref) (σ : Heap) : option Heap :=
  c ← σ !! child;
  if decide (parent c = Some this) then Some σ
  else
    σ ← match parent c with
        | Some p => RemoveChild p child σ
        | None => Some σ
        end;
    self ← σ !! this;
    let σ := <[this := {| children := children self ++ [child];
                          parent := parent self |}]> σ in
    c ← σ !! child;
    Some (<[child := {| children := children c; parent := Some this |}]> σ).

(** [GetChild(index)] and [ChildCount] on [this]; an index out of range
    raises. *)
Definition GetChild (this : ref) (index : nat) (σ : Heap) : option ref :=
  self ← σ !! this;
  children self !! index.

Definition ChildCount (this : ref) (σ : Heap) : option nat :=
  self ← σ !! this;
  Some (length (children self)).

(** The two fields agree across the heap: a field lists exactly the
    fields whose parent it is, each once. *)
Definition linked (σ : Heap) : Prop :=
  (∀ p fp c, σ !! p = Some fp → c ∈ children fp →
     ∃ fc, σ !! c = Some fc ∧ parent fc = Some p)
  ∧ (∀ c fc p, σ !! c = Some fc → parent fc = Some p →
       ∃ fp, σ !! p = Some fp ∧ c ∈ children fp)
  ∧ (∀ p fp, σ !! p = Some fp → NoDup (children fp)).

(** Field [c] has parent [p], and field [p] lists [c]. *)
Definition parent_of (σ : Heap) (c : ref) (p : option ref) : Prop :=
  ∃ fc, σ !! c = Some fc ∧ parent fc = p.

Definition lists (σ : Heap) (p c : ref) : Prop :=
  ∃ fp, σ !! p = Some fp ∧ c ∈ children fp.

(** Three fields for the statements at concrete inputs: field 1 with
    child 2, and field 3 on its own. *)
Definition three_fields : Heap :=
  {[ 1%positive := {| children := [2%positive]; parent := None |};
     2%positive := {| children := []; parent := Some 1%positive |};
     3%positive := {| children := []; parent := None |} ]}.

End InspectableField.

(** * Properties of the range partitioner *)

Module VulkanUtilityProofs.
Import MachineInt CArray VulkanUtility.

Ltac machine_arith :=
  unfold INT32, UINT32, two32, two31 in *;
  Z.to_euclidean_division_equations; lia.

Lemma INT32_small z : - two31 ≤ z < two31 → INT32 z = z.
Proof. intros. machine_arith. Qed.

Lemma UINT32_small z : 0 ≤ z < two32 → UINT32 z = z.
Proof. intros. machine_arith. Qed.

Lemma INT32_UINT32 z k : INT32 (UINT32 z + k) = INT32 (z + k).
Proof. machine_arith. Qed.

Lemma INT32_of_UINT32 z : INT32 (UINT32 z) = INT32 z.
Proof. machine_arith. Qed.

Example INT32_wraps : INT32 4294967295 = -1 ∧ UINT32 (-1) = 4294967295.
Proof. split; reflexivity. Qed.

Lemma store_Some {A} (arr : list A) i x :
  (i < length arr)%nat → store arr i x = Some (<[i := x]> arr).
Proof. intros. unfold store. by rewrite decide_True. Qed.

Lemma cutVertical_shape toCut cutWith output off :
  (off + 3 ≤ length output)%nat →
  ∃ out n, cutVertical toCut cutWith output off = Some (out, n)
           ∧ (1 ≤ n ≤ 3)%nat ∧ length out = length output.
Proof.
  intros Hlen. unfold cutVertical.
  destruct (_ && _); destruct (_ && _); simpl;
    repeat (rewrite store_Some by (rewrite ?length_insert; lia); simpl);
    eexists _, _; (split; [reflexivity|]); rewrite ?length_insert; lia.
Qed.

Lemma cutRange_loop_shape cutWith pieces : ∀ output numAreas,
  (numAreas + slots_needed cutWith pieces ≤ length output)%nat →
  ∃ out n, cutRange_loop pieces cutWith output numAreas = Some (out, n)
           ∧ (n ≤ numAreas + slots_needed cutWith pieces)%nat
           ∧ length out = length output.
Proof.
  induction pieces as [|range rest IH]; intros output numAreas Hlen.
  - exists output, numAreas. simpl. split; [done|]. lia.
  - unfold slots_needed in *. simpl in *.
    destruct (layers_within range cutWith).
    + destruct (cutVertical_shape range cutWith output numAreas)
        as (out & k & -> & Hk & Hout); [lia|]. simpl.
      destruct (IH out (numAreas + k)%nat) as (out' & n & -> & Hn & Hout');
        [lia|].
      exists out', n. split; [done|]. lia.
    + rewrite store_Some by lia. simpl.
      destruct (IH (<[numAreas:=range]> output) (S numAreas))
        as (out' & n & -> & Hn & Hout'); [rewrite length_insert; lia|].
      rewrite length_insert in Hout'.
      exists out', n. split; [done|]. lia.
Qed.

Lemma left_piece_outside toCut cutWith :
  well_formed toCut → well_formed cutWith →
  (0 <? INT32 (baseArrayLayer cutWith - baseArrayLayer toCut))
  && (INT32 (baseArrayLayer cutWith - baseArrayLayer toCut)
      <? INT32 (baseArrayLayer toCut + layerCount toCut)) = true →
  layers_within
    (with_layers toCut (baseArrayLayer toCut)
       (UINT32 (INT32 (baseArrayLayer cutWith - baseArrayLayer toCut))))
    cutWith = false.
Proof.
  intros [Ht _] [Hc _] [Hl1%Z.ltb_lt Hl2%Z.ltb_lt]%andb_prop.
  unfold layers_within. simpl. apply andb_false_iff.
  destruct (Z.leb_spec (baseArrayLayer cutWith) (baseArrayLayer toCut));
    [right|by left].
  apply Z.leb_gt. machine_arith.
Qed.

Lemma right_piece_outside toCut cutWith :
  well_formed toCut → well_formed cutWith →
  (0 <? INT32 (UINT32 (baseArrayLayer cutWith + layerCount cutWith)
               - baseArrayLayer toCut))
  && (INT32 (UINT32 (baseArrayLayer cutWith + layerCount cutWith)
             - baseArrayLayer toCut) <? INT32 (layerCount toCut)) = true →
  layers_within
    (with_layers toCut
       (UINT32 (baseArrayLayer toCut
                + INT32 (UINT32 (baseArrayLayer cutWith + layerCount cutWith)
                         - baseArrayLayer toCut)))
       (UINT32 (layerCount toCut
                - INT32 (UINT32 (baseArrayLayer cutWith + layerCount cutWith)
                         - baseArrayLayer toCut))))
    cutWith = false.
Proof.
  intros [Ht _] [Hc _] [Hr1%Z.ltb_lt Hr2%Z.ltb_lt]%andb_prop.
  unfold layers_within. simpl. apply andb_false_iff. right.
  apply Z.leb_gt. machine_arith.
Qed.

(** The pieces of the layer-axis cut never need more than five slots. *)
Lemma cutHorizontal_slots toCut cutWith :
  well_formed toCut → well_formed cutWith →
  ∃ horz n, cutHorizontal toCut cutWith (replicate 3 toCut) 0
            = Some (horz, n)
            ∧ (slots_needed cutWith (take n horz) ≤ 5)%nat.
Proof.
  intros Ht Hc. unfold cutHorizontal, slots_needed.
  destruct ((0 <? INT32 (baseArrayLayer cutWith - baseArrayLayer toCut)) && _)
    eqn:Hleft;
  destruct ((0 <? INT32 (UINT32 _ - baseArrayLayer toCut)) && _) eqn:Hright;
    simpl; eexists _, _; (split; [reflexivity|]); simpl;
    try (repeat destruct (layers_within _ _); simpl; lia).
  rewrite (left_piece_outside toCut cutWith) by done.
  rewrite (right_piece_outside toCut cutWith) by done.
  destruct (layers_within _ _); simpl; lia.
Qed.

(** C7: on well-formed ranges [cutRange] completes without writing outside
    [horzCuts] or the five-slot [output], and reports at most five areas,
    so that its closing assertion holds. *)
Theorem cutRange_at_most_five toCut cutWith output :
  well_formed toCut → well_formed cutWith → length output = 5%nat →
  ∃ out numAreas, cutRange toCut cutWith output = Some (out, numAreas)
                  ∧ (numAreas ≤ 5)%nat ∧ length out = 5%nat.
Proof.
  intros Ht Hc Hlen. unfold cutRange.
  destruct (cutHorizontal_slots toCut cutWith Ht Hc)
    as (horz & k & -> & Hslots). simpl.
  destruct (cutRange_loop_shape cutWith (take k horz) output 0)
    as (out & n & -> & Hn & Hout); [lia|]. simpl.
  rewrite decide_True by lia. exists out, n. split; [done|]. lia.
Qed.

Lemma cutRange_at_most_five_witness :
  ∃ out numAreas,
    cutRange (mkRange 1 0 4 0 4) (mkRange 1 1 1 1 1)
             (replicate 5 (mkRange 0 0 0 0 0)) = Some (out, numAreas)
    ∧ (numAreas ≤ 5)%nat ∧ length out = 5%nat.
Proof.
  apply cutRange_at_most_five;
    [unfold well_formed, two32; simpl; lia
    |unfold well_formed, two32; simpl; lia
    |reflexivity].
Defined.

(** Without the no-wrap condition the bound fails: a range whose layer
    interval wraps past [2^32] makes the loop cut two pieces vertically and
    write a sixth slot. *)
Lemma cutRange_overrun_when_wrapping :
  cutRange (mkRange 1 0 4 4294967294 5) (mkRange 1 1 1 0 1)
           (replicate 5 (mkRange 0 0 0 0 0)) = None.
Proof. vm_compute. reflexivity. Qed.

(** *** Cutting a range with itself *)

Lemma self_cut_tests b c :
  (0 <? INT32 (b - b)) && (INT32 (b - b) <? INT32 (b + c)) = false
  ∧ (0 <? INT32 (UINT32 (b + c) - b))
    && (INT32 (UINT32 (b + c) - b) <? INT32 c) = false.
Proof.
  split.
  - rewrite Z.sub_diag. reflexivity.
  - replace (INT32 (UINT32 (b + c) - b)) with (INT32 c) by machine_arith.
    rewrite Z.ltb_irrefl. apply andb_false_r.
Qed.

Lemma cutHorizontal_self R output off :
  cutHorizontal R R output off = output ← store output off R; Some (output, 1%nat).
Proof.
  unfold cutHorizontal.
  destruct (self_cut_tests (baseArrayLayer R) (layerCount R)) as [-> ->].
  simpl. by rewrite Nat.add_0_r.
Qed.

Lemma cutVertical_self R output off :
  cutVertical R R output off = output ← store output off R; Some (output, 1%nat).
Proof.
  unfold cutVertical.
  destruct (self_cut_tests (baseMipLevel R) (levelCount R)) as [-> ->].
  simpl. by rewrite Nat.add_0_r.
Qed.

Lemma layers_within_self R : layers_within R R = true.
Proof. unfold layers_within. by rewrite !Z.leb_refl. Qed.

(** C2 (as the code has it): cutting a range with an identical copy of
    itself reports exactly one area, the range itself, in slot 0; the
    other slots of [output] are left as they were. *)
Theorem cutRange_self R o0 o1 o2 o3 o4 :
  cutRange R R [o0; o1; o2; o3; o4] = Some ([R; o1; o2; o3; o4], 1%nat).
Proof.
  unfold cutRange. rewrite cutHorizontal_self. simpl.
  rewrite layers_within_self, cutVertical_self. reflexivity.
Qed.

(** C2, the statement refuted: [cutRange(R, R)] on the 4x4 range does not
    report zero areas. *)
Lemma cutRange_self_not_empty :
  ¬ ∃ out, cutRange (mkRange 1 0 4 0 4) (mkRange 1 0 4 0 4)
                    (replicate 5 (mkRange 0 0 0 0 0)) = Some (out, 0%nat).
Proof. intros [out H]. vm_compute in H. discriminate. Qed.

(** *** The interior 1x1 cut of a 4x4 range *)

Ltac split_cells :=
  unfold covers; simpl;
  rewrite ?Exists_cons, ?Exists_nil; unfold covers; simpl; lia.

Ltac no_overlaps :=
  simpl; repeat split; repeat constructor;
  unfold no_overlap, covers; simpl; intros; lia.

(** C1 (as the code has it): the call reports five pairwise non-overlapping
    rectangles, layers [0,1) and [2,4) over all mips, then layers [1,2)
    over mips [0,1), [2,4) and [1,2); the fifth is the cut-out region
    itself, the five alone make up the 4x4 range, and the first four make
    up the range minus the cut-out region. *)
Theorem cutRange_interior_scenario a a' o0 o1 o2 o3 o4 :
  let toCut := mkRange a 0 4 0 4 in
  let cutWith := mkRange a' 1 1 1 1 in
  let out := [mkRange a 0 4 0 1; mkRange a 0 4 2 2; mkRange a 0 1 1 1;
              mkRange a 2 2 1 1; mkRange a 1 1 1 1] in
  areas (cutRange toCut cutWith [o0; o1; o2; o3; o4]) = Some out
  ∧ pairwise_no_overlap out
  ∧ (∀ l m, covers toCut l m ↔ Exists (λ r, covers r l m) out)
  ∧ (∀ l m, covers toCut l m ∧ ¬ covers cutWith l m
            ↔ Exists (λ r, covers r l m) (take 4 out))
  ∧ Exists (λ r, same_region r cutWith) out.
Proof.
  intros toCut cutWith out. split; [reflexivity|].
  split; [subst out; no_overlaps|].
  split; [intros l m; subst toCut out; split_cells|].
  split; [intros l m; subst toCut cutWith out; split_cells|].
  subst out cutWith. rewrite !Exists_cons. do 4 right. left.
  by unfold same_region.
Qed.

(** C1, the statement refuted: the five rectangles reported are not a ring
    around the cut-out region, which is one of them. *)
Lemma cutRange_interior_not_ring :
  ∃ out, areas (cutRange (mkRange 1 0 4 0 4) (mkRange 1 1 1 1 1)
                         (replicate 5 (mkRange 0 0 0 0 0))) = Some out
         ∧ ¬ ring_around (mkRange 1 0 4 0 4) (mkRange 1 1 1 1 1) out.
Proof.
  eexists. split; [vm_compute; reflexivity|].
  intros (_ & Hnone & _).
  rewrite !Forall_cons in Hnone. destruct Hnone as (_ & _ & _ & _ & H & _).
  apply H. by unfold same_region.
Qed.

(** *** Cutting with a range that lies clear of the range cut *)







(** *** The first test of the cutting routines *)

(** C4: on [toCut] = layers [2,4) and [cutWith] = layers [5,6), both over
    mip 0, the left test [leftCut < baseArrayLayer + layerCount] passes
    with [leftCut = 3] and the call reports layers [2,5), an area that
    reaches past the end of [toCut]. *)
Theorem cutRange_left_piece_overshoots :
  areas (cutRange (mkRange 1 0 1 2 2) (mkRange 1 0 1 5 1)
                  (replicate 5 (mkRange 0 0 0 0 0)))
  = Some [mkRange 1 0 1 2 3]
  ∧ ¬ positive_within (mkRange 1 0 1 2 2) (mkRange 1 0 1 2 3).
Proof.
  split; [vm_compute; reflexivity|].
  unfold positive_within. simpl. lia.
Qed.

(** Away from the slack of the first test, every piece of a cut of a
    positive interval by a positive interval is positive and lies inside
    the interval cut. *)
Lemma cut_pieces_1d tb tc cb cc :
  0 ≤ tb → 0 < tc → tb + tc < two31 →
  0 ≤ cb → 0 < cc → cb + cc < two31 →
  first_test_exact tb tc cb →
  ((0 <? INT32 (cb - tb)) && (INT32 (cb - tb) <? INT32 (tb + tc)) = true →
     0 < UINT32 (INT32 (cb - tb)) ∧ UINT32 (INT32 (cb - tb)) ≤ tc)
  ∧ ((0 <? INT32 (UINT32 (cb + cc) - tb))
     && (INT32 (UINT32 (cb + cc) - tb) <? INT32 tc) = true →
       0 < UINT32 (tc - INT32 (UINT32 (cb + cc) - tb))
       ∧ tb ≤ UINT32 (tb + INT32 (UINT32 (cb + cc) - tb))
       ∧ UINT32 (tb + INT32 (UINT32 (cb + cc) - tb))
         + UINT32 (tc - INT32 (UINT32 (cb + cc) - tb)) ≤ tb + tc)
  ∧ ((0 <? INT32 (cb - tb)) && (INT32 (cb - tb) <? INT32 (tb + tc)) = true →
     (0 <? INT32 (UINT32 (cb + cc) - tb))
     && (INT32 (UINT32 (cb + cc) - tb) <? INT32 tc) = true →
       0 < UINT32 (UINT32 (tc - UINT32 (tc - INT32 (UINT32 (cb + cc) - tb)))
                   - INT32 (cb - tb))
       ∧ tb ≤ UINT32 (tb + INT32 (cb - tb))
       ∧ UINT32 (tb + INT32 (cb - tb))
         + UINT32 (UINT32 (tc - UINT32 (tc - INT32 (UINT32 (cb + cc) - tb)))
                   - INT32 (cb - tb)) ≤ tb + tc).
Proof.
  unfold first_test_exact. intros ? ? ? ? ? ? Hexact.
  repeat split; repeat (intros [?%Z.ltb_lt ?%Z.ltb_lt]%andb_prop);
    machine_arith.
Qed.

Lemma fits_int32_well_formed r :
  fits_int32 r → positive_extents r → well_formed r.
Proof.
  unfold fits_int32, positive_extents, well_formed, two31, two32. lia.
Qed.

Ltac use_tests :=
  repeat match goal with
    | H : true = true → _ |- _ => specialize (H eq_refl)
    | H : false = true → _ |- _ => clear H
    end.

Ltac pieces_within :=
  eexists; (split; [reflexivity|]); simpl;
  repeat constructor; unfold positive_within; simpl; lia.

(** What C4 asks holds whenever neither first test is met in its slack:
    on ranges of positive extents ending below [2^31], every area
    reported is positive and lies inside [toCut]. *)
Lemma cutRange_pieces_within toCut cutWith o0 o1 o2 o3 o4 :
  fits_int32 toCut → positive_extents toCut →
  fits_int32 cutWith → positive_extents cutWith →
  first_test_exact (baseArrayLayer toCut) (layerCount toCut)
                   (baseArrayLayer cutWith) →
  first_test_exact (baseMipLevel toCut) (levelCount toCut)
                   (baseMipLevel cutWith) →
  ∃ out, areas (cutRange toCut cutWith [o0; o1; o2; o3; o4]) = Some out
         ∧ Forall (positive_within toCut) out.
Proof.
  intros Hft Hpt Hfc Hpc HexactL HexactM.
  pose proof (fits_int32_well_formed _ Hft Hpt) as Hwt.
  pose proof (fits_int32_well_formed _ Hfc Hpc) as Hwc.
  pose proof (left_piece_outside toCut cutWith Hwt Hwc) as Hleft.
  pose proof (right_piece_outside toCut cutWith Hwt Hwc) as Hright.
  destruct Hft as [[? ?] [? ?]], Hpt as [? ?].
  destruct Hfc as [[? ?] [? ?]], Hpc as [? ?].
  destruct (cut_pieces_1d (baseArrayLayer toCut) (layerCount toCut)
              (baseArrayLayer cutWith) (layerCount cutWith))
    as (HL & HR & HM); [done..|].
  destruct (cut_pieces_1d (baseMipLevel toCut) (levelCount toCut)
              (baseMipLevel cutWith) (levelCount cutWith))
    as (VT & VB & VM); [done..|].
  unfold cutRange, cutHorizontal.
  destruct ((0 <? INT32 (baseArrayLayer cutWith - baseArrayLayer toCut)) && _)
    eqn:E1;
  destruct ((0 <? INT32 (UINT32 _ - baseArrayLayer toCut)) && _) eqn:E2;
    use_tests; simpl; rewrite ?Hleft; simpl; rewrite ?Hright; simpl;
    try (match goal with
         | |- context [layers_within ?r ?c] => destruct (layers_within r c)
         end; simpl; [|pieces_within]);
    try pieces_within;
    unfold cutVertical; simpl;
    destruct ((0 <? INT32 (baseMipLevel cutWith - baseMipLevel toCut)) && _)
      eqn:E3;
    destruct ((0 <? INT32 (UINT32 _ - baseMipLevel toCut)) && _) eqn:E4;
    use_tests; simpl; pieces_within.
Qed.

(** *** Overlap test *)

Lemma rangeOverlaps_sym a b : rangeOverlaps a b = rangeOverlaps b a.
Proof.
  unfold rangeOverlaps.
  destruct (INT32 (baseArrayLayer a) <? _), (INT32 (baseArrayLayer b) <? _),
    (INT32 (baseMipLevel a) <? _), (INT32 (baseMipLevel b) <? _); reflexivity.
Qed.

End VulkanUtilityProofs.

(** * Properties of the resource pool *)

Module GpuResourcePoolProofs.
Import GpuResourcePool.

Section Pool.
Context `{Engine}.

(** *** The scanning loop *)

Lemma scan_found {W} (heap : gmap ptr W) usable entries weak :
  scan heap usable entries = Some (Some weak) →
  ∃ k data, (k, weak) ∈ entries ∧ heap !! weak = Some data
            ∧ usable data = true.
Proof.
  induction entries as [|[k w] rest IH]; simpl; [done|].
  destruct (heap !! w) as [data|] eqn:Hw; simpl; [|done].
  destruct (usable data) eqn:Hu.
  - intros [= ->]. exists k, data. split; [left|done].
  - intros (k' & data' & Hin & ?)%IH. exists k', data'.
    split; [by right|done].
Qed.

Lemma scan_none {W} (heap : gmap ptr W) usable entries :
  scan heap usable entries = Some None ↔
  Forall (λ e, ∃ data, heap !! e.2 = Some data ∧ usable data = false)
         entries.
Proof.
  induction entries as [|[k w] rest IH]; simpl.
  - split; [constructor|done].
  - rewrite Forall_cons. simpl.
    destruct (heap !! w) as [data|] eqn:Hw; simpl.
    + destruct (usable data) eqn:Hu.
      * split; [done|]. intros [(d & [= <-] & ?) _]. congruence.
      * rewrite IH. split; [eauto|tauto].
    + split; [done|]. by intros [(d & ? & ?) _].
Qed.

(** When a single wrapper among the entries passes the tests, the loop
    ends on it wherever it stands in the iteration order. *)
Lemma scan_only_candidate {W} (heap : gmap ptr W) usable entries weak data :
  heap !! weak = Some data → usable data = true →
  (∃ k, (k, weak) ∈ entries) →
  Forall (λ e, e.2 = weak
               ∨ ∃ d, heap !! e.2 = Some d ∧ usable d = false) entries →
  scan heap usable entries = Some (Some weak).
Proof.
  intros Hweak Husable.
  induction entries as [|[k w] rest IH]; intros [k0 Hin] Hall.
  - by apply elem_of_nil in Hin.
  - apply Forall_cons in Hall as [Hhead Hrest]. simpl in *.
    destruct Hhead as [-> | (d & Hd & Hu)].
    + by rewrite Hweak; simpl; rewrite Husable.
    + rewrite Hd. simpl. rewrite Hu.
      apply elem_of_cons in Hin as [[= -> ->] | Hin].
      * congruence.
      * apply IH; eauto.
Qed.

Lemma elem_of_iteration (m : gmap ptr ptr) k w :
  (k, w) ∈ iteration m ↔ m !! k = Some w.
Proof. by rewrite iteration_entries, elem_of_map_to_list. Qed.

Lemma scan_total {W} (heap : gmap ptr W) usable entries :
  (∀ k w, (k, w) ∈ entries → is_Some (heap !! w)) →
  is_Some (scan heap usable entries).
Proof.
  induction entries as [|[k w] rest IH]; intros Halive; simpl; [eauto|].
  destruct (Halive k w) as [data ->]; [left|]. simpl.
  destruct (usable data); [eauto|]. apply IH. intros k' w' Hin.
  eapply Halive. by right.
Qed.

(** *** The two branches of [get] *)

Lemma get_texture_cases this desc σ pool :
  pools σ !! this = Some pool →
  get_texture this desc σ
  = match scan (textures σ) (texture_usable desc)
               (iteration (mTextures pool)) with
    | None => None
    | Some (Some w) =>
        data ← textures σ !! w;
        Some (w, set_textures
                   <[w := PooledRenderTexture.set_mIsFree false data]> σ)
    | Some None =>
        let w := fresh (dom (textures σ)) in
        Some (w, {| textures := <[w := new_texture_wrapper this desc]>
                                  (textures σ);
                    buffers := buffers σ;
                    pools := <[this := {| mTextures :=
                                            insert_pair w w (mTextures pool);
                                          mBuffers := mBuffers pool |}]>
                               (pools σ) |})
    end.
Proof.
  intros Hpool. unfold get_texture. rewrite Hpool. simpl.
  destruct (scan _ _ _) as [[w|]|]; simpl; [|  |done].
  { unfold modify_texture. by destruct (textures σ !! w). }
  unfold _registerTexture, modify_texture, new_texture_wrapper. simpl.
  rewrite Hpool. simpl. rewrite lookup_insert_eq. simpl.
  destruct (negb _); simpl; rewrite ?lookup_insert_eq; simpl;
    unfold set_textures, set_pools; simpl;
    by rewrite !insert_insert_eq.
Qed.

Lemma get_buffer_cases this desc σ pool :
  pools σ !! this = Some pool →
  get_buffer this desc σ
  = match scan (buffers σ) (buffer_usable desc)
               (iteration (mBuffers pool)) with
    | None => None
    | Some (Some w) =>
        data ← buffers σ !! w;
        Some (w, set_buffers
                   <[w := PooledStorageBuffer.set_mIsFree false data]> σ)
    | Some None =>
        let w := fresh (dom (buffers σ)) in
        Some (w, {| textures := textures σ;
                    buffers := <[w := new_buffer_wrapper this desc]>
                                 (buffers σ);
                    pools := <[this := {| mTextures := mTextures pool;
                                          mBuffers :=
                                            insert_pair w w (mBuffers pool)
                                       |}]>
                               (pools σ) |})
    end.
Proof.
  intros Hpool. unfold get_buffer. rewrite Hpool. simpl.
  destruct (scan _ _ _) as [[w|]|]; simpl; [|  |done].
  { unfold modify_buffer. by destruct (buffers σ !! w). }
  unfold _registerBuffer, modify_buffer, new_buffer_wrapper. simpl.
  rewrite Hpool. simpl. rewrite lookup_insert_eq. simpl.
  unfold set_buffers, set_pools; simpl.
  by rewrite !insert_insert_eq.
Qed.

Lemma insert_pair_keeps (m : gmap ptr ptr) k v k' v' :
  m !! k = Some v → insert_pair k' v' m !! k = Some v.
Proof.
  intros Hk. unfold insert_pair. destruct (m !! k') eqn:Hk'; [done|].
  rewrite lookup_insert_ne; [done|]. congruence.
Qed.

Lemma fresh_not_alive {W} (heap : gmap ptr W) w :
  is_Some (heap !! w) → w ≠ fresh (dom heap).
Proof.
  intros Hw%elem_of_dom ->. by apply (is_fresh (dom heap)).
Qed.

Lemma texture_usable_has_texture desc data :
  texture_usable desc data = true →
  PooledRenderTexture.mIsFree data = true
  ∧ ∃ texture, PooledRenderTexture.texture data = Some texture
               ∧ matches_texture texture desc = true.
Proof.
  unfold texture_usable. destruct (PooledRenderTexture.mIsFree data);
    simpl; [|done].
  destruct (PooledRenderTexture.texture data); [eauto|done].
Qed.

Lemma buffer_usable_has_buffer desc data :
  buffer_usable desc data = true →
  PooledStorageBuffer.mIsFree data = true
  ∧ ∃ buffer, PooledStorageBuffer.buffer data = Some buffer
              ∧ matches_buffer buffer desc = true.
Proof.
  unfold buffer_usable. destruct (PooledStorageBuffer.mIsFree data);
    simpl; [|done].
  destruct (PooledStorageBuffer.buffer data); [eauto|done].
Qed.

(** *** Releasing *)

Lemma set_textures_insert_id σ p data :
  textures σ !! p = Some data → set_textures <[p := data]> σ = σ.
Proof.
  intros Hp. destruct σ as [ts bs ps]. unfold set_textures. simpl in *.
  by rewrite insert_id.
Qed.

Lemma set_buffers_insert_id σ p data :
  buffers σ !! p = Some data → set_buffers <[p := data]> σ = σ.
Proof.
  intros Hp. destruct σ as [ts bs ps]. unfold set_buffers. simpl in *.
  by rewrite insert_id.
Qed.

Lemma release_texture_registered this w σ pool data :
  pools σ !! this = Some pool → mTextures pool !! w = Some w →
  textures σ !! w = Some data →
  release_texture this w σ
  = Some (set_textures <[w := PooledRenderTexture.set_mIsFree true data]> σ).
Proof.
  intros Hpool Hreg Hw. unfold release_texture, modify_texture.
  rewrite Hpool. simpl. rewrite Hreg. simpl. by rewrite Hw.
Qed.

Lemma release_buffer_registered this w σ pool data :
  pools σ !! this = Some pool → mBuffers pool !! w = Some w →
  buffers σ !! w = Some data →
  release_buffer this w σ
  = Some (set_buffers <[w := PooledStorageBuffer.set_mIsFree true data]> σ).
Proof.
  intros Hpool Hreg Hw. unfold release_buffer, modify_buffer.
  rewrite Hpool. simpl. rewrite Hreg. simpl. by rewrite Hw.
Qed.

(** C10: releasing a registered wrapper succeeds and yields the memory
    in which that wrapper's free flag is [true] and its handles and
    back-reference are as before; the pools with their maps, the other
    wrappers of its kind and all wrappers of the other kind are
    untouched, and releasing once more changes nothing. Stated for
    texture wrappers and for buffer wrappers. *)
Theorem release_sets_flag_only this w σ pool :
  pools σ !! this = Some pool →
  (∀ data, mTextures pool !! w = Some w → textures σ !! w = Some data →
     ∃ σ', release_texture this w σ = Some σ'
       ∧ textures σ' !! w
         = Some (PooledRenderTexture.mk
                   (PooledRenderTexture.texture data)
                   (PooledRenderTexture.renderTexture data)
                   (PooledRenderTexture.mPool data) true)
       ∧ (∀ w', w' ≠ w → textures σ' !! w' = textures σ !! w')
       ∧ buffers σ' = buffers σ ∧ pools σ' = pools σ
       ∧ release_texture this w σ' = Some σ')
  ∧ (∀ data, mBuffers pool !! w = Some w → buffers σ !! w = Some data →
     ∃ σ', release_buffer this w σ = Some σ'
       ∧ buffers σ' !! w
         = Some (PooledStorageBuffer.mk
                   (PooledStorageBuffer.buffer data)
                   (PooledStorageBuffer.mPool data) true)
       ∧ (∀ w', w' ≠ w → buffers σ' !! w' = buffers σ !! w')
       ∧ textures σ' = textures σ ∧ pools σ' = pools σ
       ∧ release_buffer this w σ' = Some σ').
Proof.
  intros Hpool. split; intros data Hreg Hw.
  - eexists. split; [by eapply release_texture_registered|]. simpl.
    split; [by rewrite lookup_insert_eq|].
    split; [by intros w' Hne; rewrite lookup_insert_ne|].
    do 2 (split; [done|]).
    erewrite release_texture_registered;
      [|done..|by simpl; rewrite lookup_insert_eq].
    f_equal. apply set_textures_insert_id. simpl.
    by rewrite lookup_insert_eq.
  - eexists. split; [by eapply release_buffer_registered|]. simpl.
    split; [by rewrite lookup_insert_eq|].
    split; [by intros w' Hne; rewrite lookup_insert_ne|].
    do 2 (split; [done|]).
    erewrite release_buffer_registered;
      [|done..|by simpl; rewrite lookup_insert_eq].
    f_equal. apply set_buffers_insert_id. simpl.
    by rewrite lookup_insert_eq.
Qed.

(** *** Teardown *)

Lemma detach_textures_spec entries : ∀ σ,
  (∀ k w, (k, w) ∈ entries → is_Some (textures σ !! w)) →
  ∃ σ', detach_textures entries σ = Some σ'
        ∧ buffers σ' = buffers σ ∧ pools σ' = pools σ
        ∧ ∀ p, textures σ' !! p
               = if decide (p ∈ entries.*2)
                 then PooledRenderTexture.set_mPool None <$> textures σ !! p
                 else textures σ !! p.
Proof.
  induction entries as [|[k w] rest IH]; intros σ Halive; simpl.
  - exists σ. by repeat split.
  - destruct (Halive k w) as [data Hw]; [left|].
    unfold modify_texture at 1. rewrite Hw. simpl.
    destruct (IH (set_textures <[w := PooledRenderTexture.set_mPool None data]> σ))
      as (σ' & -> & Hb & Hp & Ht).
    { intros k' w' Hin. simpl. destruct (decide (w' = w)) as [->|Hne].
      - rewrite lookup_insert_eq. eauto.
      - rewrite lookup_insert_ne by done. eapply Halive. by right. }
    exists σ'. split; [done|]. do 2 (split; [done|]).
    intros p. rewrite Ht. simpl. destruct (decide (p = w)) as [->|Hne].
    + rewrite lookup_insert_eq, Hw. simpl.
      destruct (decide (w ∈ w :: _)) as [_|Hout];
        [by destruct (decide _)|].
      exfalso. apply Hout. left.
    + rewrite lookup_insert_ne by done.
      destruct (decide (p ∈ rest.*2)) as [Hin|Hout].
      * rewrite decide_True; [done|]. by right.
      * rewrite decide_False; [done|].
        intros [?|?]%elem_of_cons; done.
Qed.

Lemma detach_buffers_spec entries : ∀ σ,
  (∀ k w, (k, w) ∈ entries → is_Some (buffers σ !! w)) →
  ∃ σ', detach_buffers entries σ = Some σ'
        ∧ textures σ' = textures σ ∧ pools σ' = pools σ
        ∧ ∀ p, buffers σ' !! p
               = if decide (p ∈ entries.*2)
                 then PooledStorageBuffer.set_mPool None <$> buffers σ !! p
                 else buffers σ !! p.
Proof.
  induction entries as [|[k w] rest IH]; intros σ Halive; simpl.
  - exists σ. by repeat split.
  - destruct (Halive k w) as [data Hw]; [left|].
    unfold modify_buffer at 1. rewrite Hw. simpl.
    destruct (IH (set_buffers <[w := PooledStorageBuffer.set_mPool None data]> σ))
      as (σ' & -> & Hb & Hp & Ht).
    { intros k' w' Hin. simpl. destruct (decide (w' = w)) as [->|Hne].
      - rewrite lookup_insert_eq. eauto.
      - rewrite lookup_insert_ne by done. eapply Halive. by right. }
    exists σ'. split; [done|]. do 2 (split; [done|]).
    intros p. rewrite Ht. simpl. destruct (decide (p = w)) as [->|Hne].
    + rewrite lookup_insert_eq, Hw. simpl.
      destruct (decide (w ∈ w :: _)) as [_|Hout];
        [by destruct (decide _)|].
      exfalso. apply Hout. left.
    + rewrite lookup_insert_ne by done.
      destruct (decide (p ∈ rest.*2)) as [Hin|Hout].
      * rewrite decide_True; [done|]. by right.
      * rewrite decide_False; [done|].
        intros [?|?]%elem_of_cons; done.
Qed.

(** C9: when every weak pointer in the pool's two maps still locks, the
    destructor of the pool completes; afterwards the pool object is
    gone, every wrapper that was registered is still alive with its
    handles and free flag as before and a null back-reference, and
    destroying any of them then succeeds without a call on the pool. *)
Theorem teardown_detaches_wrappers this pool σ :
  pools σ !! this = Some pool →
  (∀ k w, mTextures pool !! k = Some w → is_Some (textures σ !! w)) →
  (∀ k w, mBuffers pool !! k = Some w → is_Some (buffers σ !! w)) →
  ∃ σ', destroy_pool this σ = Some σ'
    ∧ pools σ' !! this = None
    ∧ (∀ k w, mTextures pool !! k = Some w →
         ∃ data, textures σ !! w = Some data
           ∧ textures σ' !! w
             = Some (PooledRenderTexture.mk
                       (PooledRenderTexture.texture data)
                       (PooledRenderTexture.renderTexture data)
                       None (PooledRenderTexture.mIsFree data))
           ∧ destroy_texture w σ'
             = Some ([], set_textures (delete w) σ'))
    ∧ (∀ k w, mBuffers pool !! k = Some w →
         ∃ data, buffers σ !! w = Some data
           ∧ buffers σ' !! w
             = Some (PooledStorageBuffer.mk
                       (PooledStorageBuffer.buffer data) None
                       (PooledStorageBuffer.mIsFree data))
           ∧ destroy_buffer w σ'
             = Some ([], set_buffers (delete w) σ')).
Proof.
  intros Hpool Htex Hbuf. unfold destroy_pool. rewrite Hpool. simpl.
  destruct (detach_textures_spec (iteration (mTextures pool)) σ)
    as (σ1 & -> & Hb1 & Hp1 & Ht1).
  { intros k w Hin%elem_of_iteration. eauto. }
  simpl.
  destruct (detach_buffers_spec (iteration (mBuffers pool)) σ1)
    as (σ2 & -> & Ht2 & Hp2 & Hb2).
  { intros k w Hin%elem_of_iteration. rewrite Hb1. eauto. }
  simpl. eexists. split; [done|]. simpl.
  split; [by rewrite lookup_delete_eq|]. split.
  - intros k w Hreg. destruct (Htex k w Hreg) as [data Hw].
    exists data. split; [done|].
    assert (textures σ2 !! w
            = Some (PooledRenderTexture.set_mPool None data)) as Hw2.
    { rewrite Ht2, Ht1, decide_True, Hw; [done|].
      apply (list_elem_of_fmap_2 snd _ (k, w)).
      by apply elem_of_iteration. }
    split; [done|]. unfold destroy_texture. simpl. by rewrite Hw2.
  - intros k w Hreg. destruct (Hbuf k w Hreg) as [data Hw].
    exists data. split; [done|].
    assert (buffers σ2 !! w
            = Some (PooledStorageBuffer.set_mPool None data)) as Hw2.
    { rewrite Hb2, Hb1, decide_True, Hw; [done|].
      apply (list_elem_of_fmap_2 snd _ (k, w)).
      by apply elem_of_iteration. }
    split; [done|]. unfold destroy_buffer. simpl. by rewrite Hw2.
Qed.

(** *** Wrappers with a null handle *)

Lemma get_texture_keeps_dead this h desc σ w σ' :
  dead this h σ → get_texture this desc σ = Some (w, σ') →
  h ≠ texture_handle w ∧ dead this h σ'.
Proof.
  intros Hdead Hget.
  assert (∃ pool, pools σ !! this = Some pool) as [pool Hpool]
    by (destruct h; destruct Hdead as (pool & ? & ? & ?); eauto).
  rewrite (get_texture_cases _ _ _ _ Hpool) in Hget.
  destruct (scan _ _ _) as [[w0|]|] eqn:Hscan; [| |done].
  - apply scan_found in Hscan as (k0 & data0 & _ & Hw0 & Husable).
    rewrite Hw0 in Hget. simpl in Hget. injection Hget as <- <-.
    apply texture_usable_has_texture in Husable
      as (_ & texture & Htexture & _).
    destruct h as [w1|w1]; simpl in *.
    + destruct Hdead as (pool1 & data1 & Hp1 & Hreg & Hw1 & Hnull).
      assert (w1 ≠ w0) by congruence.
      split; [congruence|]. exists pool1, data1.
      by rewrite lookup_insert_ne.
    + split; [done|]. exact Hdead.
  - simpl in Hget. injection Hget as <- <-.
    destruct h as [w1|w1]; simpl in *.
    + destruct Hdead as (pool1 & data1 & Hp1 & [k1 Hreg] & Hw1 & Hnull).
      assert (w1 ≠ fresh (dom (textures σ))) by (apply fresh_not_alive; eauto).
      split; [congruence|]. rewrite lookup_insert_eq.
      eexists _, data1. split; [done|]. simpl.
      assert (pool1 = pool) as -> by congruence.
      split; [exists k1; by apply insert_pair_keeps|].
      by rewrite lookup_insert_ne.
    + split; [done|].
      destruct Hdead as (pool1 & data1 & Hp1 & Hreg & Hw1 & Hnull).
      assert (pool1 = pool) as -> by congruence.
      rewrite lookup_insert_eq. by eexists _, data1.
Qed.

Lemma get_buffer_keeps_dead this h desc σ w σ' :
  dead this h σ → get_buffer this desc σ = Some (w, σ') →
  h ≠ buffer_handle w ∧ dead this h σ'.
Proof.
  intros Hdead Hget.
  assert (∃ pool, pools σ !! this = Some pool) as [pool Hpool]
    by (destruct h; destruct Hdead as (pool & ? & ? & ?); eauto).
  rewrite (get_buffer_cases _ _ _ _ Hpool) in Hget.
  destruct (scan _ _ _) as [[w0|]|] eqn:Hscan; [| |done].
  - apply scan_found in Hscan as (k0 & data0 & _ & Hw0 & Husable).
    rewrite Hw0 in Hget. simpl in Hget. injection Hget as <- <-.
    apply buffer_usable_has_buffer in Husable
      as (_ & buffer & Hbuffer & _).
    destruct h as [w1|w1]; simpl in *.
    + split; [done|]. exact Hdead.
    + destruct Hdead as (pool1 & data1 & Hp1 & Hreg & Hw1 & Hnull).
      assert (w1 ≠ w0) by congruence.
      split; [congruence|]. exists pool1, data1.
      by rewrite lookup_insert_ne.
  - simpl in Hget. injection Hget as <- <-.
    destruct h as [w1|w1]; simpl in *.
    + split; [done|].
      destruct Hdead as (pool1 & data1 & Hp1 & Hreg & Hw1 & Hnull).
      assert (pool1 = pool) as -> by congruence.
      rewrite lookup_insert_eq. by eexists _, data1.
    + destruct Hdead as (pool1 & data1 & Hp1 & [k1 Hreg] & Hw1 & Hnull).
      assert (w1 ≠ fresh (dom (buffers σ))) by (apply fresh_not_alive; eauto).
      split; [congruence|]. rewrite lookup_insert_eq.
      eexists _, data1. split; [done|]. simpl.
      assert (pool1 = pool) as -> by congruence.
      split; [exists k1; by apply insert_pair_keeps|].
      by rewrite lookup_insert_ne.
Qed.

Lemma release_texture_keeps_dead this h w σ σ' :
  dead this h σ → release_texture this w σ = Some σ' → dead this h σ'.
Proof.
  intros Hdead. unfold release_texture, modify_texture.
  destruct (pools σ !! this) as [pool|] eqn:Hpool; simpl; [|done].
  destruct (mTextures pool !! w) as [weak|]; simpl; [|done].
  destruct (textures σ !! weak) as [data|] eqn:Hweak; simpl; [|done].
  intros [= <-]. destruct h as [w1|w1]; simpl in *; [|done].
  destruct Hdead as (pool1 & data1 & Hp1 & Hreg & Hw1 & Hnull).
  destruct (decide (w1 = weak)) as [->|Hne].
  - rewrite lookup_insert_eq. eexists pool1, _.
    do 3 (split; [done|]). simpl. congruence.
  - rewrite lookup_insert_ne by done. by exists pool1, data1.
Qed.

Lemma release_buffer_keeps_dead this h w σ σ' :
  dead this h σ → release_buffer this w σ = Some σ' → dead this h σ'.
Proof.
  intros Hdead. unfold release_buffer, modify_buffer.
  destruct (pools σ !! this) as [pool|] eqn:Hpool; simpl; [|done].
  destruct (mBuffers pool !! w) as [weak|]; simpl; [|done].
  destruct (buffers σ !! weak) as [data|] eqn:Hweak; simpl; [|done].
  intros [= <-]. destruct h as [w1|w1]; simpl in *; [done|].
  destruct Hdead as (pool1 & data1 & Hp1 & Hreg & Hw1 & Hnull).
  destruct (decide (w1 = weak)) as [->|Hne].
  - rewrite lookup_insert_eq. eexists pool1, _.
    do 3 (split; [done|]). simpl. congruence.
  - rewrite lookup_insert_ne by done. by exists pool1, data1.
Qed.

Lemma step_keeps_dead this h op σ hs σ' :
  dead this h σ → step this op σ = Some (hs, σ') →
  (h ∉ hs) ∧ dead this h σ'.
Proof.
  intros Hdead. destruct op as [desc|desc|w|w]; simpl.
  - destruct (get_texture this desc σ) as [[w σ1]|] eqn:Hget; simpl;
      [|done].
    intros [= <- <-].
    destruct (get_texture_keeps_dead _ _ _ _ _ _ Hdead Hget) as [Hne ?].
    split; [|done]. by intros ->%list_elem_of_singleton.
  - destruct (get_buffer this desc σ) as [[w σ1]|] eqn:Hget; simpl;
      [|done].
    intros [= <- <-].
    destruct (get_buffer_keeps_dead _ _ _ _ _ _ Hdead Hget) as [Hne ?].
    split; [|done]. by intros ->%list_elem_of_singleton.
  - destruct (release_texture this w σ) as [σ1|] eqn:Hrel; simpl; [|done].
    intros [= <- <-]. split; [apply not_elem_of_nil|].
    by eapply release_texture_keeps_dead.
  - destruct (release_buffer this w σ) as [σ1|] eqn:Hrel; simpl; [|done].
    intros [= <- <-]. split; [apply not_elem_of_nil|].
    by eapply release_buffer_keeps_dead.
Qed.

(** A [get] that finds no match and whose factory returns a null
    texture leaves the new wrapper registered and dead. *)
Lemma failed_creation_leaves_dead this desc σ pool :
  pools σ !! this = Some pool →
  (∀ k w, mTextures pool !! k = Some w
          → w = k ∧ is_Some (textures σ !! w)) →
  scan (textures σ) (texture_usable desc) (iteration (mTextures pool))
  = Some None →
  createTexture (texDesc_of desc) = None →
  ∃ w σ', get_texture this desc σ = Some (w, σ')
          ∧ dead this (texture_handle w) σ'.
Proof.
  intros Hpool Hcons Hscan Hnull.
  rewrite (get_texture_cases _ _ _ _ Hpool), Hscan. simpl.
  eexists _, _. split; [done|]. simpl.
  rewrite !lookup_insert_eq. eexists _, _. split; [done|]. simpl.
  split; [|split; [reflexivity|by simpl; rewrite Hnull]].
  exists (fresh (dom (textures σ))). unfold insert_pair.
  destruct (mTextures pool !! fresh (dom (textures σ))) as [w'|] eqn:Hreg.
  - destruct (Hcons _ _ Hreg) as [-> Halive].
    by apply fresh_not_alive in Halive.
  - by rewrite lookup_insert_eq.
Qed.

(** C8: a wrapper registered in the pool with a null texture or buffer
    is never handed out by a [get], whatever calls of [get] and
    [release] are made on the pool and in whatever order; after them
    it is still registered, its handle still null. *)
Theorem dead_wrapper_never_acquired this h ops : ∀ σ hs σ',
  dead this h σ → run this ops σ = Some (hs, σ') →
  (h ∉ hs) ∧ dead this h σ'.
Proof.
  induction ops as [|op rest IH]; intros σ hs σ' Hdead; simpl.
  - intros [= <- <-]. split; [apply not_elem_of_nil|done].
  - destruct (step this op σ) as [[hs1 σ1]|] eqn:Hstep; simpl; [|done].
    destruct (run this rest σ1) as [[hs2 σ2]|] eqn:Hrun; simpl; [|done].
    intros [= <- <-].
    destruct (step_keeps_dead _ _ _ _ _ _ Hdead Hstep) as [Hout1 Hdead1].
    destruct (IH _ _ _ Hdead1 Hrun) as [Hout2 Hdead2].
    split; [|done]. rewrite elem_of_app. tauto.
Qed.

(** *** Acquire, release, acquire again *)

(** A texture made as [desc] asks matches every descriptor that differs
    from [desc] only by asking for fewer usage flags. *)
Lemma matches_texture_fewer_flags texture desc flag' :
  texture_as_asked texture (texDesc_of desc) →
  Z.land (TexDesc.flag desc) flag' = flag' →
  matches_texture texture (TexDesc.set_flag flag' desc) = true.
Proof.
  unfold texture_as_asked, matches_texture. intros -> Hflags. simpl.
  rewrite Hflags, !Z.eqb_refl, bool_decide_eq_true_2 by done. simpl.
  destruct (TexDesc.type desc); simpl; [|done..].
  by destruct (TexDesc.hwGamma desc).
Qed.

Lemma matches_texture_as_asked texture desc :
  texture_as_asked texture (texDesc_of desc) →
  matches_texture texture desc = true.
Proof.
  intros Hasked.
  replace desc with (TexDesc.set_flag (TexDesc.flag desc) desc)
    by (by destruct desc).
  apply matches_texture_fewer_flags; [done|]. simpl. apply Z.land_diag.
Qed.

(** A texture lacking one of the requested usage flags does not match. *)
Lemma matches_texture_needs_flags texture desc :
  Z.land (getUsage (getProperties texture)) (TexDesc.flag desc)
  ≠ TexDesc.flag desc →
  matches_texture texture desc = false.
Proof.
  intros Hflags%Z.eqb_neq. unfold matches_texture. rewrite Hflags.
  by rewrite andb_false_r.
Qed.

Lemma matches_buffer_as_asked buffer desc :
  buffer_as_asked buffer (bufferDesc_of desc) →
  matches_buffer buffer desc = true.
Proof.
  unfold buffer_as_asked, matches_buffer. intros ->. simpl.
  rewrite !Z.eqb_refl, bool_decide_eq_true_2 by done. simpl.
  by destruct (bool_decide _).
Qed.

(** The wrapper found by the scan is handed out again after a release:
    the release restores the memory the first [get] started from. *)
Lemma reacquire_found this desc σ pool w :
  pools σ !! this = Some pool →
  (∀ k w, mTextures pool !! k = Some w → w = k) →
  scan (textures σ) (texture_usable desc) (iteration (mTextures pool))
  = Some (Some w) →
  ∃ σ1, get_texture this desc σ = Some (w, σ1)
        ∧ release_texture this w σ1 = Some σ.
Proof.
  intros Hpool Hkeys Hscan.
  rewrite (get_texture_cases _ _ _ _ Hpool), Hscan.
  apply scan_found in Hscan as (k & data & Hin & Hw & Husable).
  apply elem_of_iteration in Hin. pose proof (Hkeys _ _ Hin) as ->.
  apply texture_usable_has_texture in Husable as [Hfree _].
  rewrite Hw. simpl. eexists. split; [done|].
  erewrite release_texture_registered;
    [|done..|by simpl; rewrite lookup_insert_eq].
  f_equal. destruct σ as [ts bs ps]. unfold set_textures. simpl in *.
  rewrite insert_insert_eq. f_equal. apply insert_id.
  rewrite Hw. f_equal. destruct data. simpl in *. by subst.
Qed.

(** The wrapper created by a [get] that found no match is handed out by
    a later [get] for [desc'] once released, provided it passes the
    tests for [desc'] and no older entry does. *)
Lemma reacquire_created this desc desc' σ pool :
  pools σ !! this = Some pool →
  (∀ k w, mTextures pool !! k = Some w
          → w = k ∧ is_Some (textures σ !! w)) →
  Forall (λ e, ∃ d, textures σ !! e.2 = Some d
                    ∧ texture_usable desc d = false)
         (iteration (mTextures pool)) →
  Forall (λ e, ∃ d, textures σ !! e.2 = Some d
                    ∧ texture_usable desc' d = false)
         (iteration (mTextures pool)) →
  texture_usable desc'
    (PooledRenderTexture.set_mIsFree true (new_texture_wrapper this desc))
  = true →
  ∃ w σ1 σ2 σ3, get_texture this desc σ = Some (w, σ1)
                ∧ release_texture this w σ1 = Some σ2
                ∧ get_texture this desc' σ2 = Some (w, σ3).
Proof.
  intros Hpool Hcons Hnone Hnone' Husable.
  rewrite (get_texture_cases _ _ _ _ Hpool).
  apply scan_none in Hnone. rewrite Hnone. simpl.
  set (w := fresh (dom (textures σ))).
  assert (mTextures pool !! w = None) as Hunreg.
  { destruct (mTextures pool !! w) as [w'|] eqn:Hreg; [|done].
    destruct (Hcons _ _ Hreg) as [-> Halive].
    by apply fresh_not_alive in Halive. }
  assert (insert_pair w w (mTextures pool) = <[w := w]> (mTextures pool))
    as Hinsert by (unfold insert_pair; by rewrite Hunreg).
  rewrite Hinsert.
  set (pool1 := {| mTextures := <[w := w]> (mTextures pool);
                   mBuffers := mBuffers pool |}).
  set (σ1 := {| textures := <[w := new_texture_wrapper this desc]>
                              (textures σ);
                buffers := buffers σ;
                pools := <[this := pool1]> (pools σ) |}).
  set (σ2 := set_textures
               <[w := PooledRenderTexture.set_mIsFree true
                        (new_texture_wrapper this desc)]> σ1).
  assert (release_texture this w σ1 = Some σ2) as Hrel.
  { apply release_texture_registered with (pool := pool1); simpl;
      apply lookup_insert_eq. }
  exists w, σ1, σ2. eexists. split; [done|]. split; [done|].
  rewrite (get_texture_cases this desc' σ2 pool1)
    by (simpl; apply lookup_insert_eq).
  simpl. rewrite insert_insert_eq.
  erewrite scan_only_candidate;
    [|by rewrite lookup_insert_eq|done| |].
  - rewrite lookup_insert_eq. simpl. eauto.
  - exists w. apply elem_of_iteration. by rewrite lookup_insert_eq.
  - apply Forall_forall. intros [k v] Hin%elem_of_iteration. simpl.
    destruct (decide (k = w)) as [->|Hne].
    + rewrite lookup_insert_eq in Hin. left. congruence.
    + rewrite lookup_insert_ne in Hin by done. right.
      rewrite Forall_forall in Hnone'.
      destruct (Hnone' (k, v)) as (d & Hd & Hu);
        [by apply elem_of_iteration|].
      simpl in *. exists d. split; [|done].
      rewrite lookup_insert_ne; [done|].
      intros <-. apply (fresh_not_alive (textures σ) w); eauto.
Qed.

(** C5 (as the code has it): in a pool whose texture map is consistent,
    and with a texture factory that, asked for the texture of [desc],
    returns a texture with the properties asked for, [get], then
    [release] of the wrapper returned, then [get] again all succeed and
    the second [get] returns the wrapper the first one returned. *)
Theorem acquire_release_acquire this desc σ :
  textures_consistent this σ →
  (∃ texture, createTexture (texDesc_of desc) = Some texture
              ∧ texture_as_asked texture (texDesc_of desc)) →
  ∃ w σ1 σ2 σ3, get_texture this desc σ = Some (w, σ1)
                ∧ release_texture this w σ1 = Some σ2
                ∧ get_texture this desc σ2 = Some (w, σ3).
Proof.
  intros (pool & Hpool & Hcons) (texture & Hmade & Hasked).
  destruct (scan_total (textures σ) (texture_usable desc)
              (iteration (mTextures pool))) as [[w|] Hscan].
  { intros k w Hin%elem_of_iteration. by apply Hcons in Hin as [_ ?]. }
  - destruct (reacquire_found this desc σ pool w) as (σ1 & Hget & Hrel);
      [done|by intros k w' [? _]%Hcons|done|].
    exists w, σ1, σ, σ1. done.
  - apply scan_none in Hscan.
    apply reacquire_created with (pool := pool); try done.
    unfold texture_usable, new_texture_wrapper. simpl. rewrite Hmade.
    by apply matches_texture_as_asked.
Qed.

(** C6 (as the code has it): in a pool none of whose registered texture
    wrappers is free, and with a texture factory that returns what it
    is asked for, acquiring the 256x256 2D descriptor of any format and
    usage flags (one sample, no gamma), releasing the wrapper and
    acquiring the same descriptor with the render-target bit cleared
    from its flags returns the released wrapper: the flags of its
    texture include the flags requested. *)
Theorem reacquire_with_fewer_flags this σ pool format usage :
  pools σ !! this = Some pool →
  (∀ k w, mTextures pool !! k = Some w →
     w = k ∧ ∃ data, textures σ !! w = Some data
                     ∧ PooledRenderTexture.mIsFree data = false) →
  (∃ texture,
     createTexture (texDesc_of (create2D format 256 256 usage 1 false))
     = Some texture
     ∧ texture_as_asked texture
         (texDesc_of (create2D format 256 256 usage 1 false))) →
  ∃ w σ1 σ2 σ3,
    get_texture this (create2D format 256 256 usage 1 false) σ
    = Some (w, σ1)
    ∧ release_texture this w σ1 = Some σ2
    ∧ get_texture this
        (create2D format 256 256
           (Z.land usage (Z.lnot TU_RENDERTARGET)) 1 false) σ2
      = Some (w, σ3).
Proof.
  intros Hpool Hbusy (texture & Hmade & Hasked).
  assert (∀ desc0,
    Forall (λ e, ∃ d, textures σ !! e.2 = Some d
                      ∧ texture_usable desc0 d = false)
           (iteration (mTextures pool))) as Hnone.
  { intros desc0. apply Forall_forall.
    intros [k w] Hin%elem_of_iteration. simpl.
    destruct (Hbusy _ _ Hin) as (_ & data & Hw & Hfree).
    exists data. split; [done|]. unfold texture_usable. by rewrite Hfree. }
  apply reacquire_created with (pool := pool); try done.
  - intros k w Hin. destruct (Hbusy _ _ Hin) as (-> & data & -> & _). eauto.
  - unfold texture_usable, new_texture_wrapper. simpl. rewrite Hmade.
    apply (matches_texture_fewer_flags texture
             (create2D format 256 256 usage 1 false)); [done|].
    simpl. by rewrite Z.land_assoc, Z.land_diag.
Qed.

(** *** The same for storage buffers *)

Lemma reacquire_found_buffer this desc σ pool w :
  pools σ !! this = Some pool →
  (∀ k w, mBuffers pool !! k = Some w → w = k) →
  scan (buffers σ) (buffer_usable desc) (iteration (mBuffers pool))
  = Some (Some w) →
  ∃ σ1, get_buffer this desc σ = Some (w, σ1)
        ∧ release_buffer this w σ1 = Some σ.
Proof.
  intros Hpool Hkeys Hscan.
  rewrite (get_buffer_cases _ _ _ _ Hpool), Hscan.
  apply scan_found in Hscan as (k & data & Hin & Hw & Husable).
  apply elem_of_iteration in Hin. pose proof (Hkeys _ _ Hin) as ->.
  apply buffer_usable_has_buffer in Husable as [Hfree _].
  rewrite Hw. simpl. eexists. split; [done|].
  erewrite release_buffer_registered;
    [|done..|by simpl; rewrite lookup_insert_eq].
  f_equal. destruct σ as [ts bs ps]. unfold set_buffers. simpl in *.
  rewrite insert_insert_eq. f_equal. apply insert_id.
  rewrite Hw. f_equal. destruct data. simpl in *. by subst.
Qed.

Lemma reacquire_created_buffer this desc σ pool :
  pools σ !! this = Some pool →
  (∀ k w, mBuffers pool !! k = Some w
          → w = k ∧ is_Some (buffers σ !! w)) →
  Forall (λ e, ∃ d, buffers σ !! e.2 = Some d
                    ∧ buffer_usable desc d = false)
         (iteration (mBuffers pool)) →
  buffer_usable desc
    (PooledStorageBuffer.set_mIsFree true (new_buffer_wrapper this desc))
  = true →
  ∃ w σ1 σ2 σ3, get_buffer this desc σ = Some (w, σ1)
                ∧ release_buffer this w σ1 = Some σ2
                ∧ get_buffer this desc σ2 = Some (w, σ3).
Proof.
  intros Hpool Hcons Hnone Husable.
  rewrite (get_buffer_cases _ _ _ _ Hpool).
  pose proof Hnone as Hscan. apply scan_none in Hscan. rewrite Hscan. simpl.
  set (w := fresh (dom (buffers σ))).
  assert (mBuffers pool !! w = None) as Hunreg.
  { destruct (mBuffers pool !! w) as [w'|] eqn:Hreg; [|done].
    destruct (Hcons _ _ Hreg) as [-> Halive].
    by apply fresh_not_alive in Halive. }
  assert (insert_pair w w (mBuffers pool) = <[w := w]> (mBuffers pool))
    as Hinsert by (unfold insert_pair; by rewrite Hunreg).
  rewrite Hinsert.
  set (pool1 := {| mTextures := mTextures pool;
                   mBuffers := <[w := w]> (mBuffers pool) |}).
  set (σ1 := {| textures := textures σ;
                buffers := <[w := new_buffer_wrapper this desc]> (buffers σ);
                pools := <[this := pool1]> (pools σ) |}).
  set (σ2 := set_buffers
               <[w := PooledStorageBuffer.set_mIsFree true
                        (new_buffer_wrapper this desc)]> σ1).
  assert (release_buffer this w σ1 = Some σ2) as Hrel.
  { apply release_buffer_registered with (pool := pool1); simpl;
      apply lookup_insert_eq. }
  exists w, σ1, σ2. eexists. split; [done|]. split; [done|].
  rewrite (get_buffer_cases this desc σ2 pool1)
    by (simpl; apply lookup_insert_eq).
  simpl. rewrite insert_insert_eq.
  erewrite scan_only_candidate;
    [|by rewrite lookup_insert_eq|done| |].
  - rewrite lookup_insert_eq. simpl. eauto.
  - exists w. apply elem_of_iteration. by rewrite lookup_insert_eq.
  - apply Forall_forall. intros [k v] Hin%elem_of_iteration. simpl.
    destruct (decide (k = w)) as [->|Hne].
    + rewrite lookup_insert_eq in Hin. left. congruence.
    + rewrite lookup_insert_ne in Hin by done. right.
      rewrite Forall_forall in Hnone.
      destruct (Hnone (k, v)) as (d & Hd & Hu);
        [by apply elem_of_iteration|].
      simpl in *. exists d. split; [|done].
      rewrite lookup_insert_ne; [done|].
      intros <-. apply (fresh_not_alive (buffers σ) w); eauto.
Qed.

(** Acquire, release, acquire again returns the same buffer wrapper, under
    the same conditions as for textures. *)
Lemma acquire_release_acquire_buffer this desc σ :
  buffers_consistent this σ →
  (∃ buffer, createGpuBuffer (bufferDesc_of desc) = Some buffer
             ∧ buffer_as_asked buffer (bufferDesc_of desc)) →
  ∃ w σ1 σ2 σ3, get_buffer this desc σ = Some (w, σ1)
                ∧ release_buffer this w σ1 = Some σ2
                ∧ get_buffer this desc σ2 = Some (w, σ3).
Proof.
  intros (pool & Hpool & Hcons) (buffer & Hmade & Hasked).
  destruct (scan_total (buffers σ) (buffer_usable desc)
              (iteration (mBuffers pool))) as [[w|] Hscan].
  { intros k w Hin%elem_of_iteration. by apply Hcons in Hin as [_ ?]. }
  - destruct (reacquire_found_buffer this desc σ pool w)
      as (σ1 & Hget & Hrel); [done|by intros k w' [? _]%Hcons|done|].
    exists w, σ1, σ, σ1. done.
  - apply scan_none in Hscan.
    apply reacquire_created_buffer with (pool := pool); try done.
    unfold buffer_usable, new_buffer_wrapper. simpl. rewrite Hmade.
    by apply matches_buffer_as_asked.
Qed.

(** *** What the pool's bookkeeping guards against *)

(** Releasing a wrapper that is not a key of the pool's map dereferences
    [end()]. *)
Lemma release_texture_unregistered this w σ pool :
  pools σ !! this = Some pool → mTextures pool !! w = None →
  release_texture this w σ = None.
Proof.
  intros Hpool Hw. unfold release_texture. rewrite Hpool. simpl.
  by rewrite Hw.
Qed.

(** A wrapper whose back-reference still names a pool that is gone makes
    its destructor call into that pool. *)
Lemma destroy_texture_dangling w σ data pool :
  textures σ !! w = Some data →
  PooledRenderTexture.mPool data = Some pool → pools σ !! pool = None →
  destroy_texture w σ = None.
Proof.
  intros Hw Hback Hgone. unfold destroy_texture, _unregisterTexture.
  rewrite Hw. simpl. rewrite Hback. by rewrite Hgone.
Qed.

End Pool.

(** *** The statements at concrete pools *)

Lemma release_sets_flag_only_witness :
  ∃ σ', release_texture 1%positive 1%positive dead_wrappers_memory = Some σ'
        ∧ textures σ' !! 1%positive
          = Some (PooledRenderTexture.mk None None (Some 1%positive) true)
        ∧ release_texture 1%positive 1%positive σ' = Some σ'.
Proof.
  destruct (release_sets_flag_only 1%positive 1%positive dead_wrappers_memory
              {| mTextures := {[ 1%positive := 1%positive ]};
                 mBuffers := {[ 1%positive := 1%positive ]} |}
              ltac:(reflexivity)) as [Htex _].
  destruct (Htex (PooledRenderTexture.mk None None (Some 1%positive) false)
              ltac:(reflexivity) ltac:(reflexivity))
    as (σ' & Hrel & Hflag & _ & _ & _ & Hagain).
  exists σ'. repeat split; assumption.
Defined.

Lemma teardown_detaches_wrappers_witness :
  ∃ σ', @destroy_pool faithful_engine 1%positive dead_wrappers_memory = Some σ'
        ∧ pools σ' !! 1%positive = None
        ∧ destroy_texture 1%positive σ' = Some ([], set_textures (delete 1%positive) σ')
        ∧ destroy_buffer 1%positive σ' = Some ([], set_buffers (delete 1%positive) σ').
Proof.
  destruct (@teardown_detaches_wrappers faithful_engine 1%positive
              {| mTextures := {[ 1%positive := 1%positive ]};
                 mBuffers := {[ 1%positive := 1%positive ]} |}
              dead_wrappers_memory ltac:(reflexivity))
    as (σ' & Hdestroy & Hgone & Htex & Hbuf).
  - simpl. intros k w [<- <-]%lookup_singleton_Some. by eexists.
  - simpl. intros k w [<- <-]%lookup_singleton_Some. by eexists.
  - exists σ'. split; [assumption|]. split; [assumption|]. split.
    + destruct (Htex 1%positive 1%positive ltac:(reflexivity))
        as (? & _ & _ & ?). assumption.
    + destruct (Hbuf 1%positive 1%positive ltac:(reflexivity))
        as (? & _ & _ & ?). assumption.
Defined.

Lemma dead_wrapper_never_acquired_witness :
  ∃ hs σ',
    @run failing_engine 1%positive
      [get_texture_op (create2D 1 256 256 0x200 1 false);
       release_texture_op 1%positive;
       get_texture_op (create2D 1 256 256 0x200 1 false)]
      dead_wrappers_memory = Some (hs, σ')
    ∧ (texture_handle 1%positive ∉ hs) ∧ dead 1%positive (texture_handle 1%positive) σ'.
Proof.
  eexists _, _. split; [vm_compute; reflexivity|].
  apply (@dead_wrapper_never_acquired failing_engine 1%positive
           (texture_handle 1%positive)
           [get_texture_op (create2D 1 256 256 0x200 1 false);
            release_texture_op 1%positive;
            get_texture_op (create2D 1 256 256 0x200 1 false)]
           dead_wrappers_memory).
  - simpl. eexists _, _. split; [reflexivity|].
    split; [exists 1%positive; reflexivity|]. split; reflexivity.
  - vm_compute. reflexivity.
Defined.

Lemma acquire_release_acquire_witness :
  ∃ w σ1 σ2 σ3,
    @get_texture faithful_engine 1%positive (create2D 1 256 256 0x200 1 false)
      empty_pool_memory = Some (w, σ1)
    ∧ release_texture 1%positive w σ1 = Some σ2
    ∧ @get_texture faithful_engine 1%positive (create2D 1 256 256 0x200 1 false) σ2
      = Some (w, σ3).
Proof.
  apply (@acquire_release_acquire faithful_engine).
  - exists {| mTextures := ∅; mBuffers := ∅ |}. split; [reflexivity|].
    simpl. intros k w Hk. rewrite lookup_empty in Hk. discriminate.
  - eexists. split; reflexivity.
Defined.

(** C5, the statement refuted: when the factory returns a null texture,
    the wrapper of the first [get] is registered at address 1, released,
    and passed over by the second [get], which registers a new wrapper
    at address 2. *)
Lemma null_texture_not_reacquired :
  ∃ σ1 σ2 σ3,
    @get_texture failing_engine 1%positive (create2D 1 256 256 0x200 1 false)
      empty_pool_memory = Some (1%positive, σ1)
    ∧ release_texture 1%positive 1%positive σ1 = Some σ2
    ∧ @get_texture failing_engine 1%positive (create2D 1 256 256 0x200 1 false) σ2
      = Some (2%positive, σ3).
Proof.
  eexists _, _, _.
  split; [vm_compute; reflexivity|].
  split; vm_compute; reflexivity.
Qed.

Lemma reacquire_with_fewer_flags_witness :
  ∃ w σ1 σ2 σ3,
    @get_texture faithful_engine 1%positive (create2D 1 256 256 0x200 1 false)
      empty_pool_memory = Some (w, σ1)
    ∧ release_texture 1%positive w σ1 = Some σ2
    ∧ @get_texture faithful_engine 1%positive
        (create2D 1 256 256 (Z.land 0x200 (Z.lnot 0x200)) 1 false) σ2
      = Some (w, σ3).
Proof.
  apply (@reacquire_with_fewer_flags faithful_engine 1%positive
           empty_pool_memory {| mTextures := ∅; mBuffers := ∅ |}).
  - reflexivity.
  - simpl. intros k w Hk. rewrite lookup_empty in Hk. discriminate.
  - eexists. split; reflexivity.
Defined.

(** C6, the statement refuted: the wrapper acquired with render-target
    usage ([0x200]) and released is the one returned for the same
    descriptor with no usage flag at all. *)
Lemma released_render_target_matches :
  ∃ σ1 σ2 σ3,
    @get_texture faithful_engine 1%positive (create2D 1 256 256 0x200 1 false)
      empty_pool_memory = Some (1%positive, σ1)
    ∧ release_texture 1%positive 1%positive σ1 = Some σ2
    ∧ @get_texture faithful_engine 1%positive (create2D 1 256 256 0 1 false) σ2
      = Some (1%positive, σ3).
Proof.
  eexists _, _, _.
  split; [vm_compute; reflexivity|].
  split; vm_compute; reflexivity.
Qed.

End GpuResourcePoolProofs.

(** * Further properties of the range partitioner *)

Module RangePartitionProofs.
Import MachineInt CArray VulkanUtility RangeTerms VulkanUtilityProofs.

(** On intervals ending below [2^31] the two tests of a cutting routine
    and the pieces it writes are those of exact integer arithmetic. *)
Lemma cut_tests_exact tb tc cb cc :
  0 ≤ tb → 0 < tc → tb + tc < two31 →
  0 ≤ cb → 0 < cc → cb + cc < two31 →
  ((0 <? INT32 (cb - tb)) && (INT32 (cb - tb) <? INT32 (tb + tc)) = true →
     0 < cb - tb < tb + tc ∧ UINT32 (INT32 (cb - tb)) = cb - tb)
  ∧ ((0 <? INT32 (cb - tb)) && (INT32 (cb - tb) <? INT32 (tb + tc)) = false →
     ¬ (0 < cb - tb < tb + tc))
  ∧ ((0 <? INT32 (UINT32 (cb + cc) - tb))
     && (INT32 (UINT32 (cb + cc) - tb) <? INT32 tc) = true →
       tb < cb + cc < tb + tc
       ∧ UINT32 (tb + INT32 (UINT32 (cb + cc) - tb)) = cb + cc
       ∧ UINT32 (tc - INT32 (UINT32 (cb + cc) - tb)) = tb + tc - (cb + cc))
  ∧ ((0 <? INT32 (UINT32 (cb + cc) - tb))
     && (INT32 (UINT32 (cb + cc) - tb) <? INT32 tc) = false →
       ¬ (tb < cb + cc < tb + tc))
  ∧ ((0 <? INT32 (cb - tb)) && (INT32 (cb - tb) <? INT32 (tb + tc)) = true →
     (0 <? INT32 (UINT32 (cb + cc) - tb))
     && (INT32 (UINT32 (cb + cc) - tb) <? INT32 tc) = true →
       UINT32 (tb + INT32 (cb - tb)) = cb
       ∧ UINT32 (UINT32 (tc - UINT32 (tc - INT32 (UINT32 (cb + cc) - tb)))
                 - INT32 (cb - tb)) = cc).
Proof.
  intros ? ? ? ? ? ?.
  assert (INT32 (cb - tb) = cb - tb) as -> by machine_arith.
  assert (INT32 (UINT32 (cb + cc) - tb) = cb + cc - tb) as -> by machine_arith.
  assert (INT32 (tb + tc) = tb + tc) as -> by machine_arith.
  assert (INT32 tc = tc) as -> by machine_arith.
  repeat split;
    try (intros [?%Z.ltb_lt ?%Z.ltb_lt]%andb_prop);
    try (intros [?%Z.ltb_lt ?%Z.ltb_lt]%andb_prop);
    try (intros [?%Z.ltb_ge | ?%Z.ltb_ge]%andb_false_iff);
    try lia; machine_arith.
Qed.

Lemma layers_within_exact r cutWith :
  0 ≤ baseArrayLayer r + layerCount r < two32 →
  0 ≤ baseArrayLayer cutWith + layerCount cutWith < two32 →
  layers_within r cutWith = true ↔
  baseArrayLayer cutWith ≤ baseArrayLayer r
  ∧ baseArrayLayer r + layerCount r
    ≤ baseArrayLayer cutWith + layerCount cutWith.
Proof.
  intros Hr Hc. unfold layers_within.
  rewrite andb_true_iff, !Z.leb_le.
  rewrite (UINT32_small _ Hr), (UINT32_small _ Hc). tauto.
Qed.

(** *** Case analysis of a call on valid ranges *)

Ltac settle_tests :=
  repeat match goal with
    | H : true = true → _ |- _ => specialize (H eq_refl)
    | H : false = false → _ |- _ => specialize (H eq_refl)
    | H : false = true → _ |- _ => clear H
    | H : true = false → _ |- _ => clear H
    end.

(** Turns the outcome of a containment test of the loop into the
    inequalities it stands for. *)
Ltac read_within :=
  match goal with
  | EW : layers_within ?r ?c = true |- _ =>
      apply layers_within_exact in EW;
      [cbn [baseArrayLayer layerCount with_layers] in EW
      |cbn [baseArrayLayer layerCount with_layers]; unfold two32, two31 in *; lia..]
  | EW : layers_within ?r ?c = false |- _ =>
      apply not_true_iff_false in EW;
      rewrite layers_within_exact in EW
        by (cbn [baseArrayLayer layerCount with_layers];
            unfold two32, two31 in *; lia);
      cbn [baseArrayLayer layerCount with_layers] in EW
  end.

(** Case analysis over the four tests of a call of [cutRange] on valid
    ranges; [fin] closes each case, in which the areas are explicit and
    the facts of [cut_tests_exact] are at hand. *)
Ltac cut_cases toCut cutWith Ht Hc fin :=
  let Hwt := fresh "Hwt" in let Hwc := fresh "Hwc" in
  let Hleft := fresh "Hleft" in let Hright := fresh "Hright" in
  pose proof (fits_int32_well_formed _ (proj1 Ht) (proj2 Ht)) as Hwt;
  pose proof (fits_int32_well_formed _ (proj1 Hc) (proj2 Hc)) as Hwc;
  pose proof (left_piece_outside toCut cutWith Hwt Hwc) as Hleft;
  pose proof (right_piece_outside toCut cutWith Hwt Hwc) as Hright;
  destruct Ht as [[[? ?] [? ?]] [? ?]];
  destruct Hc as [[[? ?] [? ?]] [? ?]];
  destruct (cut_tests_exact (baseArrayLayer toCut) (layerCount toCut)
              (baseArrayLayer cutWith) (layerCount cutWith))
    as (? & ? & ? & ? & ?); [done..|];
  destruct (cut_tests_exact (baseMipLevel toCut) (levelCount toCut)
              (baseMipLevel cutWith) (levelCount cutWith))
    as (? & ? & ? & ? & ?); [done..|];
  unfold cutRange, cutHorizontal;
  destruct ((0 <? INT32 (baseArrayLayer cutWith - baseArrayLayer toCut)) && _)
    eqn:?;
  destruct ((0 <? INT32 (UINT32 _ - baseArrayLayer toCut)) && _) eqn:?;
  settle_tests; simpl; rewrite ?Hleft; simpl; rewrite ?Hright; simpl;
  try (match goal with
       | |- context [layers_within ?r ?c] =>
           destruct (layers_within r c) eqn:?
       end; simpl; try read_within; [|solve [fin]]);
  try solve [fin];
  unfold cutVertical; simpl;
  destruct ((0 <? INT32 (baseMipLevel cutWith - baseMipLevel toCut)) && _)
    eqn:?;
  destruct ((0 <? INT32 (UINT32 _ - baseMipLevel toCut)) && _) eqn:?;
  settle_tests; simpl; fin.

(** *** What the areas returned have in common *)

Ltac all_disjoint :=
  eexists; (split; [reflexivity|]); simpl;
  repeat split; repeat constructor;
  unfold no_overlap, covers; simpl; intros; lia.

(** Cutting a valid range by a valid range always completes within five
    slots, and no two areas it returns share a subresource. *)
Theorem cutRange_areas_no_overlap toCut cutWith o0 o1 o2 o3 o4 :
  valid_range toCut → valid_range cutWith →
  ∃ out, areas (cutRange toCut cutWith [o0; o1; o2; o3; o4]) = Some out
         ∧ pairwise_no_overlap out.
Proof.
  intros Ht Hc. cut_cases toCut cutWith Ht Hc all_disjoint.
Qed.

Ltac in_or_out toCut :=
  eexists; (split; [reflexivity|]); simpl;
  repeat (apply Forall_cons_2 || apply Forall_nil_2);
  first [ left; unfold inside, covers; simpl; intros; lia
        | right; unfold no_overlap, covers; simpl; intros; lia
        | match goal with
          | |- inside ?c _ ∨ no_overlap _ _ =>
              destruct (Z.le_gt_cases (baseMipLevel c + levelCount c)
                          (baseMipLevel toCut));
              destruct (Z.le_gt_cases (baseMipLevel toCut + levelCount toCut)
                          (baseMipLevel c));
              destruct (Z.le_gt_cases (baseArrayLayer c + layerCount c)
                          (baseArrayLayer toCut));
              destruct (Z.le_gt_cases
                          (baseArrayLayer toCut + layerCount toCut)
                          (baseArrayLayer c))
          end;
          first [ left; unfold inside, covers; simpl; intros; lia
                | right; unfold no_overlap, covers; simpl; intros; lia ] ].

(** Every area returned lies inside [cutWith] or shares no subresource
    with it: none straddles its border. *)
Theorem cutRange_areas_in_or_out toCut cutWith o0 o1 o2 o3 o4 :
  valid_range toCut → valid_range cutWith →
  ∃ out, areas (cutRange toCut cutWith [o0; o1; o2; o3; o4]) = Some out
         ∧ Forall (λ r, inside cutWith r ∨ no_overlap r cutWith) out.
Proof.
  intros Ht Hc. cut_cases toCut cutWith Ht Hc ltac:(in_or_out toCut).
Qed.

Ltac outside_kept :=
  eexists; (split; [reflexivity|]); simpl;
  intros l m; rewrite ?Exists_cons, ?Exists_nil;
  unfold covers; simpl; lia.

(** Every subresource of [toCut] whose layer is outside the layers of
    [cutWith] is in one of the areas returned. *)
Theorem cutRange_keeps_outside_layers toCut cutWith o0 o1 o2 o3 o4 :
  valid_range toCut → valid_range cutWith →
  ∃ out, areas (cutRange toCut cutWith [o0; o1; o2; o3; o4]) = Some out
         ∧ ∀ l m, covers toCut l m →
                  ¬ (baseArrayLayer cutWith ≤ l
                     < baseArrayLayer cutWith + layerCount cutWith) →
                  Exists (λ r, covers r l m) out.
Proof.
  intros Ht Hc. cut_cases toCut cutWith Ht Hc outside_kept.
Qed.

(** *** The areas in two scenarios *)

Ltac exact_areas :=
  first [ exfalso; lia
        | simpl; repeat f_equal; lia ].

Lemma cutRange_interior_areas toCut cutWith o0 o1 o2 o3 o4 :
  valid_range toCut → valid_range cutWith → strictly_interior toCut cutWith →
  areas (cutRange toCut cutWith [o0; o1; o2; o3; o4])
  = Some [with_layers toCut (baseArrayLayer toCut)
            (baseArrayLayer cutWith - baseArrayLayer toCut);
          with_layers toCut (baseArrayLayer cutWith + layerCount cutWith)
            (baseArrayLayer toCut + layerCount toCut
             - (baseArrayLayer cutWith + layerCount cutWith));
          with_mips (with_layers toCut (baseArrayLayer cutWith)
                       (layerCount cutWith))
            (baseMipLevel toCut) (baseMipLevel cutWith - baseMipLevel toCut);
          with_mips (with_layers toCut (baseArrayLayer cutWith)
                       (layerCount cutWith))
            (baseMipLevel cutWith + levelCount cutWith)
            (baseMipLevel toCut + levelCount toCut
             - (baseMipLevel cutWith + levelCount cutWith));
          with_mips (with_layers toCut (baseArrayLayer cutWith)
                       (layerCount cutWith))
            (baseMipLevel cutWith) (levelCount cutWith)].
Proof.
  intros Ht Hc [[? ?] [? ?]]. cut_cases toCut cutWith Ht Hc exact_areas.
Qed.

(** When [cutWith] lies strictly in the interior of [toCut], five areas
    are returned; the fifth is the region of [cutWith], the five together
    cover exactly [toCut], and the first four exactly [toCut] without
    [cutWith]. *)
Theorem cutRange_interior toCut cutWith o0 o1 o2 o3 o4 :
  valid_range toCut → valid_range cutWith → strictly_interior toCut cutWith →
  ∃ r1 r2 r3 r4 r5,
    areas (cutRange toCut cutWith [o0; o1; o2; o3; o4])
    = Some [r1; r2; r3; r4; r5]
    ∧ same_region r5 cutWith
    ∧ (∀ l m, covers toCut l m ↔ Exists (λ r, covers r l m) [r1; r2; r3; r4; r5])
    ∧ (∀ l m, covers toCut l m ∧ ¬ covers cutWith l m
              ↔ Exists (λ r, covers r l m) [r1; r2; r3; r4]).
Proof.
  intros Ht Hc Hin. eexists _, _, _, _, _.
  split; [by apply cutRange_interior_areas|].
  destruct Ht as [[[? ?] [? ?]] [? ?]], Hc as [[[? ?] [? ?]] [? ?]].
  destruct Hin as [[? ?] [? ?]].
  split; [by unfold same_region|].
  split; intros l m; rewrite ?Exists_cons, ?Exists_nil;
    unfold covers; simpl; lia.
Qed.

(** When the layers of [cutWith] begin inside those of [toCut] and reach
    their end, the only area returned is the stripe of [toCut] before
    them; when they end inside those of [toCut] and begin at or before
    them, the only area is the stripe after them. Either way the stripe
    of [toCut] on the layers shared with [cutWith] is in no area,
    whatever the mip levels of [cutWith]. *)
Theorem cutRange_partial_layers toCut cutWith o0 o1 o2 o3 o4 :
  valid_range toCut → valid_range cutWith →
  (overlaps_tail_layers toCut cutWith →
   areas (cutRange toCut cutWith [o0; o1; o2; o3; o4])
   = Some [with_layers toCut (baseArrayLayer toCut)
             (baseArrayLayer cutWith - baseArrayLayer toCut)])
  ∧ (overlaps_head_layers toCut cutWith →
     areas (cutRange toCut cutWith [o0; o1; o2; o3; o4])
     = Some [with_layers toCut (baseArrayLayer cutWith + layerCount cutWith)
               (baseArrayLayer toCut + layerCount toCut
                - (baseArrayLayer cutWith + layerCount cutWith))]).
Proof.
  intros Ht Hc. split; intros (? & ? & ?);
    cut_cases toCut cutWith Ht Hc exact_areas.
Qed.

(** *** The overlap test *)

(** On valid ranges [rangeOverlaps] answers [true] exactly when the two
    ranges share a subresource. *)
Theorem rangeOverlaps_exact a b :
  valid_range a → valid_range b →
  rangeOverlaps a b = true ↔ ∃ l m, covers a l m ∧ covers b l m.
Proof.
  intros [[[? ?] [? ?]] [? ?]] [[[? ?] [? ?]] [? ?]]. unfold rangeOverlaps.
  assert (∀ x y, 0 ≤ x → 0 < y → x + y < two31 → INT32 (x + INT32 y) = x + y)
    as Hend by (intros; machine_arith).
  assert (∀ x y, 0 ≤ x → 0 < y → x + y < two31 → INT32 x = x)
    as Hbase by (intros; machine_arith).
  rewrite !Hend by done.
  rewrite (Hbase (baseArrayLayer a) (layerCount a)),
    (Hbase (baseArrayLayer b) (layerCount b)),
    (Hbase (baseMipLevel a) (levelCount a)),
    (Hbase (baseMipLevel b) (levelCount b)) by done.
  rewrite !andb_true_iff, !Z.ltb_lt. unfold covers. split.
  - intros. exists (Z.max (baseArrayLayer a) (baseArrayLayer b)),
      (Z.max (baseMipLevel a) (baseMipLevel b)). lia.
  - intros (l & m & ? & ?). lia.
Qed.

(** *** The statements at concrete ranges *)

Ltac valid_ranges :=
  unfold valid_range, fits_int32, positive_extents, strictly_interior,
    overlaps_tail_layers, overlaps_head_layers, two31; simpl; lia.

Lemma cutRange_areas_no_overlap_witness :
  ∃ out, areas (cutRange (mkRange 1 0 4 0 4) (mkRange 1 1 2 2 4)
                  (replicate 5 (mkRange 0 0 0 0 0))) = Some out
         ∧ pairwise_no_overlap out.
Proof.
  apply (cutRange_areas_no_overlap (mkRange 1 0 4 0 4) (mkRange 1 1 2 2 4));
    valid_ranges.
Defined.

Lemma cutRange_areas_in_or_out_witness :
  ∃ out, areas (cutRange (mkRange 1 0 4 0 4) (mkRange 1 1 1 1 1)
                  (replicate 5 (mkRange 0 0 0 0 0))) = Some out
         ∧ Forall (λ r, inside (mkRange 1 1 1 1 1) r
                        ∨ no_overlap r (mkRange 1 1 1 1 1)) out.
Proof.
  apply (cutRange_areas_in_or_out (mkRange 1 0 4 0 4) (mkRange 1 1 1 1 1));
    valid_ranges.
Defined.

Lemma cutRange_keeps_outside_layers_witness :
  ∃ out, areas (cutRange (mkRange 1 0 4 0 4) (mkRange 1 1 2 2 4)
                  (replicate 5 (mkRange 0 0 0 0 0))) = Some out
         ∧ ∀ l m, covers (mkRange 1 0 4 0 4) l m → ¬ (2 ≤ l < 2 + 4) →
                  Exists (λ r, covers r l m) out.
Proof.
  apply (cutRange_keeps_outside_layers (mkRange 1 0 4 0 4)
           (mkRange 1 1 2 2 4)); valid_ranges.
Defined.

Lemma cutRange_interior_witness :
  ∃ r1 r2 r3 r4 r5,
    areas (cutRange (mkRange 1 0 4 0 4) (mkRange 1 1 1 1 1)
             (replicate 5 (mkRange 0 0 0 0 0)))
    = Some [r1; r2; r3; r4; r5]
    ∧ same_region r5 (mkRange 1 1 1 1 1)
    ∧ (∀ l m, covers (mkRange 1 0 4 0 4) l m
              ↔ Exists (λ r, covers r l m) [r1; r2; r3; r4; r5])
    ∧ (∀ l m, covers (mkRange 1 0 4 0 4) l m
              ∧ ¬ covers (mkRange 1 1 1 1 1) l m
              ↔ Exists (λ r, covers r l m) [r1; r2; r3; r4]).
Proof.
  apply (cutRange_interior (mkRange 1 0 4 0 4) (mkRange 1 1 1 1 1));
    valid_ranges.
Defined.

Lemma cutRange_partial_layers_witness :
  areas (cutRange (mkRange 1 0 4 0 4) (mkRange 1 1 2 2 4)
           (replicate 5 (mkRange 0 0 0 0 0)))
  = Some [mkRange 1 0 4 0 2].
Proof.
  apply (cutRange_partial_layers (mkRange 1 0 4 0 4) (mkRange 1 1 2 2 4));
    valid_ranges.
Defined.

Lemma rangeOverlaps_exact_witness :
  rangeOverlaps (mkRange 1 0 4 0 4) (mkRange 1 1 2 2 4) = true
  ↔ ∃ l m, covers (mkRange 1 0 4 0 4) l m ∧ covers (mkRange 1 1 2 2 4) l m.
Proof.
  apply (rangeOverlaps_exact (mkRange 1 0 4 0 4) (mkRange 1 1 2 2 4));
    valid_ranges.
Defined.

Lemma cutRange_pieces_within_witness :
  ∃ out, areas (cutRange (mkRange 1 0 4 0 4) (mkRange 1 1 2 2 4)
                  (replicate 5 (mkRange 0 0 0 0 0))) = Some out
         ∧ Forall (positive_within (mkRange 1 0 4 0 4)) out.
Proof.
  apply (cutRange_pieces_within (mkRange 1 0 4 0 4) (mkRange 1 1 2 2 4));
    unfold fits_int32, positive_extents, first_test_exact, two31; simpl; lia.
Defined.

End RangePartitionProofs.

(** * Further properties of the resource pool *)

Module PoolUseProofs.
Import GpuResourcePool PoolTerms StorageBufferDescs GpuResourcePoolProofs.

Section Pool.
Context `{Engine}.

(** *** Exclusive use *)

Lemma get_texture_in_use this desc σ w σ' :
  get_texture this desc σ = Some (w, σ') →
  in_use (texture_handle w) σ'
  ∧ ∀ h, in_use h σ → h ≠ texture_handle w ∧ in_use h σ'.
Proof.
  intros Hget.
  destruct (pools σ !! this) as [pool|] eqn:Hpool;
    [|by unfold get_texture in Hget; rewrite Hpool in Hget].
  rewrite (get_texture_cases _ _ _ _ Hpool) in Hget.
  destruct (scan _ _ _) as [[w0|]|] eqn:Hscan; [| |done].
  - apply scan_found in Hscan as (k0 & data0 & _ & Hw0 & Husable).
    rewrite Hw0 in Hget. simpl in Hget. injection Hget as <- <-.
    apply texture_usable_has_texture in Husable as [Hfree _].
    split; [simpl; rewrite lookup_insert_eq; by eexists|].
    intros [w1|w1] (data1 & Hw1 & Hbusy); simpl in *.
    + assert (w1 ≠ w0) by congruence.
      split; [congruence|]. exists data1. by rewrite lookup_insert_ne.
    + split; [done|]. by exists data1.
  - simpl in Hget. injection Hget as <- <-.
    split; [simpl; rewrite lookup_insert_eq; by eexists|].
    intros [w1|w1] (data1 & Hw1 & Hbusy); simpl in *.
    + assert (w1 ≠ fresh (dom (textures σ)))
        by (apply fresh_not_alive; eauto).
      split; [congruence|]. exists data1. by rewrite lookup_insert_ne.
    + split; [done|]. by exists data1.
Qed.

Lemma get_buffer_in_use this desc σ w σ' :
  get_buffer this desc σ = Some (w, σ') →
  in_use (buffer_handle w) σ'
  ∧ ∀ h, in_use h σ → h ≠ buffer_handle w ∧ in_use h σ'.
Proof.
  intros Hget.
  destruct (pools σ !! this) as [pool|] eqn:Hpool;
    [|by unfold get_buffer in Hget; rewrite Hpool in Hget].
  rewrite (get_buffer_cases _ _ _ _ Hpool) in Hget.
  destruct (scan _ _ _) as [[w0|]|] eqn:Hscan; [| |done].
  - apply scan_found in Hscan as (k0 & data0 & _ & Hw0 & Husable).
    rewrite Hw0 in Hget. simpl in Hget. injection Hget as <- <-.
    apply buffer_usable_has_buffer in Husable as [Hfree _].
    split; [simpl; rewrite lookup_insert_eq; by eexists|].
    intros [w1|w1] (data1 & Hw1 & Hbusy); simpl in *.
    + split; [done|]. by exists data1.
    + assert (w1 ≠ w0) by congruence.
      split; [congruence|]. exists data1. by rewrite lookup_insert_ne.
  - simpl in Hget. injection Hget as <- <-.
    split; [simpl; rewrite lookup_insert_eq; by eexists|].
    intros [w1|w1] (data1 & Hw1 & Hbusy); simpl in *.
    + split; [done|]. by exists data1.
    + assert (w1 ≠ fresh (dom (buffers σ)))
        by (apply fresh_not_alive; eauto).
      split; [congruence|]. exists data1. by rewrite lookup_insert_ne.
Qed.

(** Without a release in between, no wrapper is handed out twice, and a
    wrapper that was in use before the calls is not handed out at all. *)
Theorem gets_hand_out_distinct_wrappers this ops : ∀ σ hs σ',
  forallb is_get ops = true → run this ops σ = Some (hs, σ') →
  NoDup hs
  ∧ (∀ h, h ∈ hs → in_use h σ')
  ∧ (∀ h, in_use h σ → (h ∉ hs) ∧ in_use h σ').
Proof.
  induction ops as [|op rest IH]; intros σ hs σ' Hgets; simpl.
  - intros [= <- <-]. split; [constructor|].
    split; [by intros h ?%elem_of_nil|].
    intros h ?. split; [apply not_elem_of_nil|done].
  - simpl in Hgets. apply andb_prop in Hgets as [Hop Hrest].
    destruct (step this op σ) as [[hs1 σ1]|] eqn:Hstep; simpl; [|done].
    destruct (run this rest σ1) as [[hs2 σ2]|] eqn:Hrun; simpl; [|done].
    intros [= <- <-].
    destruct (IH _ _ _ Hrest Hrun) as (Hnodup & Hout & Hkept).
    assert (∃ h1, hs1 = [h1] ∧ in_use h1 σ1
                  ∧ ∀ h, in_use h σ → h ≠ h1 ∧ in_use h σ1)
      as (h1 & -> & Hh1 & Hold).
    { destruct op as [desc|desc|w|w]; simpl in *; try done.
      - destruct (get_texture this desc σ) as [[w σ0]|] eqn:Hget;
          simpl in Hstep; [|done].
        injection Hstep as <- <-. eexists. split; [done|].
        by apply get_texture_in_use in Hget.
      - destruct (get_buffer this desc σ) as [[w σ0]|] eqn:Hget;
          simpl in Hstep; [|done].
        injection Hstep as <- <-. eexists. split; [done|].
        by apply get_buffer_in_use in Hget. }
    simpl. split; [|split].
    + constructor; [|done]. by apply Hkept.
    + intros h [->|Hin]%elem_of_cons; [by apply Hkept|by apply Hout].
    + intros h Hh. destruct (Hold h Hh) as [Hne Hh1'].
      destruct (Hkept h Hh1') as [Hnotin ?]. split; [|done].
      intros [?|?]%elem_of_cons; done.
Qed.

(** *** Consistency of the pool's maps *)

Lemma insert_pair_lookup (m : gmap ptr ptr) k k' v :
  insert_pair k k m !! k' = Some v → (k' = k ∧ v = k ∧ m !! k = None) ∨ m !! k' = Some v.
Proof.
  unfold insert_pair. destruct (m !! k) eqn:Hk; [by right|].
  destruct (decide (k = k')) as [<-|Hne].
  - rewrite lookup_insert_eq. intros [= <-]. by left.
  - rewrite lookup_insert_ne by done. by right.
Qed.

Lemma get_texture_keeps_textures_consistent this desc σ :
  textures_consistent this σ →
  ∃ w σ', get_texture this desc σ = Some (w, σ')
          ∧ textures_consistent this σ'
          ∧ registered this (texture_handle w) σ'
          ∧ buffers σ' = buffers σ
          ∧ (∀ pool pool', pools σ !! this = Some pool →
                           pools σ' !! this = Some pool' →
                           mBuffers pool' = mBuffers pool)
          ∧ ∀ h, registered this h σ → registered this h σ'.
Proof.
  intros (pool & Hpool & Hcons).
  rewrite (get_texture_cases _ _ _ _ Hpool).
  destruct (scan_total (textures σ) (texture_usable desc)
              (iteration (mTextures pool))) as [[w|] Hscan].
  { intros k w Hin%elem_of_iteration. by apply Hcons in Hin as [_ ?]. }
  - rewrite Hscan.
    apply scan_found in Hscan as (k & data & Hin%elem_of_iteration & Hw & _).
    destruct (Hcons _ _ Hin) as [-> _]. rewrite Hw. simpl.
    eexists _, _. split; [done|]. simpl. split; [|split; [|split; [|split]]].
    + exists pool. split; [done|]. intros k' w' Hreg.
      destruct (Hcons _ _ Hreg) as [-> [d Hd]]. split; [done|]. simpl.
      destruct (decide (k' = k)) as [->|Hne].
      * rewrite lookup_insert_eq. eauto.
      * rewrite lookup_insert_ne by done. eauto.
    + by exists pool.
    + done.
    + intros p p' ? ?. congruence.
    + by intros h Hh.
  - rewrite Hscan. simpl.
    set (w := fresh (dom (textures σ))).
    eexists _, _. split; [done|]. simpl. split; [|split; [|split; [|split]]].
    + eexists. split; [simpl; apply lookup_insert_eq|]. simpl.
      intros k' w' [(-> & -> & _)|Hreg]%insert_pair_lookup.
      * split; [done|]. rewrite lookup_insert_eq. eauto.
      * destruct (Hcons _ _ Hreg) as [-> [d Hd]]. split; [done|].
        rewrite lookup_insert_ne; [eauto|].
        intros <-. apply (fresh_not_alive (textures σ) w); eauto.
    + eexists. split; [simpl; apply lookup_insert_eq|]. simpl.
      unfold insert_pair.
      destruct (mTextures pool !! w) as [w'|] eqn:Hreg.
      * destruct (Hcons _ _ Hreg) as [-> Halive].
        by apply fresh_not_alive in Halive.
      * by rewrite lookup_insert_eq.
    + done.
    + intros p p' Hp. rewrite lookup_insert_eq. intros [= <-]. simpl.
      congruence.
    + intros h (p & Hp & Hh). eexists. split; [apply lookup_insert_eq|].
      assert (p = pool) as -> by congruence.
      destruct h; simpl; [try by apply insert_pair_keeps..]; done.
Qed.

Lemma get_buffer_keeps_buffers_consistent this desc σ :
  buffers_consistent this σ →
  ∃ w σ', get_buffer this desc σ = Some (w, σ')
          ∧ buffers_consistent this σ'
          ∧ registered this (buffer_handle w) σ'
          ∧ textures σ' = textures σ
          ∧ (∀ pool pool', pools σ !! this = Some pool →
                           pools σ' !! this = Some pool' →
                           mTextures pool' = mTextures pool)
          ∧ ∀ h, registered this h σ → registered this h σ'.
Proof.
  intros (pool & Hpool & Hcons).
  rewrite (get_buffer_cases _ _ _ _ Hpool).
  destruct (scan_total (buffers σ) (buffer_usable desc)
              (iteration (mBuffers pool))) as [[w|] Hscan].
  { intros k w Hin%elem_of_iteration. by apply Hcons in Hin as [_ ?]. }
  - rewrite Hscan.
    apply scan_found in Hscan as (k & data & Hin%elem_of_iteration & Hw & _).
    destruct (Hcons _ _ Hin) as [-> _]. rewrite Hw. simpl.
    eexists _, _. split; [done|]. simpl. split; [|split; [|split; [|split]]].
    + exists pool. split; [done|]. intros k' w' Hreg.
      destruct (Hcons _ _ Hreg) as [-> [d Hd]]. split; [done|]. simpl.
      destruct (decide (k' = k)) as [->|Hne].
      * rewrite lookup_insert_eq. eauto.
      * rewrite lookup_insert_ne by done. eauto.
    + by exists pool.
    + done.
    + intros p p' ? ?. congruence.
    + by intros h Hh.
  - rewrite Hscan. simpl.
    set (w := fresh (dom (buffers σ))).
    eexists _, _. split; [done|]. simpl. split; [|split; [|split; [|split]]].
    + eexists. split; [simpl; apply lookup_insert_eq|]. simpl.
      intros k' w' [(-> & -> & _)|Hreg]%insert_pair_lookup.
      * split; [done|]. rewrite lookup_insert_eq. eauto.
      * destruct (Hcons _ _ Hreg) as [-> [d Hd]]. split; [done|].
        rewrite lookup_insert_ne; [eauto|].
        intros <-. apply (fresh_not_alive (buffers σ) w); eauto.
    + eexists. split; [simpl; apply lookup_insert_eq|]. simpl.
      unfold insert_pair.
      destruct (mBuffers pool !! w) as [w'|] eqn:Hreg.
      * destruct (Hcons _ _ Hreg) as [-> Halive].
        by apply fresh_not_alive in Halive.
      * by rewrite lookup_insert_eq.
    + done.
    + intros p p' Hp. rewrite lookup_insert_eq. intros [= <-]. simpl.
      congruence.
    + intros h (p & Hp & Hh). eexists. split; [apply lookup_insert_eq|].
      assert (p = pool) as -> by congruence.
      destruct h; simpl; [try by apply insert_pair_keeps..]; done.
Qed.

Lemma release_texture_keeps_consistent this w σ σ' :
  pool_consistent this σ → release_texture this w σ = Some σ' →
  pool_consistent this σ' ∧ ∀ h, registered this h σ → registered this h σ'.
Proof.
  intros [(pool & Hpool & Hcons) (pool' & Hpool' & Hcons')].
  unfold release_texture, modify_texture. rewrite Hpool. simpl.
  destruct (mTextures pool !! w) as [weak|]; simpl; [|done].
  destruct (textures σ !! weak) as [data|] eqn:Hweak; simpl; [|done].
  intros [= <-]. split; [split|done].
  - exists pool. split; [done|]. intros k v Hreg. simpl.
    destruct (Hcons _ _ Hreg) as [-> [d Hd]]. split; [done|].
    destruct (decide (k = weak)) as [->|Hne].
    + rewrite lookup_insert_eq. eauto.
    + rewrite lookup_insert_ne by done. eauto.
  - by exists pool'.
Qed.

Lemma release_buffer_keeps_consistent this w σ σ' :
  pool_consistent this σ → release_buffer this w σ = Some σ' →
  pool_consistent this σ' ∧ ∀ h, registered this h σ → registered this h σ'.
Proof.
  intros [(pool & Hpool & Hcons) (pool' & Hpool' & Hcons')].
  unfold release_buffer, modify_buffer. rewrite Hpool'. simpl.
  destruct (mBuffers pool' !! w) as [weak|]; simpl; [|done].
  destruct (buffers σ !! weak) as [data|] eqn:Hweak; simpl; [|done].
  intros [= <-]. split; [split|done].
  - by exists pool.
  - exists pool'. split; [done|]. intros k v Hreg. simpl.
    destruct (Hcons' _ _ Hreg) as [-> [d Hd]]. split; [done|].
    destruct (decide (k = weak)) as [->|Hne].
    + rewrite lookup_insert_eq. eauto.
    + rewrite lookup_insert_ne by done. eauto.
Qed.

Lemma get_texture_keeps_pool_consistent this desc σ :
  pool_consistent this σ →
  ∃ w σ', get_texture this desc σ = Some (w, σ')
          ∧ pool_consistent this σ'
          ∧ registered this (texture_handle w) σ'
          ∧ ∀ h, registered this h σ → registered this h σ'.
Proof.
  intros [Htex (pool & Hpool & Hcons)].
  destruct (get_texture_keeps_textures_consistent this desc σ Htex)
    as (w & σ' & Hget & Htex' & Hreg & Hbufs & Hmap & Hmono).
  exists w, σ'. split; [done|]. split; [split; [done|]|done].
  destruct Htex' as (pool' & Hpool' & _). exists pool'. split; [done|].
  rewrite (Hmap _ _ Hpool Hpool'), Hbufs. done.
Qed.

Lemma get_buffer_keeps_pool_consistent this desc σ :
  pool_consistent this σ →
  ∃ w σ', get_buffer this desc σ = Some (w, σ')
          ∧ pool_consistent this σ'
          ∧ registered this (buffer_handle w) σ'
          ∧ ∀ h, registered this h σ → registered this h σ'.
Proof.
  intros [(pool & Hpool & Hcons) Hbuf].
  destruct (get_buffer_keeps_buffers_consistent this desc σ Hbuf)
    as (w & σ' & Hget & Hbuf' & Hreg & Htexs & Hmap & Hmono).
  exists w, σ'. split; [done|]. split; [split; [|done]|done].
  destruct Hbuf' as (pool' & Hpool' & _). exists pool'. split; [done|].
  rewrite (Hmap _ _ Hpool Hpool'), Htexs. done.
Qed.

Lemma step_keeps_pool_consistent this op σ hs σ' :
  pool_consistent this σ → step this op σ = Some (hs, σ') →
  pool_consistent this σ'
  ∧ (∀ h, h ∈ hs → registered this h σ')
  ∧ ∀ h, registered this h σ → registered this h σ'.
Proof.
  intros Hcons. destruct op as [desc|desc|w|w]; simpl.
  - destruct (get_texture_keeps_pool_consistent this desc σ Hcons)
      as (w & σ1 & -> & ? & ? & ?). simpl. intros [= <- <-].
    split; [done|]. split; [|done]. by intros h ->%list_elem_of_singleton.
  - destruct (get_buffer_keeps_pool_consistent this desc σ Hcons)
      as (w & σ1 & -> & ? & ? & ?). simpl. intros [= <- <-].
    split; [done|]. split; [|done]. by intros h ->%list_elem_of_singleton.
  - destruct (release_texture this w σ) as [σ1|] eqn:Hrel; simpl; [|done].
    intros [= <- <-].
    destruct (release_texture_keeps_consistent _ _ _ _ Hcons Hrel).
    split; [done|]. split; [|done]. by intros h ?%elem_of_nil.
  - destruct (release_buffer this w σ) as [σ1|] eqn:Hrel; simpl; [|done].
    intros [= <- <-].
    destruct (release_buffer_keeps_consistent _ _ _ _ Hcons Hrel).
    split; [done|]. split; [|done]. by intros h ?%elem_of_nil.
Qed.

(** Whatever calls of [get] and [release] complete on a consistent pool,
    the pool is consistent afterwards, and every wrapper handed out on the
    way, like every wrapper registered before, is registered in it. *)
Theorem run_keeps_pool_consistent this ops : ∀ σ hs σ',
  pool_consistent this σ → run this ops σ = Some (hs, σ') →
  pool_consistent this σ'
  ∧ (∀ h, h ∈ hs → registered this h σ')
  ∧ ∀ h, registered this h σ → registered this h σ'.
Proof.
  induction ops as [|op rest IH]; intros σ hs σ' Hcons; simpl.
  - intros [= <- <-]. split; [done|]. split; [|done].
    by intros h ?%elem_of_nil.
  - destruct (step this op σ) as [[hs1 σ1]|] eqn:Hstep; simpl; [|done].
    destruct (run this rest σ1) as [[hs2 σ2]|] eqn:Hrun; simpl; [|done].
    intros [= <- <-].
    destruct (step_keeps_pool_consistent _ _ _ _ _ Hcons Hstep)
      as (Hcons1 & Hnew1 & Hmono1).
    destruct (IH _ _ _ Hcons1 Hrun) as (Hcons2 & Hnew2 & Hmono2).
    split; [done|]. split; [|by eauto].
    intros h [?|?]%elem_of_app; eauto.
Qed.

(** On a consistent pool a sequence of [get]s always completes, handing
    out one wrapper per call. *)
Theorem gets_always_succeed this ops : ∀ σ,
  pool_consistent this σ → forallb is_get ops = true →
  ∃ hs σ', run this ops σ = Some (hs, σ') ∧ length hs = length ops.
Proof.
  induction ops as [|op rest IH]; intros σ Hcons Hgets; simpl.
  - by eexists _, _.
  - simpl in Hgets. apply andb_prop in Hgets as [Hop Hrest].
    assert (∃ h σ1, step this op σ = Some ([h], σ1)
                    ∧ pool_consistent this σ1) as (h & σ1 & -> & Hcons1).
    { destruct op as [desc|desc|w|w]; simpl in *; try done.
      - destruct (get_texture_keeps_pool_consistent this desc σ Hcons)
          as (w & σ1 & -> & ? & _). simpl. by eexists _, _.
      - destruct (get_buffer_keeps_pool_consistent this desc σ Hcons)
          as (w & σ1 & -> & ? & _). simpl. by eexists _, _. }
    simpl. destruct (IH σ1 Hcons1 Hrest) as (hs & σ' & -> & Hlen).
    simpl. eexists _, _. split; [done|]. simpl. by rewrite Hlen.
Qed.

(** *** What [get] returns *)

Lemma matches_texture_compatible texture desc :
  matches_texture texture desc = true → compatible texture desc.
Proof.
  unfold matches_texture, compatible.
  rewrite !andb_true_iff, bool_decide_eq_true, !Z.eqb_eq. tauto.
Qed.

(** A [get] either hands out a registered wrapper that was free and whose
    texture is compatible with the descriptor, changing nothing but that
    wrapper's free flag, or, when every registered wrapper fails the
    tests, a wrapper at an address that was not in use. *)
Theorem get_texture_reuses_or_creates this desc σ pool w σ' :
  pools σ !! this = Some pool → get_texture this desc σ = Some (w, σ') →
  (∃ data texture,
     (∃ k, mTextures pool !! k = Some w)
     ∧ textures σ !! w = Some data
     ∧ PooledRenderTexture.mIsFree data = true
     ∧ PooledRenderTexture.texture data = Some texture
     ∧ compatible texture desc
     ∧ σ' = set_textures
              <[w := PooledRenderTexture.set_mIsFree false data]> σ)
  ∨ (textures σ !! w = None
     ∧ (∀ k v, mTextures pool !! k = Some v →
          ∃ data, textures σ !! v = Some data
                  ∧ texture_usable desc data = false)
     ∧ textures σ' = <[w := new_texture_wrapper this desc]> (textures σ)
     ∧ buffers σ' = buffers σ).
Proof.
  intros Hpool Hget. rewrite (get_texture_cases _ _ _ _ Hpool) in Hget.
  destruct (scan _ _ _) as [[w0|]|] eqn:Hscan; [| |done].
  - left.
    apply scan_found in Hscan as (k & data & Hin%elem_of_iteration & Hw & Hu).
    rewrite Hw in Hget. simpl in Hget. injection Hget as <- <-.
    apply texture_usable_has_texture in Hu as (Hfree & texture & Ht & Hm).
    exists data, texture. split; [eauto|]. do 3 (split; [done|]).
    split; [by apply matches_texture_compatible|done].
  - right. simpl in Hget. injection Hget as <- <-. simpl.
    split; [apply not_elem_of_dom, is_fresh|]. split; [|done].
    apply scan_none in Hscan. rewrite Forall_forall in Hscan.
    intros k v Hreg. apply (Hscan (k, v)). by apply elem_of_iteration.
Qed.

(** *** The wrapper destructor against a live pool *)

Lemma pool_eta (pool : Pool) :
  {| mTextures := mTextures pool; mBuffers := mBuffers pool |} = pool.
Proof. by destruct pool. Qed.

(** Destroying a registered wrapper whose back-reference names the pool
    makes one call, [_unregisterTexture], after which the wrapper is no
    key of the map, is gone from memory, and the pool is consistent. *)
Theorem destroy_texture_unregisters this w σ data :
  textures_consistent this σ →
  textures σ !! w = Some data →
  PooledRenderTexture.mPool data = Some this →
  ∃ σ', destroy_texture w σ = Some ([unregisterTexture_call this w], σ')
        ∧ textures_consistent this σ'
        ∧ textures σ' = delete w (textures σ)
        ∧ buffers σ' = buffers σ
        ∧ ∃ pool', pools σ' !! this = Some pool'
                   ∧ mTextures pool' !! w = None.
Proof.
  intros (pool & Hpool & Hcons) Hw Hback.
  unfold destroy_texture, _unregisterTexture. rewrite Hw. simpl.
  rewrite Hback, Hpool. simpl. eexists. split; [done|]. simpl.
  split; [|split; [done|split; [done|]]].
  - eexists. split; [simpl; apply lookup_insert_eq|]. simpl.
    intros k v Hreg. apply lookup_delete_Some in Hreg as [Hne Hreg].
    destruct (Hcons _ _ Hreg) as [-> Halive]. split; [done|].
    by rewrite lookup_delete_ne.
  - eexists. split; [apply lookup_insert_eq|]. simpl.
    apply lookup_delete_eq.
Qed.

(** A wrapper created by [get] and destroyed at once leaves the memory
    exactly as it was before the [get]. *)
Theorem create_then_destroy_restores this desc σ pool :
  pools σ !! this = Some pool →
  (∀ k v, mTextures pool !! k = Some v →
     v = k ∧ ∃ data, textures σ !! v = Some data
                     ∧ texture_usable desc data = false) →
  ∃ w σ1, get_texture this desc σ = Some (w, σ1)
          ∧ textures σ !! w = None
          ∧ destroy_texture w σ1
            = Some ([unregisterTexture_call this w], σ).
Proof.
  intros Hpool Hcons. rewrite (get_texture_cases _ _ _ _ Hpool).
  assert (scan (textures σ) (texture_usable desc) (iteration (mTextures pool))
          = Some None) as ->.
  { apply scan_none, Forall_forall. intros [k v] Hin%elem_of_iteration.
    by apply Hcons in Hin as [_ ?]. }
  simpl. set (w := fresh (dom (textures σ))).
  assert (textures σ !! w = None) as Hfresh
    by apply not_elem_of_dom, is_fresh.
  assert (mTextures pool !! w = None) as Hunreg.
  { destruct (mTextures pool !! w) as [v|] eqn:Hreg; [|done].
    destruct (Hcons _ _ Hreg) as (-> & d & Hd & _). congruence. }
  eexists _, _. split; [done|]. split; [done|].
  unfold destroy_texture, _unregisterTexture. simpl.
  rewrite lookup_insert_eq. simpl. rewrite lookup_insert_eq. simpl.
  do 2 f_equal. destruct σ as [ts bs ps]. unfold set_textures, set_pools.
  simpl in *. f_equal.
  - by rewrite delete_insert_id.
  - rewrite insert_insert_eq. unfold insert_pair. rewrite Hunreg.
    rewrite delete_insert_id by done. rewrite pool_eta.
    by apply insert_id.
Qed.

(** *** Matching and usage flags *)

(** A texture that matches a descriptor matches it still when the
    descriptor asks for fewer usage flags. *)
Theorem matches_texture_fewer_flags_still texture desc flag' :
  matches_texture texture desc = true →
  Z.land (TexDesc.flag desc) flag' = flag' →
  matches_texture texture (TexDesc.set_flag flag' desc) = true.
Proof.
  unfold matches_texture. simpl.
  rewrite !andb_true_iff, !Z.eqb_eq.
  intros [[[[[? ?] ?] ?] Hflags] ?] Hfewer. repeat split; try done.
  rewrite <- Hfewer at 1. rewrite Z.land_assoc, Hflags. done.
Qed.

(** *** Standard and structured buffers *)

(** A buffer made for a standard descriptor matches the standard
    descriptors of its format and element count, whatever their element
    size, and no structured descriptor. *)
Theorem standard_buffer_matches BF_UNKNOWN buffer format numElements :
  buffer_as_asked buffer (bufferDesc_of (createStandard format numElements)) →
  (∀ format' numElements',
     matches_buffer buffer (createStandard format' numElements') = true
     ↔ format' = format ∧ numElements' = numElements)
  ∧ ∀ elementSize' numElements',
      matches_buffer buffer
        (createStructured BF_UNKNOWN elementSize' numElements') = false.
Proof.
  unfold buffer_as_asked, matches_buffer. intros ->. simpl. split.
  - intros format' numElements'.
    destruct (Z.eqb_spec numElements numElements') as [->|?]; simpl.
    + rewrite Z.eqb_eq. split; [by intros ->|by intros [-> _]].
    + split; [done|]. by intros [_ ->].
  - done.
Qed.

(** A buffer made for a structured descriptor matches the structured
    descriptors of its element size and element count, and no standard
    descriptor. *)
Theorem structured_buffer_matches BF_UNKNOWN buffer elementSize numElements :
  buffer_as_asked buffer
    (bufferDesc_of (createStructured BF_UNKNOWN elementSize numElements)) →
  (∀ elementSize' numElements',
     matches_buffer buffer
       (createStructured BF_UNKNOWN elementSize' numElements') = true
     ↔ elementSize' = elementSize ∧ numElements' = numElements)
  ∧ ∀ format' numElements',
      matches_buffer buffer (createStandard format' numElements') = false.
Proof.
  unfold buffer_as_asked, matches_buffer. intros ->. simpl. split.
  - intros elementSize' numElements'.
    destruct (Z.eqb_spec numElements numElements') as [->|?]; simpl.
    + rewrite Z.eqb_eq. split; [by intros ->|by intros [-> _]].
    + split; [done|]. by intros [_ ->].
  - done.
Qed.

End Pool.

(** *** The statements at concrete pools *)

Lemma empty_pool_consistent : pool_consistent 1%positive empty_pool_memory.
Proof.
  split; (exists {| mTextures := ∅; mBuffers := ∅ |}; split; [reflexivity|]);
    simpl; intros k w Hk; rewrite lookup_empty in Hk; discriminate.
Qed.

Lemma gets_hand_out_distinct_wrappers_witness :
  ∃ hs σ',
    @run faithful_engine 1%positive
      [get_texture_op (create2D 1 256 256 0x200 1 false);
       get_texture_op (create2D 1 256 256 0x200 1 false);
       get_buffer_op (createStandard 7 64)]
      empty_pool_memory = Some (hs, σ')
    ∧ NoDup hs
    ∧ (∀ h, h ∈ hs → in_use h σ')
    ∧ (∀ h, in_use h empty_pool_memory → (h ∉ hs) ∧ in_use h σ').
Proof.
  eexists _, _. split; [vm_compute; reflexivity|].
  apply (@gets_hand_out_distinct_wrappers faithful_engine 1%positive
           [get_texture_op (create2D 1 256 256 0x200 1 false);
            get_texture_op (create2D 1 256 256 0x200 1 false);
            get_buffer_op (createStandard 7 64)]
           empty_pool_memory).
  - reflexivity.
  - vm_compute. reflexivity.
Defined.

Lemma run_keeps_pool_consistent_witness :
  ∃ hs σ',
    @run faithful_engine 1%positive
      [get_texture_op (create2D 1 256 256 0x200 1 false);
       release_texture_op 1%positive;
       get_buffer_op (createStandard 7 64)]
      empty_pool_memory = Some (hs, σ')
    ∧ pool_consistent 1%positive σ'
    ∧ (∀ h, h ∈ hs → registered 1%positive h σ')
    ∧ (∀ h, registered 1%positive h empty_pool_memory →
            registered 1%positive h σ').
Proof.
  eexists _, _. split; [vm_compute; reflexivity|].
  apply (@run_keeps_pool_consistent faithful_engine 1%positive
           [get_texture_op (create2D 1 256 256 0x200 1 false);
            release_texture_op 1%positive;
            get_buffer_op (createStandard 7 64)]
           empty_pool_memory).
  - apply empty_pool_consistent.
  - vm_compute. reflexivity.
Defined.

Lemma gets_always_succeed_witness :
  ∃ hs σ',
    @run faithful_engine 1%positive
      [get_texture_op (create3D 1 64 64 16 0);
       get_buffer_op (createStandard 7 64)]
      empty_pool_memory = Some (hs, σ')
    ∧ length hs = 2%nat.
Proof.
  apply (@gets_always_succeed faithful_engine 1%positive
           [get_texture_op (create3D 1 64 64 16 0);
            get_buffer_op (createStandard 7 64)]
           empty_pool_memory).
  - apply empty_pool_consistent.
  - reflexivity.
Defined.

Lemma get_texture_reuses_or_creates_witness :
  ∃ w σ',
    @get_texture faithful_engine 1%positive
      (create2D 1 256 256 0x200 1 false) dead_wrappers_memory = Some (w, σ')
    ∧ textures dead_wrappers_memory !! w = None
    ∧ buffers σ' = buffers dead_wrappers_memory.
Proof.
  eexists _, _. split; [vm_compute; reflexivity|].
  destruct (@get_texture_reuses_or_creates faithful_engine 1%positive
              (create2D 1 256 256 0x200 1 false) dead_wrappers_memory
              {| mTextures := {[ 1%positive := 1%positive ]};
                 mBuffers := {[ 1%positive := 1%positive ]} |}
              2%positive
              (set_pools
                 <[1%positive :=
                     {| mTextures := {[ 1%positive := 1%positive;
                                        2%positive := 2%positive ]};
                        mBuffers := {[ 1%positive := 1%positive ]} |}]>
                 (set_textures
                    <[2%positive :=
                        @new_texture_wrapper faithful_engine 1%positive
                          (create2D 1 256 256 0x200 1 false)]>
                    dead_wrappers_memory))
              ltac:(reflexivity) ltac:(vm_compute; reflexivity))
    as [(data & texture & _ & Hw & _)|(Hnew & _ & _ & Hbuf)].
  - vm_compute in Hw. discriminate.
  - split; assumption.
Defined.

Lemma destroy_texture_unregisters_witness :
  ∃ σ',
    destroy_texture 1%positive dead_wrappers_memory
    = Some ([unregisterTexture_call 1%positive 1%positive], σ')
    ∧ textures_consistent 1%positive σ'
    ∧ textures σ' = delete 1%positive (textures dead_wrappers_memory)
    ∧ buffers σ' = buffers dead_wrappers_memory
    ∧ ∃ pool', pools σ' !! 1%positive = Some pool'
               ∧ mTextures pool' !! 1%positive = None.
Proof.
  apply (destroy_texture_unregisters 1%positive 1%positive
           dead_wrappers_memory
           (PooledRenderTexture.mk None None (Some 1%positive) false)).
  - exists {| mTextures := {[ 1%positive := 1%positive ]};
              mBuffers := {[ 1%positive := 1%positive ]} |}.
    split; [reflexivity|]. simpl.
    intros k w [<- <-]%lookup_singleton_Some. by eexists.
  - reflexivity.
  - reflexivity.
Defined.

Lemma create_then_destroy_restores_witness :
  ∃ w σ1,
    @get_texture faithful_engine 1%positive
      (create2D 1 256 256 0x200 1 false) dead_wrappers_memory = Some (w, σ1)
    ∧ textures dead_wrappers_memory !! w = None
    ∧ destroy_texture w σ1
      = Some ([unregisterTexture_call 1%positive w], dead_wrappers_memory).
Proof.
  apply (@create_then_destroy_restores faithful_engine 1%positive
           (create2D 1 256 256 0x200 1 false) dead_wrappers_memory
           {| mTextures := {[ 1%positive := 1%positive ]};
              mBuffers := {[ 1%positive := 1%positive ]} |}).
  - reflexivity.
  - simpl. intros k v [<- <-]%lookup_singleton_Some.
    split; [reflexivity|]. eexists. split; reflexivity.
Defined.

Lemma matches_texture_fewer_flags_still_witness :
  matches_texture
    {| getProperties :=
         {| getTextureType := TEX_TYPE_2D; getFormat := 1;
            getWidth := 256; getHeight := 256; getDepth := 1;
            getUsage := 0x200; isHardwareGammaEnabled := false;
            getNumSamples := 1 |} |}
    (TexDesc.set_flag 0 (create2D 1 256 256 0x200 1 false)) = true.
Proof.
  apply matches_texture_fewer_flags_still; reflexivity.
Defined.

Lemma acquire_release_acquire_buffer_witness :
  ∃ w σ1 σ2 σ3,
    @get_buffer faithful_engine 1%positive (createStandard 7 64)
      empty_pool_memory = Some (w, σ1)
    ∧ release_buffer 1%positive w σ1 = Some σ2
    ∧ @get_buffer faithful_engine 1%positive (createStandard 7 64) σ2
      = Some (w, σ3).
Proof.
  apply (@acquire_release_acquire_buffer faithful_engine).
  - apply empty_pool_consistent.
  - eexists. split; reflexivity.
Defined.

Lemma standard_buffer_matches_witness :
  (∀ format' numElements',
     matches_buffer
       (GpuBuffer.mk (GpuBufferProperties.mk GBT_STANDARD 64 7 0))
       (createStandard format' numElements') = true
     ↔ format' = 7 ∧ numElements' = 64)
  ∧ ∀ elementSize' numElements',
      matches_buffer
        (GpuBuffer.mk (GpuBufferProperties.mk GBT_STANDARD 64 7 0))
        (createStructured 0 elementSize' numElements') = false.
Proof.
  apply (standard_buffer_matches 0
           (GpuBuffer.mk (GpuBufferProperties.mk GBT_STANDARD 64 7 0)) 7 64).
  reflexivity.
Defined.

Lemma structured_buffer_matches_witness :
  (∀ elementSize' numElements',
     matches_buffer
       (GpuBuffer.mk (GpuBufferProperties.mk GBT_STRUCTURED 64 0 16))
       (createStructured 0 elementSize' numElements') = true
     ↔ elementSize' = 16 ∧ numElements' = 64)
  ∧ ∀ format' numElements',
      matches_buffer
        (GpuBuffer.mk (GpuBufferProperties.mk GBT_STRUCTURED 64 0 16))
        (createStandard format' numElements') = false.
Proof.
  apply (structured_buffer_matches 0
           (GpuBuffer.mk (GpuBufferProperties.mk GBT_STRUCTURED 64 0 16))
           16 64).
  reflexivity.
Defined.

End PoolUseProofs.

(** * Properties of the device selection *)

Module DeviceProofs.
Import CArray VulkanDevices.

Section Devices.
Context `{DeviceConstants}.

(** The mask test of [isDeviceIdxSet] reads bit [i] of the flags. *)
Lemma land_bit flags (i : nat) :
  (Z.land flags (Z.shiftl 1 (Z.of_nat i)) =? 0)
  = negb (Z.testbit flags (Z.of_nat i)).
Proof.
  rewrite Z.shiftl_1_l.
  destruct (Z.testbit flags (Z.of_nat i)) eqn:Hbit; simpl.
  - apply Z.eqb_neq. intros Hzero.
    assert (Z.testbit (Z.land flags (2 ^ Z.of_nat i)) (Z.of_nat i) = true) as Hset.
    { rewrite Z.land_spec, Hbit, Z.pow2_bits_true by lia. done. }
    rewrite Hzero, Z.bits_0 in Hset. done.
  - apply Z.eqb_eq, Z.bits_inj'. intros n Hn.
    rewrite Z.land_spec, Z.bits_0, Z.pow2_bits_eqb by lia.
    destruct (Z.eqb_spec (Z.of_nat i) n) as [<-|?].
    + rewrite Hbit. done.
    + apply andb_false_r.
Qed.

(** [isDeviceIdxSet] is defined exactly for the index of a device below
    the sign bit of the shift, and then tells whether bit [idx] of the
    flags is set, or the flags are the default ones and the device is
    primary. *)
Theorem isDeviceIdxSet_exact rapi idx flags b :
  isDeviceIdxSet rapi idx flags = Some b
  ↔ ∃ device, rapi !! idx = Some device ∧ (idx < 31)%nat
              ∧ b = asked_for flags idx device.
Proof.
  unfold isDeviceIdxSet, shift_one, asked_for. split.
  - destruct (rapi !! idx) as [device|]; simpl; [|done].
    destruct (decide (idx < 31)%nat); simpl; [|done].
    intros [= <-]. exists device. rewrite land_bit, negb_involutive. done.
  - intros (device & -> & Hidx & ->). simpl.
    rewrite decide_True by done. simpl.
    rewrite land_bit, negb_involutive. done.
Qed.

Lemma isDeviceIdxSet_in_range rapi idx flags device :
  rapi !! idx = Some device → (idx < 31)%nat →
  isDeviceIdxSet rapi idx flags = Some (asked_for flags idx device).
Proof.
  intros Hdevice Hidx. unfold isDeviceIdxSet, shift_one, asked_for.
  rewrite Hdevice. simpl. rewrite decide_True by done. simpl.
  rewrite land_bit, negb_involutive. done.
Qed.

(** The loop from index [s] on: the slots before [s] are left alone,
    the slots from [s] on are written as the flags ask. *)
Lemma getDevices_loop_selects rapi flags n :
  ∀ s devices,
    (s + n = length devices)%nat → (s + n ≤ 31)%nat →
    ∃ out,
      getDevices_loop rapi flags (seq s n) devices = Some out
      ∧ length out = length devices
      ∧ (∀ i, (i < s)%nat → out !! i = devices !! i)
      ∧ ∀ i, (s ≤ i < s + n)%nat → out !! i = Some (device_if_asked rapi flags i).
Proof.
  induction n as [|n IH]; intros s devices Hlen Hmax; simpl.
  - exists devices. do 3 (split; [done|]). intros; lia.
  - assert (∃ devices',
        (if decide (length rapi ≤ s)%nat then store devices s None
         else device ← rapi !! s;
              selected ← isDeviceIdxSet rapi s flags;
              if (selected : bool) then store devices s (Some device)
              else store devices s None)
        = Some devices'
        ∧ devices' = <[s := device_if_asked rapi flags s]> devices)
      as (devices' & -> & ->).
    { unfold device_if_asked, store.
      destruct (rapi !! s) as [device|] eqn:Hdevice.
      - apply lookup_lt_Some in Hdevice as Hin.
        rewrite decide_False by lia. simpl.
        rewrite (isDeviceIdxSet_in_range _ _ _ device) by (done || lia).
        simpl. destruct (asked_for flags s device);
          rewrite decide_True by lia; eauto.
      - apply lookup_ge_None in Hdevice as Hout.
        rewrite !decide_True by lia. eauto. }
    simpl.
    destruct (IH (S s) (<[s := device_if_asked rapi flags s]> devices))
      as (out & Hrun & Hlength & Hbefore & Hafter).
    { rewrite length_insert. lia. }
    { lia. }
    exists out. rewrite length_insert in Hlength.
    split; [done|]. split; [done|]. split.
    + intros i Hi. rewrite Hbefore by lia.
      apply list_lookup_insert_ne. lia.
    + intros i Hi. destruct (decide (i = s)) as [->|Hne].
      * rewrite Hbefore by lia. apply list_lookup_insert_eq. lia.
      * apply Hafter. lia.
Qed.

(** [getDevices] completes without reading a device out of range,
    whatever the array held before; slot [i] of the array then holds
    device [i] if there is one and the flags ask for it, and null
    otherwise. *)
Theorem getDevices_selects rapi flags devices :
  length devices = BS_MAX_DEVICES → (BS_MAX_DEVICES ≤ 31)%nat →
  ∃ out,
    getDevices rapi flags devices = Some out
    ∧ length out = BS_MAX_DEVICES
    ∧ ∀ i, (i < BS_MAX_DEVICES)%nat →
        out !! i = Some (device_if_asked rapi flags i).
Proof.
  intros Hlen Hmax. unfold getDevices.
  destruct (getDevices_loop_selects rapi flags BS_MAX_DEVICES 0 devices)
    as (out & Hrun & Hlength & _ & Hafter); [lia..|].
  exists out. split; [done|]. split; [lia|].
  intros i Hi. apply Hafter. lia.
Qed.

End Devices.

(** *** The statement at concrete devices *)

Lemma getDevices_selects_witness :
  ∃ out,
    @getDevices five_slots two_devices 2 (replicate 5 None) = Some out
    ∧ length out = 5%nat
    ∧ ∀ i, (i < 5)%nat →
        out !! i = Some (@device_if_asked five_slots two_devices 2 i).
Proof.
  apply (@getDevices_selects five_slots two_devices 2 (replicate 5 None)).
  - reflexivity.
  - simpl. lia.
Defined.

End DeviceProofs.

(** * Properties of the vertex declaration cache *)

Module HardwareBufferManagerProofs.
Import HardwareBufferManager.

Section Cache.
Context `{VertexElements}.

(** *** Keys *)

Lemma EqualFunction_loop_eq lhs : ∀ rhs,
  ne_is_difference → length lhs = length rhs →
  EqualFunction_loop lhs rhs = true ↔ lhs = rhs.
Proof.
  intros rhs Hne. revert rhs.
  induction lhs as [|l lhs IH]; intros [|r rhs] Hlen; simpl in *; try done.
  destruct (element_ne l r) eqn:Hlr.
  - split; [done|]. intros [= -> _].
    assert (element_ne r r = false) by (by apply Hne). congruence.
  - apply Hne in Hlr as ->. rewrite IH by lia.
    split; [by intros ->|by intros [= ->]].
Qed.


(** When [operator!=] tells exactly the elements that differ,
    [EqualFunction] tells exactly the keys with the same list of
    elements. *)
Theorem EqualFunction_decides_equality lhs rhs :
  ne_is_difference → EqualFunction lhs rhs = true ↔ lhs = rhs.
Proof.
  intros Hne. unfold EqualFunction.
  destruct (Nat.eqb_spec (length lhs) (length rhs)) as [Hlen|Hlen]; simpl.
  - by apply EqualFunction_loop_eq.
  - split; [done|]. intros ->. done.
Qed.

Lemma foldl_hash_alike lhs : ∀ rhs seed,
  (∀ a b, element_ne a b = false → getHash a = getHash b) →
  length lhs = length rhs →
  EqualFunction_loop lhs rhs = true →
  foldl (λ hash entry, hash_combine hash (getHash entry)) seed lhs
  = foldl (λ hash entry, hash_combine hash (getHash entry)) seed rhs.
Proof.
  induction lhs as [|l lhs IH]; intros [|r rhs] seed Hhash Hlen Heq;
    simpl in *; try done.
  destruct (element_ne l r) eqn:Hlr; [done|].
  rewrite (Hhash _ _ Hlr). apply IH; [done|lia|done].
Qed.

(** Keys that [EqualFunction] equates have the same [HashFunction]
    value, as an unordered map requires of its two functions, provided
    elements that [operator!=] does not tell apart have the same hash. *)
Theorem equal_keys_hash_alike lhs rhs :
  (∀ a b, element_ne a b = false → getHash a = getHash b) →
  EqualFunction lhs rhs = true → HashFunction lhs = HashFunction rhs.
Proof.
  intros Hhash. unfold EqualFunction, HashFunction.
  destruct (Nat.eqb_spec (length lhs) (length rhs)) as [Hlen|Hlen]; simpl;
    [|done].
  by apply foldl_hash_alike.
Qed.

Lemma EqualFunction_refl key :
  (∀ a, element_ne a a = false) → EqualFunction key key = true.
Proof.
  intros Hrefl. unfold EqualFunction. rewrite Nat.eqb_refl. simpl.
  induction key as [|a key IH]; simpl; [done|]. by rewrite Hrefl.
Qed.

(** *** The cache *)

Lemma find_assign_missing key value entries :
  (∀ a, element_ne a a = false) →
  find key entries = None →
  assign key value entries = entries ++ [(key, value)]
  ∧ find key (assign key value entries) = Some value.
Proof.
  intros Hrefl. induction entries as [|[k v] entries IH]; simpl.
  - intros _. by rewrite EqualFunction_refl.
  - destruct (EqualFunction k key) eqn:Hk; [done|]. intros Hnone.
    destruct (IH Hnone) as [-> Hfind]. simpl. by rewrite Hk.
Qed.


(** The outcome of [createVertexDeclaration], by the result of the cache
    look-up. *)
Lemma createVertexDeclaration_cases elements deviceMask σ :
  (∃ p, find elements (mCachedDeclarations σ) = Some p
        ∧ createVertexDeclaration elements deviceMask σ = Some (p, σ))
  ∨ (find elements (mCachedDeclarations σ) = None
     ∧ declarations σ !! fresh (dom (declarations σ)) = None
     ∧ createVertexDeclaration elements deviceMask σ
       = Some (fresh (dom (declarations σ)),
               {| declarations :=
                    <[fresh (dom (declarations σ)) :=
                        {| decl_elements := elements;
                           decl_deviceMask := deviceMask;
                           decl_initialized := true |}]> (declarations σ);
                  mCachedDeclarations :=
                    assign elements (fresh (dom (declarations σ)))
                      (mCachedDeclarations σ) |})).
Proof.
  unfold createVertexDeclaration.
  destruct (find elements (mCachedDeclarations σ)) as [p|] eqn:Hfind.
  - left. eauto.
  - right. split; [done|].
    assert (declarations σ !! fresh (dom (declarations σ)) = None) as Hfresh.
    { apply not_elem_of_dom, is_fresh. }
    split; [done|].
    unfold createVertexDeclarationInternal, initialize. simpl.
    rewrite lookup_insert_eq. simpl. rewrite insert_insert_eq. done.
Qed.



(** A second request for the same elements returns the declaration of
    the first and changes nothing, whatever device mask it names; if the
    first request created the declaration, its device mask is that of
    the first request. *)
Theorem createVertexDeclaration_hit_ignores_mask elements mask mask' σ p σ' :
  (∀ a, element_ne a a = false) →
  createVertexDeclaration elements mask σ = Some (p, σ') →
  createVertexDeclaration elements mask' σ' = Some (p, σ')
  ∧ (find elements (mCachedDeclarations σ) = None →
     ∃ decl, declarations σ' !! p = Some decl ∧ decl_deviceMask decl = mask).
Proof.
  intros Hrefl.
  destruct (createVertexDeclaration_cases elements mask σ)
    as [(q & Hfind & ->)|(Hfind & Hfresh & ->)]; intros [= <- <-].
  - split; [|congruence].
    destruct (createVertexDeclaration_cases elements mask' σ)
      as [(q' & Hfind' & ->)|(Hfind' & _)]; congruence.
  - destruct (find_assign_missing elements (fresh (dom (declarations σ)))
                (mCachedDeclarations σ) Hrefl Hfind) as [_ Hfound].
    split.
    + unfold createVertexDeclaration. simpl. rewrite Hfound. done.
    + intros _. eexists. split; [apply lookup_insert_eq|done].
Qed.


End Cache.

(** *** The statements at concrete element lists *)

Lemma integer_ne_is_difference : @ne_is_difference integer_elements.
Proof.
  intros a b. simpl. rewrite negb_false_iff. apply Z.eqb_eq.
Qed.


Lemma EqualFunction_decides_equality_witness :
  @EqualFunction integer_elements [1; 2] [1; 3] = true
  ↔ ([1; 2] : list Z) = [1; 3].
Proof.
  apply (@EqualFunction_decides_equality integer_elements [1; 2] [1; 3]).
  apply integer_ne_is_difference.
Defined.

Lemma equal_keys_hash_alike_witness :
  @HashFunction tagged_elements [(1, 5); (2, 6)]
  = @HashFunction tagged_elements [(1, 7); (2, 8)].
Proof.
  apply (@equal_keys_hash_alike tagged_elements
           [(1, 5); (2, 6)] [(1, 7); (2, 8)]).
  - intros a b Hab. simpl in *. apply negb_false_iff, Z.eqb_eq in Hab.
    by rewrite Hab.
  - reflexivity.
Defined.


Lemma createVertexDeclaration_hit_ignores_mask_witness :
  ∃ p σ',
    @createVertexDeclaration integer_elements [1; 2] 1 empty_manager
    = Some (p, σ')
    ∧ @createVertexDeclaration integer_elements [1; 2] 2 σ' = Some (p, σ')
    ∧ ∃ decl, declarations σ' !! p = Some decl ∧ decl_deviceMask decl = 1.
Proof.
  eexists _, _. split; [vm_compute; reflexivity|].
  destruct (@createVertexDeclaration_hit_ignores_mask integer_elements
              [1; 2] 1 2 empty_manager _ _
              ltac:(intros a; apply Z.eqb_refl || (simpl; by rewrite Z.eqb_refl))
              ltac:(vm_compute; reflexivity)) as [Hagain Hmask].
  split; [exact Hagain|]. apply Hmask. reflexivity.
Defined.


End HardwareBufferManagerProofs.

(** * Properties of the inspectable field hierarchy *)

Module InspectableFieldProofs.
Import InspectableField.

(** *** [List.Remove] *)

Lemma Remove_subset item l x : x ∈ Remove item l → x ∈ l.
Proof.
  induction l as [|y l IH]; simpl; [done|].
  destruct (decide (y = item)); [by right|].
  intros [->|?]%elem_of_cons; [left|right; auto].
Qed.

Lemma Remove_other item l x : x ∈ l → x ≠ item → x ∈ Remove item l.
Proof.
  induction l as [|y l IH]; simpl; [done|].
  intros [->|Hin]%elem_of_cons Hne.
  - rewrite decide_False by done. left.
  - destruct (decide (y = item)); [done|]. right. auto.
Qed.

Lemma Remove_NoDup item l :
  NoDup l → NoDup (Remove item l) ∧ item ∉ Remove item l.
Proof.
  induction 1 as [|y l Hy Hl IH]; simpl.
  - split; [constructor|apply not_elem_of_nil].
  - destruct (decide (y = item)) as [->|Hne]; [done|].
    destruct IH as [IH1 IH2]. split.
    + constructor; [|done]. intros ?%Remove_subset. done.
    + intros [?|?]%elem_of_cons; done.
Qed.

Lemma Remove_absent item l : item ∉ l → Remove item l = l.
Proof.
  induction l as [|y l IH]; simpl; [done|].
  intros Hnot. apply not_elem_of_cons in Hnot as [Hne Hnot].
  rewrite decide_False by done. by rewrite IH.
Qed.

Lemma Remove_last item l : item ∉ l → Remove item (l ++ [item]) = l.
Proof.
  induction l as [|y l IH]; simpl.
  - intros _. by rewrite decide_True.
  - intros Hnot. apply not_elem_of_cons in Hnot as [Hne Hnot].
    rewrite decide_False by done. by rewrite IH.
Qed.

(** *** The two methods, field by field *)

Lemma Field_eta f : {| children := children f; parent := parent f |} = f.
Proof. by destruct f. Qed.

(** [RemoveChild] on live objects completes, and changes two fields:
    the list of [this] and the parent of [child]. *)
Lemma RemoveChild_lookup this child σ :
  is_Some (σ !! this) → is_Some (σ !! child) →
  ∃ σ', RemoveChild this child σ = Some σ'
        ∧ ∀ x, σ' !! x
               = (λ fx, {| children := if decide (x = this)
                                       then Remove child (children fx)
                                       else children fx;
                           parent := if decide (x = child) then None
                                     else parent fx |}) <$> σ !! x.
Proof.
  intros [self Hself] [fc Hfc]. unfold RemoveChild. rewrite Hself. simpl.
  destruct (decide (child = this)) as [->|Hne].
  - rewrite lookup_insert_eq. simpl. eexists. split; [done|]. intros x.
    destruct (decide (x = this)) as [->|Hx].
    + rewrite lookup_insert_eq, Hself. done.
    + rewrite !lookup_insert_ne by done.
      destruct (σ !! x) as [fx|]; simpl; [|done]. by rewrite Field_eta.
  - rewrite lookup_insert_ne, Hfc by done. simpl.
    eexists. split; [done|]. intros x.
    destruct (decide (x = child)) as [->|Hx].
    + rewrite lookup_insert_eq, Hfc. simpl. by rewrite decide_False.
    + rewrite lookup_insert_ne by done.
      destruct (decide (x = this)) as [->|Hx'].
      * rewrite lookup_insert_eq, Hself. done.
      * rewrite lookup_insert_ne by done.
        destruct (σ !! x) as [fx|]; simpl; [|done]. by rewrite Field_eta.
Qed.

(** The tail of [AddChild], once the child is detached. *)
Lemma attach_lookup this child (σ : Heap) :
  is_Some (σ !! this) → is_Some (σ !! child) →
  ∃ σ',
    (self ← σ !! this;
     let σ := <[this := {| children := children self ++ [child];
                           parent := parent self |}]> σ in
     c ← σ !! child;
     Some (<[child := {| children := children c; parent := Some this |}]> σ))
    = Some σ'
    ∧ ∀ x, σ' !! x
           = (λ fx, {| children := if decide (x = this)
                                   then children fx ++ [child]
                                   else children fx;
                       parent := if decide (x = child) then Some this
                                 else parent fx |}) <$> σ !! x.
Proof.
  intros [self Hself] [fc Hfc]. rewrite Hself. simpl.
  destruct (decide (child = this)) as [->|Hne].
  - rewrite lookup_insert_eq. simpl. eexists. split; [done|]. intros x.
    destruct (decide (x = this)) as [->|Hx].
    + rewrite lookup_insert_eq, Hself. done.
    + rewrite !lookup_insert_ne by done.
      destruct (σ !! x) as [fx|]; simpl; [|done]. by rewrite Field_eta.
  - rewrite lookup_insert_ne, Hfc by done. simpl.
    eexists. split; [done|]. intros x.
    destruct (decide (x = child)) as [->|Hx].
    + rewrite lookup_insert_eq, Hfc. simpl. by rewrite decide_False.
    + rewrite lookup_insert_ne by done.
      destruct (decide (x = this)) as [->|Hx'].
      * rewrite lookup_insert_eq, Hself. done.
      * rewrite lookup_insert_ne by done.
        destruct (σ !! x) as [fx|]; simpl; [|done]. by rewrite Field_eta.
Qed.

(** *** Detaching a child *)

(** Looking a field up in the heap a method returned, given the heap
    field by field. *)
Lemma lookup_through (σ σ' : Heap) (g : ref → Field → Field) x fx' :
  (∀ x, σ' !! x = g x <$> σ !! x) → σ' !! x = Some fx' →
  ∃ fx, σ !! x = Some fx ∧ fx' = g x fx.
Proof.
  intros Hlook Hx. rewrite Hlook in Hx.
  destruct (σ !! x) as [fx|]; simpl in Hx; [|done].
  injection Hx as <-. eauto.
Qed.

(** [RemoveChild] called on the parent of [child] keeps the heap
    linked. *)
Lemma RemoveChild_linked this child σ fc :
  linked σ → σ !! child = Some fc → parent fc = Some this →
  ∃ σ', RemoveChild this child σ = Some σ'
        ∧ linked σ'
        ∧ ∀ x, σ' !! x
               = (λ fx, {| children := if decide (x = this)
                                       then Remove child (children fx)
                                       else children fx;
                           parent := if decide (x = child) then None
                                     else parent fx |}) <$> σ !! x.
Proof.
  intros (I1 & I2 & I3) Hfc Hparent.
  destruct (I2 _ _ _ Hfc Hparent) as (self & Hself & Hlisted).
  destruct (RemoveChild_lookup this child σ) as (σ' & Hrun & Hlook);
    [by eexists..|].
  exists σ'. split; [done|]. split; [|done].
  split; [|split].
  - intros p fp' c Hp Hc.
    destruct (lookup_through _ _ _ _ _ Hlook Hp) as (fp & Hp0 & ->).
    simpl in Hc.
    assert (c ∈ children fp ∧ c ≠ child) as [Hc0 Hne].
    { destruct (decide (p = this)) as [->|Hpt].
      - split; [by eapply Remove_subset|]. intros ->.
        by apply (Remove_NoDup child (children fp) (I3 _ _ Hp0)).
      - split; [done|]. intros ->.
        destruct (I1 _ _ _ Hp0 Hc) as (fc' & Hfc' & Hparent').
        congruence. }
    destruct (I1 _ _ _ Hp0 Hc0) as (fc0 & Hfc0 & Hparent0).
    eexists. rewrite Hlook, Hfc0. simpl. split; [done|]. simpl.
    by rewrite decide_False.
  - intros c fc' p Hc Hp.
    destruct (lookup_through _ _ _ _ _ Hlook Hc) as (fc0 & Hc0 & ->).
    simpl in Hp. destruct (decide (c = child)) as [->|Hne]; [done|].
    destruct (I2 _ _ _ Hc0 Hp) as (fp & Hp0 & Hlisted0).
    eexists. rewrite Hlook, Hp0. simpl. split; [done|]. simpl.
    destruct (decide (p = this)); [|done]. by apply Remove_other.
  - intros p fp' Hp.
    destruct (lookup_through _ _ _ _ _ Hlook Hp) as (fp & Hp0 & ->).
    simpl. destruct (decide (p = this)); [|by eapply I3].
    by apply Remove_NoDup, (I3 _ _ Hp0).
Qed.

(** Attaching a child that has no parent keeps the heap linked. *)
Lemma attach_linked this child (σ σ' : Heap) fc :
  linked σ → is_Some (σ !! this) →
  σ !! child = Some fc → parent fc = None →
  (∀ x, σ' !! x
        = (λ fx, {| children := if decide (x = this)
                                then children fx ++ [child]
                                else children fx;
                    parent := if decide (x = child) then Some this
                              else parent fx |}) <$> σ !! x) →
  linked σ'.
Proof.
  intros (I1 & I2 & I3) [self Hself] Hfc Hparent Hlook.
  assert (∀ p fp, σ !! p = Some fp → child ∉ children fp) as Hfree.
  { intros p fp Hp Hin. destruct (I1 _ _ _ Hp Hin) as (? & ? & ?).
    congruence. }
  split; [|split].
  - intros p fp' c Hp Hc.
    destruct (lookup_through _ _ _ _ _ Hlook Hp) as (fp & Hp0 & ->).
    simpl in Hc.
    destruct (decide (c = child)) as [->|Hne].
    + eexists. rewrite Hlook, Hfc. simpl. split; [done|]. simpl.
      rewrite decide_True by done.
      destruct (decide (p = this)) as [->|Hpt]; [done|].
      by destruct (Hfree _ _ Hp0 Hc).
    + assert (c ∈ children fp) as Hc0.
      { destruct (decide (p = this)); [|done].
        apply elem_of_app in Hc as [?|?%list_elem_of_singleton]; done. }
      destruct (I1 _ _ _ Hp0 Hc0) as (fc0 & Hfc0 & Hparent0).
      eexists. rewrite Hlook, Hfc0. simpl. split; [done|]. simpl.
      by rewrite decide_False.
  - intros c fc' p Hc Hp.
    destruct (lookup_through _ _ _ _ _ Hlook Hc) as (fc0 & Hc0 & ->).
    simpl in Hp. destruct (decide (c = child)) as [->|Hne].
    + injection Hp as <-. eexists. rewrite Hlook, Hself. simpl.
      split; [done|]. simpl. rewrite decide_True by done.
      apply elem_of_app. right. by apply list_elem_of_singleton.
    + destruct (I2 _ _ _ Hc0 Hp) as (fp & Hp0 & Hlisted0).
      eexists. rewrite Hlook, Hp0. simpl. split; [done|]. simpl.
      destruct (decide (p = this)); [|done]. apply elem_of_app. by left.
  - intros p fp' Hp.
    destruct (lookup_through _ _ _ _ _ Hlook Hp) as (fp & Hp0 & ->).
    simpl. destruct (decide (p = this)); [|by eapply I3].
    apply NoDup_app. split; [by eapply I3|]. split; [|apply NoDup_singleton].
    intros x Hx ->%list_elem_of_singleton. by destruct (Hfree _ _ Hp0 Hx).
Qed.

(** [RemoveChild] called on the parent of [child] leaves the child with
    no parent and listed by no field, takes nothing else from the list
    of [this], and keeps the heap linked. *)
Theorem RemoveChild_unlinks this child σ fc :
  linked σ → σ !! child = Some fc → parent fc = Some this →
  ∃ σ', RemoveChild this child σ = Some σ'
        ∧ linked σ'
        ∧ parent_of σ' child None
        ∧ (∀ p, ¬ lists σ' p child)
        ∧ (∀ c, c ≠ child → lists σ this c → lists σ' this c)
        ∧ ∀ x p, x ≠ child → parent_of σ x p → parent_of σ' x p.
Proof.
  intros Hlinked Hfc Hparent.
  destruct (RemoveChild_linked this child σ fc Hlinked Hfc Hparent)
    as (σ' & Hrun & Hlinked' & Hlook).
  exists σ'. split; [done|]. split; [done|].
  assert (parent_of σ' child None) as Hnone.
  { eexists. rewrite Hlook, Hfc. simpl. split; [done|]. simpl.
    by rewrite decide_True. }
  split; [done|]. split; [|split].
  - intros p (fp & Hp & Hin). destruct Hnone as (fc' & Hfc' & Hnone).
    destruct Hlinked' as (I1 & _). destruct (I1 _ _ _ Hp Hin) as (? & ? & ?).
    congruence.
  - intros c Hne (self & Hself & Hin). eexists. rewrite Hlook, Hself. simpl.
    split; [done|]. simpl. rewrite decide_True by done.
    by apply Remove_other.
  - intros x p Hne (fx & Hx & Hp). eexists. rewrite Hlook, Hx. simpl.
    split; [done|]. simpl. by rewrite decide_False.
Qed.

(** [RemoveChild] called on a field other than the parent of [child]
    sets the parent of [child] to null all the same, while its parent
    goes on listing it: the heap is linked no more. *)
Theorem RemoveChild_of_stranger this child σ fc q :
  linked σ → is_Some (σ !! this) →
  σ !! child = Some fc → parent fc = Some q → q ≠ this →
  ∃ σ', RemoveChild this child σ = Some σ'
        ∧ parent_of σ' child None
        ∧ lists σ' q child
        ∧ ¬ linked σ'.
Proof.
  intros (I1 & I2 & I3) Hthis Hfc Hparent Hne.
  destruct (RemoveChild_lookup this child σ) as (σ' & Hrun & Hlook);
    [done|by eexists|].
  exists σ'. split; [done|].
  assert (parent_of σ' child None) as Hnone.
  { eexists. rewrite Hlook, Hfc. simpl. split; [done|]. simpl.
    by rewrite decide_True. }
  assert (lists σ' q child) as Hlists.
  { destruct (I2 _ _ _ Hfc Hparent) as (fq & Hq & Hin).
    eexists. rewrite Hlook, Hq. simpl. split; [done|]. simpl.
    by rewrite decide_False. }
  split; [done|]. split; [done|].
  intros (I1' & _). destruct Hlists as (fq & Hq & Hin).
  destruct (I1' _ _ _ Hq Hin) as (fc' & Hfc' & Hparent').
  destruct Hnone as (fc'' & Hfc'' & Hnone). congruence.
Qed.

(** *** Adding a child *)

(** The heap [AddChild] returns when the child is not yet a child of
    [this]: the heap after the child is detached from its parent, with
    the child appended to the list of [this] and [this] as its parent. *)
Lemma AddChild_moves this child σ fc :
  linked σ → is_Some (σ !! this) →
  σ !! child = Some fc → parent fc ≠ Some this →
  ∃ σ1 σ' fc1,
    AddChild this child σ = Some σ'
    ∧ linked σ1 ∧ σ1 !! child = Some fc1 ∧ parent fc1 = None
    ∧ is_Some (σ1 !! this)
    ∧ (∀ x p, x ≠ child → parent_of σ x p → parent_of σ1 x p)
    ∧ ∀ x, σ' !! x
           = (λ fx, {| children := if decide (x = this)
                                   then children fx ++ [child]
                                   else children fx;
                       parent := if decide (x = child) then Some this
                                 else parent fx |}) <$> σ1 !! x.
Proof.
  intros Hlinked Hthis Hfc Hparent. unfold AddChild. rewrite Hfc. simpl.
  rewrite decide_False by done.
  assert (∃ σ1 fc1,
            match parent fc with
            | Some p => RemoveChild p child σ
            | None => Some σ
            end = Some σ1
            ∧ linked σ1 ∧ σ1 !! child = Some fc1 ∧ parent fc1 = None
            ∧ is_Some (σ1 !! this)
            ∧ ∀ x p, x ≠ child → parent_of σ x p → parent_of σ1 x p)
    as (σ1 & fc1 & -> & Hlinked1 & Hfc1 & Hnone & Hthis1 & Hothers).
  { destruct (parent fc) as [p|] eqn:Hp.
    - destruct (RemoveChild_linked p child σ fc Hlinked Hfc Hp)
        as (σ1 & -> & Hlinked1 & Hlook).
      eexists σ1, _. split; [done|]. split; [done|]. split.
      { rewrite Hlook, Hfc. simpl. done. }
      split; [simpl; by rewrite decide_True|]. split.
      + destruct Hthis as [self Hself]. rewrite Hlook, Hself. by eexists.
      + intros x p' Hne (fx & Hx & Hp'). eexists. rewrite Hlook, Hx. simpl.
        split; [done|]. simpl. by rewrite decide_False.
    - exists σ, fc. eauto 10. }
  simpl.
  destruct (attach_lookup this child σ1) as (σ' & Hrun & Hlook);
    [done|by eexists|].
  simpl in Hrun. rewrite Hrun. exists σ1, σ', fc1. eauto 10.
Qed.

(** On a linked heap [AddChild] completes and keeps the heap linked:
    afterwards [this] is the parent of [child] and lists it, no field
    but the child has changed parent, and so the field that was the
    parent of [child] lists it no longer. *)
Theorem AddChild_keeps_linked this child σ :
  linked σ → is_Some (σ !! this) → is_Some (σ !! child) →
  ∃ σ', AddChild this child σ = Some σ'
        ∧ linked σ'
        ∧ parent_of σ' child (Some this)
        ∧ lists σ' this child
        ∧ (∀ p, lists σ' p child → p = this)
        ∧ ∀ x p, x ≠ child → parent_of σ x p → parent_of σ' x p.
Proof.
  intros Hlinked Hthis [fc Hfc].
  assert (∀ σ', linked σ' → parent_of σ' child (Some this) →
                lists σ' this child ∧ ∀ p, lists σ' p child → p = this)
    as Hsole.
  { intros σ' (I1 & I2 & _) (fc' & Hfc' & Hparent'). split.
    - by apply (I2 _ _ _ Hfc' Hparent').
    - intros p (fp & Hp & Hin). destruct (I1 _ _ _ Hp Hin) as (? & ? & ?).
      congruence. }
  destruct (decide (parent fc = Some this)) as [Hown|Hother].
  - exists σ. unfold AddChild. rewrite Hfc. simpl.
    rewrite decide_True by done. split; [done|]. split; [done|].
    assert (parent_of σ child (Some this)) as Hp by (by eexists).
    destruct (Hsole σ Hlinked Hp). eauto.
  - destruct (AddChild_moves this child σ fc Hlinked Hthis Hfc Hother)
      as (σ1 & σ' & fc1 & Hrun & Hlinked1 & Hfc1 & Hnone & Hthis1
          & Hothers & Hlook).
    exists σ'. split; [done|].
    assert (linked σ') as Hlinked'
      by (by eapply (attach_linked this child σ1 σ' fc1)).
    assert (parent_of σ' child (Some this)) as Hp.
    { eexists. rewrite Hlook, Hfc1. simpl. split; [done|]. simpl.
      by rewrite decide_True. }
    destruct (Hsole σ' Hlinked' Hp). split; [done|]. split; [done|].
    split; [done|]. split; [done|].
    intros x p Hne Hx. destruct (Hothers x p Hne Hx) as (fx & Hx1 & Hp1).
    eexists. rewrite Hlook, Hx1. simpl. split; [done|]. simpl.
    by rewrite decide_False.
Qed.

(** A second [AddChild] of the same child to the same field changes
    nothing. *)
Theorem AddChild_twice this child σ σ' :
  AddChild this child σ = Some σ' → AddChild this child σ' = Some σ'.
Proof.
  unfold AddChild at 1.
  destruct (σ !! child) as [fc|] eqn:Hfc; simpl; [|done].
  destruct (decide (parent fc = Some this)) as [Hown|Hother].
  - intros [= <-]. unfold AddChild. rewrite Hfc. simpl.
    by rewrite decide_True.
  - destruct (match parent fc with
              | Some p => RemoveChild p child σ
              | None => Some σ
              end) as [σ1|]; simpl; [|done].
    destruct (σ1 !! this) as [self|]; simpl; [|done].
    match goal with
    | |- context [<[this := ?f]> σ1 !! child] =>
        destruct (<[this := f]> σ1 !! child) as [c|]
    end; simpl; [|done].
    intros [= <-]. unfold AddChild. rewrite lookup_insert_eq. simpl.
    by rewrite decide_True.
Qed.

(** Adding a child that has no parent and removing it again gives back
    the heap as it was. *)
Theorem AddChild_then_RemoveChild this child σ fc :
  linked σ → is_Some (σ !! this) →
  σ !! child = Some fc → parent fc = None →
  ∃ σ1, AddChild this child σ = Some σ1
        ∧ RemoveChild this child σ1 = Some σ.
Proof.
  intros Hlinked [self Hself] Hfc Hnone.
  assert (child ∉ children self) as Hfree.
  { destruct Hlinked as (I1 & _). intros Hin.
    destruct (I1 _ _ _ Hself Hin) as (? & ? & ?). congruence. }
  destruct (attach_lookup this child σ) as (σ1 & Hrun & Hlook);
    [by eexists..|].
  exists σ1. split.
  { unfold AddChild. rewrite Hfc. simpl. rewrite Hnone. simpl.
    simpl in Hrun. done. }
  destruct (RemoveChild_lookup this child σ1) as (σ2 & -> & Hlook2).
  { rewrite Hlook, Hself. by eexists. }
  { rewrite Hlook, Hfc. by eexists. }
  f_equal. apply map_eq. intros x. rewrite Hlook2, Hlook.
  destruct (σ !! x) as [fx|] eqn:Hx; simpl; [|done]. f_equal.
  destruct fx as [ch pa]. simpl. f_equal.
  - destruct (decide (x = this)) as [->|?]; [|done].
    rewrite Hself in Hx. injection Hx as ->. by apply Remove_last.
  - destruct (decide (x = child)) as [->|?]; [|done].
    rewrite Hfc in Hx. injection Hx as ->. simpl in Hnone. by subst.
Qed.

(** *** The statements at concrete fields *)

Ltac field_cases H :=
  repeat match type of H with
    | <[_ := _]> _ !! _ = Some _ =>
        apply lookup_insert_Some in H as [[<- <-]|[? H]]
    | {[ _ := _ ]} !! _ = Some _ =>
        apply lookup_singleton_Some in H as [<- <-]
    end.

Lemma three_fields_linked : linked three_fields.
Proof.
  unfold linked, three_fields. split; [|split].
  - intros p fp c Hp Hc. field_cases Hp; simpl in Hc.
    + apply list_elem_of_singleton in Hc as ->. eexists.
      split; reflexivity.
    + by apply elem_of_nil in Hc.
    + by apply elem_of_nil in Hc.
  - intros c fc p Hc Hp. field_cases Hc; simpl in Hp; try done.
    injection Hp as <-. eexists. split; [reflexivity|]. simpl.
    by apply list_elem_of_singleton.
  - intros p fp Hp. field_cases Hp; simpl;
      repeat constructor; by intros ?%elem_of_nil.
Qed.

Lemma RemoveChild_unlinks_witness :
  ∃ σ', RemoveChild 1%positive 2%positive three_fields = Some σ'
        ∧ linked σ'
        ∧ parent_of σ' 2%positive None
        ∧ (∀ p, ¬ lists σ' p 2%positive)
        ∧ (∀ c, c ≠ 2%positive → lists three_fields 1%positive c →
                lists σ' 1%positive c)
        ∧ ∀ x p, x ≠ 2%positive → parent_of three_fields x p →
                 parent_of σ' x p.
Proof.
  apply (RemoveChild_unlinks 1%positive 2%positive three_fields
           {| children := []; parent := Some 1%positive |}).
  - apply three_fields_linked.
  - reflexivity.
  - reflexivity.
Defined.

Lemma RemoveChild_of_stranger_witness :
  ∃ σ', RemoveChild 3%positive 2%positive three_fields = Some σ'
        ∧ parent_of σ' 2%positive None
        ∧ lists σ' 1%positive 2%positive
        ∧ ¬ linked σ'.
Proof.
  apply (RemoveChild_of_stranger 3%positive 2%positive three_fields
           {| children := []; parent := Some 1%positive |} 1%positive).
  - apply three_fields_linked.
  - eexists. reflexivity.
  - reflexivity.
  - reflexivity.
  - discriminate.
Defined.

Lemma AddChild_keeps_linked_witness :
  ∃ σ', AddChild 3%positive 2%positive three_fields = Some σ'
        ∧ linked σ'
        ∧ parent_of σ' 2%positive (Some 3%positive)
        ∧ lists σ' 3%positive 2%positive
        ∧ (∀ p, lists σ' p 2%positive → p = 3%positive)
        ∧ ∀ x p, x ≠ 2%positive → parent_of three_fields x p →
                 parent_of σ' x p.
Proof.
  apply (AddChild_keeps_linked 3%positive 2%positive three_fields).
  - apply three_fields_linked.
  - eexists. reflexivity.
  - eexists. reflexivity.
Defined.

Lemma AddChild_twice_witness :
  ∃ σ', AddChild 3%positive 2%positive three_fields = Some σ'
        ∧ AddChild 3%positive 2%positive σ' = Some σ'.
Proof.
  eexists. split; [vm_compute; reflexivity|].
  apply (AddChild_twice 3%positive 2%positive three_fields).
  vm_compute. reflexivity.
Defined.

Lemma AddChild_then_RemoveChild_witness :
  ∃ σ1, AddChild 1%positive 3%positive three_fields = Some σ1
        ∧ RemoveChild 1%positive 3%positive σ1 = Some three_fields.
Proof.
  apply (AddChild_then_RemoveChild 1%positive 3%positive three_fields
           {| children := []; parent := None |}).
  - apply three_fields_linked.
  - eexists. reflexivity.
  - reflexivity.
  - reflexivity.
Defined.

End InspectableFieldProofs.
